(** * ODD-STh kernel (grakel/kernels/odd_sth.py): a shallow embedding

    The Python module builds, for every vertex of every input graph, a
    bounded-depth DAG ([dag]), orders it with Kahn's algorithm ([odd]),
    hashes every rooted subtree into a canonical string ([hash_trees]),
    folds the hashed DAGs into a Big DAG ([big_dag_append]) and reduces the
    Big DAG to a kernel matrix ([odd_sth_matrix]).

    Python dictionaries are [gmap]s, Python sets are [gset]s, Python lists
    are [list]s, integers are [Z], vertices and Big-DAG node indices are
    [nat].  A Python exception is a [Raise]; a [while] loop is a fuelled
    fixpoint whose fuel is computed from its input and shown sufficient. *)

From Stdlib Require Import ZArith String Ascii List Lia.
From stdpp Require Import base option list sorting gmap strings fin_maps.

Set Default Proof Using "Type".
Set Warnings "-clear-no-such-hyp".

(** ** Outcomes of a call *)

Inductive exn := ValueError | KeyError | TypeError | IndexError | AttributeError.

Inductive result (A : Type) :=
  | Ok (a : A)
  | Raise (e : exn)
  | NoFuel.
Arguments Ok {A} a.
Arguments Raise {A} e.
Arguments NoFuel {A}.

#[global] Instance result_ret : MRet result := λ A a, Ok a.
#[global] Instance result_bind : MBind result := λ A B f m,
  match m with
  | Ok a => f a
  | Raise e => Raise e
  | NoFuel => NoFuel
  end.

#[global] Instance result_fmap : FMap result := λ A B f m,
  match m with
  | Ok a => Ok (f a)
  | Raise e => Raise e
  | NoFuel => NoFuel
  end.

(** [d[k]] on a dictionary: a missing key raises [KeyError]. *)
Definition getitem `{Countable K} {V} (d : gmap K V) (k : K) : result V :=
  match d !! k with
  | Some v => Ok v
  | None => Raise KeyError
  end.

(** ** The graph collaborator *)

(** Modelled from the spec: the external graph class [grakel.graph] is not
    part of the sources; the kernel consumes exactly three operations of
    it: enumerate all vertices, enumerate the neighbours of a vertex, look
    up the labels.  Labels are strings, as in the module's own example. *)
Record graph := Graph {
  get_vertices : list nat;
  adjacency : gmap nat (list nat);
  get_labels : gmap nat string
}.

Definition neighbors (g : graph) (u : nat) : list nat :=
  default [] (adjacency g !! u).

(** ** [dag]: breadth-first extraction *)

Abbreviation bfs_state :=
  (list (nat * Z) * gmap nat Z * gmap nat (list nat))%type.

(** The body of [for n in g.neighbors(u)]. *)
Definition dag_visit (u : nat) (level : Z) (st : bfs_state) (n : nat) : bfs_state :=
  let '(q, vertices, edges) := st in
  match vertices !! n with
  | None =>
      (q ++ [(n, (level + 1)%Z)], <[n := (level + 1)%Z]> vertices,
       alter (λ l, l ++ [n]) u edges)
  | Some ln =>
      if (level + 1 <=? ln)%Z
      then (q, vertices, alter (λ l, l ++ [n]) u edges)
      else st
  end.

(** One iteration of [while len(q) > 0], after the [break] test. *)
Definition dag_body (g : graph) (u : nat) (level : Z) (q : list (nat * Z))
    (vertices : gmap nat Z) (edges : gmap nat (list nat)) : bfs_state :=
  let edges1 := match edges !! u with
                | None => <[u := []]> edges
                | Some _ => edges
                end in
  fold_left (dag_visit u level) (neighbors g u) (q, vertices, edges1).

Fixpoint dag_loop (fuel : nat) (g : graph) (h : Z) (st : bfs_state)
    : result (gmap nat Z * gmap nat (list nat)) :=
  match fuel with
  | O => NoFuel
  | S fuel' =>
      let '(q, vertices, edges) := st in
      match q with
      | [] => Ok (vertices, edges)
      | (u, level) :: q' =>
          if (level =? h)%Z then Ok (vertices, edges)
          else dag_loop fuel' g h (dag_body g u level q' vertices edges)
      end
  end.

(** Every vertex that can ever be enqueued after the root occurs in some
    adjacency list; the loop needs one iteration per enqueued vertex and
    one more to see the empty queue. *)
Definition targets (g : graph) : gset nat :=
  ⋃ ((λ kv : nat * list nat, list_to_set kv.2) <$> map_to_list (adjacency g)).

Definition dag_fuel (g : graph) : nat := S (S (size (targets g))).

(** [h is None] becomes the sentinel [-1]; an explicit [h <= 0] raises. *)
Definition dag_bound (h : option Z) : result Z :=
  match h with
  | None => Ok (-1)%Z
  | Some h => if (h <=? 0)%Z then Raise ValueError else Ok h
  end.

(** [dag] up to its last line: the level dictionary and the edges. *)
Definition dag_levels (v : nat) (g : graph) (h : option Z)
    : result (gmap nat Z * gmap nat (list nat)) :=
  h' ← dag_bound h;
  dag_loop (dag_fuel g) g h' ([(v, 0%Z)], {[v := 0%Z]}, ∅).

Definition dag (v : nat) (g : graph) (h : option Z)
    : result (gset nat * gmap nat (list nat)) :=
  '(vertices, edges) ← dag_levels v g h;
  Ok (dom vertices, edges).

(** ** Python helpers: loops that may raise, [sorted], dictionary views *)

(** A [for] loop over a list whose body may raise. *)
Fixpoint for_each {A S : Type} (body : S → A → result S) (s : S) (l : list A)
    : result S :=
  match l with
  | [] => Ok s
  | x :: l' => s' ← body s x; for_each body s' l'
  end.

Fixpoint insert_key {K A : Type} (le : K → K → bool) (x : K * A)
    (l : list (K * A)) : list (K * A) :=
  match l with
  | [] => [x]
  | y :: l' => if le x.1 y.1 then x :: y :: l' else y :: insert_key le x l'
  end.

Definition sort_keyed {K A : Type} (le : K → K → bool) (l : list (K * A))
    : list (K * A) :=
  foldr (insert_key le) [] l.

(** The key function is evaluated once on every element, in order. *)
Fixpoint keyed {K A : Type} (key : A → result K) (l : list A)
    : result (list (K * A)) :=
  match l with
  | [] => Ok []
  | x :: l' => k ← key x; r ← keyed key l'; Ok ((k, x) :: r)
  end.

(** [sorted(l, key=key)] and [l.sort(key=key)]: a stable sort. *)
Definition py_sorted {K A : Type} (le : K → K → bool) (key : A → result K)
    (l : list A) : result (list A) :=
  kl ← keyed key l; Ok ((sort_keyed le kl).*2).

(** Order of the keys [(ordering[x], labels[x])]: tuples compare
    lexicographically. *)
Definition rank_le (a b : Z * string) : bool :=
  (a.1 <? b.1)%Z || ((a.1 =? b.1)%Z && String.leb a.2 b.2).

Definition rank_key (ordering : gmap nat Z) (labels : gmap nat string)
    (x : nat) : result (Z * string) :=
  o ← getitem ordering x; lb ← getitem labels x; Ok (o, lb).

(** Keys of a dictionary whose keys were inserted in increasing order (the
    Big DAG allocates its node indices from a counter). *)
Definition dict_keys {V : Type} (d : gmap nat V) : list nat :=
  merge_sort le (map_to_list d).*1.

(** Rebuild a dictionary entry by entry with a function that may raise. *)
Definition dict_mapM {V W : Type} (f : V → result W) (d : gmap nat V)
    : result (gmap nat W) :=
  foldr (λ kv acc, m ← acc; w ← f kv.2; Ok (<[kv.1 := w]> m)) (Ok ∅)
        (map_to_list d).

(** [l[0]] *)
Definition first_item {A : Type} (l : list A) : result A :=
  match l with
  | [] => Raise IndexError
  | x :: _ => Ok x
  end.

(** ** [odd]: Kahn's algorithm with label tie-break *)

(** The vertex collection handed to [odd]: a set, a dictionary keyed by the
    vertices, or a value of any other type. *)
Inductive vcoll (V : Type) :=
  | VSet (s : gset nat)
  | VDict (d : gmap nat V)
  | VOther.
Arguments VSet {V} s.
Arguments VDict {V} d.
Arguments VOther {V}.

Definition count_edge (st : gmap nat nat * gset nat) (v : nat)
    : gmap nat nat * gset nat :=
  let '(indegrees, zero_indegrees) := st in
  (match indegrees !! v with
   | None => <[v := 1]> indegrees
   | Some c => <[v := S c]> indegrees
   end, zero_indegrees ∖ {[v]}).

Definition odd_indegrees (edges : gmap nat (list nat)) (zero_indegrees : gset nat)
    : gmap nat nat * gset nat :=
  fold_left (λ st ke, fold_left count_edge ke.2 st) (map_to_list edges)
            (∅, zero_indegrees).

(** The body of [for k in edges[e]]. *)
Definition odd_relax (st : gmap nat nat * list nat) (k : nat)
    : gmap nat nat * list nat :=
  let '(indegrees, q) := st in
  match indegrees !! k with
  | None => st
  | Some c =>
      if c =? 1 then (delete k indegrees, q ++ [k])
      else (<[k := c - 1]> indegrees, q)
  end.

Fixpoint odd_loop (fuel : nat) (edges : gmap nat (list nat))
    (labels : gmap nat string) (q : list nat) (indegrees : gmap nat nat)
    (ordering : gmap nat Z) (visited_nodes : Z) : result (gmap nat Z) :=
  match fuel with
  | O => NoFuel
  | S fuel' =>
      match q with
      | [] => Ok ordering
      | _ :: _ =>
          q1 ← py_sorted String.leb (getitem labels) q;
          match q1 with
          | [] => Raise IndexError
          | e :: q2 =>
              es ← getitem edges e;
              let '(indegrees', q3) := fold_left odd_relax es (indegrees, q2) in
              odd_loop fuel' edges labels q3 indegrees'
                       (<[e := visited_nodes]> ordering) (visited_nodes - 1)%Z
          end
      end
  end.

(** [for k in edges.keys(): edges[k].sort(key=...)] *)
Definition sort_edges (ordering : gmap nat Z) (labels : gmap nat string)
    (edges : gmap nat (list nat)) : result (gmap nat (list nat)) :=
  dict_mapM (py_sorted rank_le (rank_key ordering labels)) edges.

Definition odd_start {V : Type} (vertices : vcoll V) : result (gset nat * Z) :=
  match vertices with
  | VSet s => Ok (s, Z.of_nat (size s))
  | VDict d => Ok (dom d, Z.of_nat (size d))
  | VOther => Raise ValueError
  end.

(** Every iteration pops one vertex, and a vertex is pushed only when it
    leaves [indegrees]: [len(q) + len(indegrees)] iterations empty the
    queue and one more sees it empty. *)
Definition odd {V : Type} (vertices : vcoll V) (edges : gmap nat (list nat))
    (labels : gmap nat string)
    : result (vcoll V * gmap nat (list nat) * gmap nat Z * gmap nat string) :=
  '(zero_indegrees, visited_nodes) ← odd_start vertices;
  let '(indegrees, zero_indegrees') := odd_indegrees edges zero_indegrees in
  let q := elements zero_indegrees' in
  ordering ← odd_loop (S (length q + size indegrees)) edges labels q indegrees
                      ∅ visited_nodes;
  edges' ← sort_edges ordering labels edges;
  Ok (vertices, edges', ordering, labels).

(** ** [hash_trees]: canonical identities and depth-weights *)

(** A hashed vertex [[d, 1, ID]]. *)
Abbreviation dnode := (Z * Z * string)%type.

(** [if key not in m: m[key] = list()] followed by [m[key].append(v)]. *)
Definition bucket_append (key : string) (v : nat) (m : gmap string (list nat))
    : gmap string (list nat) :=
  <[key := default [] (m !! key) ++ [v]]> m.

(** The body of [for n in edge[v]]. *)
Definition hash_child (vertices : gmap nat dnode) (st : Z * list string)
    (n : nat) : result (Z * list string) :=
  let '(d, neighbors_ids) := st in
  '(dn, _, idn) ← getitem vertices n;
  Ok ((d + (1 + dn))%Z, neighbors_ids ++ [idn]).

Definition is_leaf (edge : gmap nat (list nat)) (v : nat) : bool :=
  match edge !! v with
  | None => true
  | Some l => bool_decide (length l = 0)
  end.

(** The body of [for v in v_ordered]. *)
Definition hash_step (edge : gmap nat (list nat)) (labels : gmap nat string)
    (st : gmap nat dnode * gmap string (list nat)) (v : nat)
    : result (gmap nat dnode * gmap string (list nat)) :=
  let '(vertices, vertices_hash_map) := st in
  if is_leaf edge v then
    lab ← getitem labels v;
    Ok (<[v := (0%Z, 1%Z, lab)]> vertices, bucket_append lab v vertices_hash_map)
  else
    '(d, neighbors_ids) ← for_each (hash_child vertices) (0%Z, [])
                                   (default [] (edge !! v));
    lab ← getitem labels v;
    let ID := (lab ++ "(" ++ String.concat "," neighbors_ids ++ ")")%string in
    Ok (<[v := (d, 1%Z, ID)]> vertices, bucket_append ID v vertices_hash_map).

(** [list(vertex)] *)
Definition vcoll_list {V : Type} (c : vcoll V) : result (list nat) :=
  match c with
  | VSet s => Ok (elements s)
  | VDict d => Ok (dict_keys d)
  | VOther => Raise TypeError
  end.

Definition hash_trees {V : Type}
    (tree : vcoll V * gmap nat (list nat) * gmap nat Z * gmap nat string)
    : result (gmap nat dnode * gmap string (list nat) * list nat) :=
  let '(vertex, edge, ordering, labels) := tree in
  l ← vcoll_list vertex;
  v_ordered ← py_sorted rank_le (rank_key ordering labels) l;
  '(vertices, vertices_hash_map) ← for_each (hash_step edge labels) (∅, ∅) v_ordered;
  Ok (vertices, vertices_hash_map, v_ordered).

(** ** [big_dag_append]: folding a dag into the Big DAG *)

(** The frequency slot of a Big-DAG node: an integer when features are
    merged, a list with one slot per folded graph otherwise. *)
Inductive freq :=
  | Scalar (n : Z)
  | Vector (l : list Z).

(** A Big-DAG node [[vertices[q][1], freq, key]]. *)
Abbreviation bnode := (Z * freq * string)%type.

Record bigdag := BigDag {
  D_vertices : gmap nat bnode;
  D_hash_map : gmap string (list nat);
  D_edges : gmap nat (list nat);
  D_labels : gmap nat string
}.

(** The [dag] argument: [(vertices, vertices_hash_map, v_ordered, edges,
    labels)]. *)
Abbreviation hashed_dag :=
  (gmap nat dnode * gmap string (list nat) * list nat * gmap nat (list nat)
   * gmap nat string)%type.

(** [D_vertices[v][1].append(0)] *)
Definition append_zero (n : bnode) : result bnode :=
  match n with
  | (c, Vector l, k) => Ok (c, Vector (l ++ [0%Z]), k)
  | (_, Scalar _, _) => Raise AttributeError
  end.

Definition freq_len (n : bnode) : nat :=
  match n with
  | (_, Vector l, _) => length l
  | (_, Scalar _, _) => 0
  end.

(** Everything before the main loop: the Big DAG to update, [nodes_idx]
    and [nf].  With [merge_features] set and a Big DAG given, Python leaves
    [nf] unbound and never reads it. *)
Definition bda_init (big_dag : option bigdag) (merge_features : bool)
    : result (bigdag * nat * nat) :=
  match big_dag with
  | None => Ok (BigDag ∅ ∅ ∅ ∅, 0, 1)
  | Some D =>
      let nodes_idx := size (D_vertices D) in
      if merge_features then Ok (D, nodes_idx, 1)
      else
        Dv ← dict_mapM append_zero (D_vertices D);
        let nf := match dict_keys Dv with
                  | [] => 1
                  | v :: _ => from_option freq_len 1 (Dv !! v)
                  end in
        Ok (BigDag Dv (D_hash_map D) (D_edges D) (D_labels D), nodes_idx, nf)
  end.

(** [D_vertices[node][1] += c] and [D_vertices[node][1][-1] += c] *)
Definition bump (merge_features : bool) (f : freq) (c : Z) : result freq :=
  if merge_features then
    match f with
    | Scalar a => Ok (Scalar (a + c))
    | Vector _ => Raise TypeError
    end
  else
    match f with
    | Scalar _ => Raise TypeError
    | Vector l =>
        match last l with
        | None => Raise IndexError
        | Some a => Ok (Vector (removelast l ++ [(a + c)%Z]))
        end
    end.

(** The body of [for c in edges[q]]. *)
Definition bda_child (vertices : gmap nat dnode) (hm : gmap string (list nat))
    (st : list nat * gset nat) (c : nat) : result (list nat * gset nat) :=
  let '(d_edges, v_nodes) := st in
  '(_, _, ck) ← getitem vertices c;
  match hm !! ck with
  | None => Ok st
  | Some ns =>
      node ← first_item ns;
      if decide (node ∈ v_nodes) then Ok st
      else Ok (d_edges ++ [node], v_nodes ∪ {[node]})
  end.

(** The body of [for q in v_ordered]. *)
Definition bda_step (merge_features : bool) (nf : nat) (dag : hashed_dag)
    (st : bigdag * nat) (q : nat) : result (bigdag * nat) :=
  let '(vertices, _, _, edges, labels) := dag in
  let '(D, nodes_idx) := st in
  '(_, cnt, key) ← getitem vertices q;
  match D_hash_map D !! key with
  | Some ns =>
      node ← first_item ns;
      '(c0, f, k) ← getitem (D_vertices D) node;
      f' ← bump merge_features f cnt;
      Ok (BigDag (<[node := (c0, f', k)]> (D_vertices D)) (D_hash_map D)
                 (D_edges D) (D_labels D), nodes_idx)
  | None =>
      lab ← getitem labels q;
      es ← getitem edges q;
      '(d_edges, _) ← for_each (bda_child vertices (D_hash_map D)) ([], ∅) es;
      let fr := if merge_features then Scalar cnt
                else Vector (replicate (nf - 1) 0%Z ++ [cnt]) in
      Ok (BigDag (<[nodes_idx := (cnt, fr, key)]> (D_vertices D))
                 (<[key := [nodes_idx]]> (D_hash_map D))
                 (<[nodes_idx := d_edges]> (D_edges D))
                 (<[nodes_idx := lab]> (D_labels D)), S nodes_idx)
  end.

Definition big_dag_append (dag : hashed_dag) (big_dag : option bigdag)
    (merge_features : bool) : result bigdag :=
  '(D, nodes_idx, nf) ← bda_init big_dag merge_features;
  '(D', _) ← for_each (bda_step merge_features nf dag) (D, nodes_idx) dag.1.1.2;
  Ok D'.

(** ** [big_dag_append] on the Python heap

    The four dictionaries of a Big DAG are heap objects, and a Big-DAG tuple
    holds references to them.  This second embedding of [big_dag_append]
    keeps the references and performs every dictionary update as a write to
    the heap.  The node lists [[count, freq, key]] stored inside
    [D_vertices] are created by [big_dag_append] and referenced from nowhere
    else, so they are kept inside the dictionary object. *)

Inductive pyobj :=
  | OVertices (d : gmap nat bnode)
  | OHashMap (d : gmap string (list nat))
  | OEdges (d : gmap nat (list nat))
  | OLabels (d : gmap nat string).

Abbreviation loc := nat.
Abbreviation heap := (gmap loc pyobj).

(** The tuple [(D_vertices, D_hash_map, D_edges, D_labels)] of references. *)
Record bigref := BigRef {
  r_vertices : loc;
  r_hash_map : loc;
  r_edges : loc;
  r_labels : loc
}.

(** Computations on the heap that may raise. *)
Definition heapM (A : Type) : Type := heap → result (A * heap).

#[global] Instance heapM_ret : MRet heapM := λ A a σ, Ok (a, σ).
#[global] Instance heapM_bind : MBind heapM := λ A B f m σ,
  match m σ with
  | Ok (a, σ') => f a σ'
  | Raise e => Raise e
  | NoFuel => NoFuel
  end.

Definition lift {A : Type} (r : result A) : heapM A := λ σ,
  match r with
  | Ok a => Ok (a, σ)
  | Raise e => Raise e
  | NoFuel => NoFuel
  end.

(** [dict()]: a new object at an unused location. *)
Definition alloc (o : pyobj) : heapM loc := λ σ,
  let l := fresh (dom σ) in Ok (l, <[l := o]> σ).

Definition read_vertices (l : loc) : heapM (gmap nat bnode) := λ σ,
  match σ !! l with
  | Some (OVertices d) => Ok (d, σ)
  | _ => Raise TypeError
  end.

Definition read_hash_map (l : loc) : heapM (gmap string (list nat)) := λ σ,
  match σ !! l with
  | Some (OHashMap d) => Ok (d, σ)
  | _ => Raise TypeError
  end.

Definition read_edges (l : loc) : heapM (gmap nat (list nat)) := λ σ,
  match σ !! l with
  | Some (OEdges d) => Ok (d, σ)
  | _ => Raise TypeError
  end.

Definition read_labels (l : loc) : heapM (gmap nat string) := λ σ,
  match σ !! l with
  | Some (OLabels d) => Ok (d, σ)
  | _ => Raise TypeError
  end.

(** An update of the object at [l], in place. *)
Definition write (l : loc) (o : pyobj) : heapM unit := λ σ,
  Ok ((), <[l := o]> σ).

Fixpoint for_each_st {A S : Type} (body : S → A → heapM S) (s : S) (l : list A)
    : heapM S :=
  match l with
  | [] => mret s
  | x :: l' => s' ← body s x; for_each_st body s' l'
  end.

Definition bda_init_st (big_dag : option bigref) (merge_features : bool)
    : heapM (bigref * nat * nat) :=
  match big_dag with
  | None =>
      ll ← alloc (OLabels ∅);
      lh ← alloc (OHashMap ∅);
      lv ← alloc (OVertices ∅);
      le ← alloc (OEdges ∅);
      mret (BigRef lv lh le ll, 0, 1)
  | Some r =>
      Dv ← read_vertices (r_vertices r);
      let nodes_idx := size Dv in
      if merge_features then mret (r, nodes_idx, 1)
      else
        Dv' ← lift (dict_mapM append_zero Dv);
        _ ← write (r_vertices r) (OVertices Dv');
        let nf := match dict_keys Dv' with
                  | [] => 1
                  | v :: _ => from_option freq_len 1 (Dv' !! v)
                  end in
        mret (r, nodes_idx, nf)
  end.

Definition bda_step_st (merge_features : bool) (nf : nat) (dag : hashed_dag)
    (r : bigref) (nodes_idx : nat) (q : nat) : heapM nat :=
  let '(vertices, _, _, edges, labels) := dag in
  '(_, cnt, key) ← lift (getitem vertices q);
  hm ← read_hash_map (r_hash_map r);
  match hm !! key with
  | Some ns =>
      node ← lift (first_item ns);
      Dv ← read_vertices (r_vertices r);
      '(c0, f, k) ← lift (getitem Dv node);
      f' ← lift (bump merge_features f cnt);
      _ ← write (r_vertices r) (OVertices (<[node := (c0, f', k)]> Dv));
      mret nodes_idx
  | None =>
      lab ← lift (getitem labels q);
      Dl ← read_labels (r_labels r);
      _ ← write (r_labels r) (OLabels (<[nodes_idx := lab]> Dl));
      es ← lift (getitem edges q);
      '(d_edges, _) ← lift (for_each (bda_child vertices hm) ([], ∅) es);
      De ← read_edges (r_edges r);
      _ ← write (r_edges r) (OEdges (<[nodes_idx := d_edges]> De));
      _ ← write (r_hash_map r) (OHashMap (<[key := [nodes_idx]]> hm));
      let fr := if merge_features then Scalar cnt
                else Vector (replicate (nf - 1) 0%Z ++ [cnt]) in
      Dv ← read_vertices (r_vertices r);
      _ ← write (r_vertices r) (OVertices (<[nodes_idx := (cnt, fr, key)]> Dv));
      mret (S nodes_idx)
  end.

(** Returns the tuple of references; the Big DAG itself lives in the heap. *)
Definition big_dag_append_st (dag : hashed_dag) (big_dag : option bigref)
    (merge_features : bool) : heapM bigref :=
  '(r, nodes_idx, nf) ← bda_init_st big_dag merge_features;
  _ ← for_each_st (bda_step_st merge_features nf dag r) nodes_idx dag.1.1.2;
  mret r.

(** The Big DAG that the references [r] denote in the heap [σ]. *)
Definition read_big (σ : heap) (r : bigref) : option bigdag :=
  match σ !! r_vertices r, σ !! r_hash_map r, σ !! r_edges r, σ !! r_labels r with
  | Some (OVertices Dv), Some (OHashMap hm), Some (OEdges De), Some (OLabels Dl) =>
      Some (BigDag Dv hm De Dl)
  | _, _, _, _ => None
  end.

(** The heap [σ] with the four objects of [r] replaced by those of [D]. *)
Definition write_big (r : bigref) (D : bigdag) (σ : heap) : heap :=
  <[r_vertices r := OVertices (D_vertices D)]>
    (<[r_hash_map r := OHashMap (D_hash_map D)]>
       (<[r_edges r := OEdges (D_edges D)]>
          (<[r_labels r := OLabels (D_labels D)]> σ))).

Definition locs (r : bigref) : list loc :=
  [r_vertices r; r_hash_map r; r_edges r; r_labels r].

(** ** [make_dag_odd] and [make_big_dag] *)

(** The source calls [dag(v, g, h=None)]: the bound [h] it receives is not
    handed on. *)
Definition make_dag_odd (v : nat) (g : graph) (h : option Z)
    : result (vcoll bnode * gmap nat (list nat) * gmap nat Z * gmap nat string) :=
  '(vertices, edges) ← dag v g None;
  odd (VSet vertices) edges (get_labels g).

(** A merged Big DAG read as the [vertices] of a dag: slot 1 must hold an
    integer.  [make_big_dag] folds with [merge_features] set, so it only
    ever reads [Scalar] slots. *)
Definition as_dnode (n : bnode) : result dnode :=
  match n with
  | (c, Scalar f, k) => Ok (c, f, k)
  | (_, Vector _, _) => Raise TypeError
  end.

(** The body of [for v in g.get_vertices()]. *)
Definition mbd_step (g : graph) (h : option Z) (big_dag : option bigdag)
    (v : nat) : result (option bigdag) :=
  dag_odd ← make_dag_odd v g h;
  '(vertices, vertices_hash_map, v_ordered) ← hash_trees dag_odd;
  D ← big_dag_append (vertices, vertices_hash_map, v_ordered,
                      dag_odd.1.1.2, dag_odd.2) big_dag true;
  Ok (Some D).

Definition make_big_dag (g : graph) (h : option Z) : result hashed_dag :=
  big_dag ← for_each (mbd_step g h) None (get_vertices g);
  match big_dag with
  | None => Raise TypeError
  | Some D =>
      '(_, D_edges', D_ordering, _) ←
          odd (VDict (D_vertices D)) (D_edges D) (D_labels D);
      v_ordered ← py_sorted rank_le (rank_key D_ordering (D_labels D))
                            (dict_keys (D_vertices D));
      vertices ← dict_mapM as_dnode (D_vertices D);
      Ok (vertices, D_hash_map D, v_ordered, D_edges', D_labels D)
  end.

(** ** [odd_sth_matrix]: the kernel matrix *)

(** The matrix is a numpy array of floats into which integers are stored;
    the model keeps the integers. *)
Abbreviation matrix := (list (list Z)).

Definition zeros (rows cols : nat) : matrix := replicate rows (replicate cols 0%Z).

Definition mget (K : matrix) (i j : nat) : Z :=
  default 0%Z (K !! i ≫= (.!! j)).

(** [K[i, j] = k] *)
Definition mset (K : matrix) (i j : nat) (k : Z) : matrix :=
  alter (λ row, <[j := k]> row) i K.

(** [np.triu(K, d)]: entries below the [d]-th diagonal become zero. *)
Definition triu (d : nat) (K : matrix) : matrix :=
  imap (λ i row, imap (λ j x, if decide (i + d ≤ j) then x else 0%Z) row) K.

(** [K.T] *)
Definition transpose (K : matrix) : matrix :=
  let cols := from_option length 0 (head K) in
  (λ j, (λ i, mget K i j) <$> seq 0 (length K)) <$> seq 0 cols.

Definition madd (A B : matrix) : matrix := zip_with (zip_with Z.add) A B.

(** [big2Dag[0][v][1][i]] *)
Definition freq_item (n : bnode) (i : nat) : result Z :=
  match n with
  | (_, Vector l, _) =>
      match l !! i with
      | Some x => Ok x
      | None => Raise IndexError
      end
  | (_, Scalar _, _) => Raise TypeError
  end.

(** The body of [for v in C.keys()]. *)
Definition kernel_term (Dv : gmap nat bnode) (C : gmap nat Z) (i j : nat)
    (k : Z) (v : nat) : result Z :=
  n ← getitem Dv v;
  a ← freq_item n i;
  b ← freq_item n j;
  c ← getitem C v;
  Ok (k + a * b * c)%Z.

(** [k = 0] followed by [for v in C.keys(): k += ...]. *)
Definition kernel_sum (Dv : gmap nat bnode) (C : gmap nat Z) (i j : nat)
    : result Z :=
  for_each (kernel_term Dv C i j) 0%Z (dict_keys C).

(** The body of [for (i,j) in pairs]. *)
Definition kernel_fill (Dv : gmap nat bnode) (C : gmap nat Z) (offset : nat)
    (K : matrix) (ij : nat * nat) : result matrix :=
  k ← kernel_sum Dv C ij.1 ij.2;
  Ok (mset K (ij.1 - offset) ij.2 k).

Definition self_pairs (h_x : nat) : list (nat * nat) :=
  i ← seq 0 h_x; j ← seq i (h_x - i); [(i, j)].

Definition cross_pairs (h_x h_y : nat) : list (nat * nat) :=
  i ← seq h_x h_y; j ← seq 0 h_x; [(i, j)].

(** The body of [for g in g_iter]. *)
Definition fold_graph (h : option Z) (big2Dag : option bigdag) (g : graph)
    : result (option bigdag) :=
  big_dag ← make_big_dag g h;
  D ← big_dag_append big_dag big2Dag false;
  Ok (Some D).

(** [C[v] = big2Dag[0][v][0]] for every node. *)
Definition weights (D : bigdag) : gmap nat Z := (λ n : bnode, n.1.1) <$> D_vertices D.

(** A matrix of [rows] rows of [cols] entries each. *)
Definition shape (rows cols : nat) (K : matrix) : Prop :=
  length K = rows ∧ Forall (λ row, length row = cols) K.

(** [Graphs_x] and [Graphs_y] are dictionaries keyed [0 .. n-1]; the model
    keeps the list of their values. *)
Definition odd_sth_matrix (Graphs_x : list graph) (Graphs_y : option (list graph))
    (h : option Z) : result matrix :=
  let h_x := length Graphs_x in
  let '(h_y, g_iter, pairs, offset) :=
    match Graphs_y with
    | None => (h_x, Graphs_x, self_pairs h_x, 0)
    | Some Gy => (length Gy, Graphs_x ++ Gy, cross_pairs h_x (length Gy), h_x)
    end in
  big2Dag ← for_each (fold_graph h) None g_iter;
  match big2Dag with
  | None => Raise TypeError
  | Some D =>
      let C := weights D in
      K ← for_each (kernel_fill (D_vertices D) C offset) (zeros h_y h_x) pairs;
      match Graphs_y with
      | None => Ok (madd (triu 0 K) (transpose (triu 1 K)))
      | Some _ => Ok K
      end
  end.

(** [odd_sth] wraps the two graphs and calls [odd_sth_matrix] with
    [h=None]; the graph constructor belongs to the collaborator, so the
    model takes the two graphs directly. *)
Definition odd_sth (Gx Gy : graph) (h : option Z) : result Z :=
  K ← odd_sth_matrix [Gx] (Some [Gy]) None;
  Ok (mget K 0 0).


(** ** Vocabulary of the statements *)

(** Membership in the vertex collection of a dag. *)
Definition in_vcoll {V : Type} (v : nat) (c : vcoll V) : Prop :=
  match c with
  | VSet s => v ∈ s
  | VDict d => v ∈ dom d
  | VOther => False
  end.

(** Depth-weight [vertices[c][0]] and identity [vertices[c][2]] of a hashed
    vertex. *)
Definition depth_of (vertices : gmap nat dnode) (c : nat) : Z :=
  from_option (λ n : dnode, n.1.1) 0%Z (vertices !! c).

Definition id_of (vertices : gmap nat dnode) (c : nat) : string :=
  from_option (λ n : dnode, n.2) ""%string (vertices !! c).

Definition sumZ (l : list Z) : Z := foldr Z.add 0%Z l.

(** [x] occurs strictly before [y] in [l]. *)
Definition before {A : Type} (x y : A) (l : list A) : Prop :=
  ∃ l1 l2 l3, l = l1 ++ x :: l2 ++ y :: l3.

(** What [hash_trees] stores for a vertex, in terms of the finished
    dictionary. *)
Definition hashed_ok (edge : gmap nat (list nat)) (labels : gmap nat string)
    (vertices : gmap nat dnode) (v : nat) : Prop :=
  ∃ lab, labels !! v = Some lab ∧
    if is_leaf edge v then vertices !! v = Some (0%Z, 1%Z, lab)
    else
      let cs := default [] (edge !! v) in
      Forall (λ c, is_Some (vertices !! c)) cs ∧
      vertices !! v =
        Some (sumZ ((λ c, 1 + depth_of vertices c)%Z <$> cs), 1%Z,
              (lab ++ "(" ++ String.concat "," (id_of vertices <$> cs) ++ ")")%string).

(** [w] is reachable from [u] along one or more edges. *)
Inductive reach (edges : gmap nat (list nat)) : nat → nat → Prop :=
  | reach_edge u w l : edges !! u = Some l → w ∈ l → reach edges u w
  | reach_trans u w x : reach edges u w → reach edges w x → reach edges u x.

Definition acyclic (edges : gmap nat (list nat)) : Prop :=
  ∀ u, ¬ reach edges u u.

(** Every edge leads to a vertex recorded at least one level deeper. *)
Definition level_monotone (levels : gmap nat Z) (edges : gmap nat (list nat))
    : Prop :=
  ∀ u l n, edges !! u = Some l → n ∈ l →
    ∃ L Ln, levels !! u = Some L ∧ levels !! n = Some Ln ∧ (L + 1 ≤ Ln)%Z.

(** Invariant of the breadth-first loop: queued vertices carry their
    recorded level, and the edges kept so far are level-monotone. *)
Definition bfs_inv (st : bfs_state) : Prop :=
  (∀ u L, (u, L) ∈ st.1.1 → st.1.2 !! u = Some L) ∧ level_monotone st.1.2 st.2.

(** Work left for the breadth-first loop. *)
Definition bfs_measure (g : graph) (st : bfs_state) : nat :=
  length st.1.1 + size (targets g ∖ dom st.1.2).

(** A node with its frequency doubled. *)
Definition double_freq (n : bnode) : bnode :=
  (n.1.1, match n.1.2 with
          | Scalar f => Scalar (2 * f)
          | Vector l => Vector (Z.mul 2 <$> l)
          end, n.2).

(** The count that a partial Big DAG has recorded for a node. *)
Definition seen_count (o : option bnode) : Z :=
  match o with
  | Some (_, Scalar b, _) => b
  | _ => 0%Z
  end.

(** The node [n] of a finished Big DAG with the count that a second fold
    has added so far: the count recorded in the partial Big DAG. *)
Definition add_seen (n : bnode) (o : option bnode) : bnode :=
  match n with
  | (c, Scalar a, k) => (c, Scalar (a + seen_count o), k)
  | _ => n
  end.

(** The state of a second fold of the same dag into the finished Big DAG
    [Dn], when the first fold had reached the Big DAG [D]. *)
Definition refold_vertices (Dvn Dv : gmap nat bnode) : gmap nat bnode :=
  map_imap (λ node n, Some (add_seen n (Dv !! node))) Dvn.

Definition refold (Dn D : bigdag) : bigdag :=
  BigDag (refold_vertices (D_vertices Dn) (D_vertices D))
         (D_hash_map Dn) (D_edges Dn) (D_labels Dn).

(** Invariant of a fold in merge mode: every identity maps to one node,
    that node exists, frequencies are integers and [nodes_idx] is fresh. *)
Definition merged_wf (st : bigdag * nat) : Prop :=
  (∀ key ns, D_hash_map st.1 !! key = Some ns →
     ∃ node, ns = [node] ∧ is_Some (D_vertices st.1 !! node)) ∧
  (∀ node n, D_vertices st.1 !! node = Some n → ∃ f, n.1.2 = Scalar f) ∧
  (∀ node, is_Some (D_vertices st.1 !! node) → node < st.2).

(** The Big DAG [D'] extends [D]: identities keep their node, nodes stay. *)
Definition extends (D D' : bigdag) : Prop :=
  D_hash_map D ⊆ D_hash_map D' ∧ dom (D_vertices D) ⊆ dom (D_vertices D').

(** Number of occurrences of [w] in a child list, number of edges into
    [w] in an edge map, and the count held in [indegrees]. *)
Definition occ (w : nat) (l : list nat) : nat :=
  sum_list_with (λ x, if decide (x = w) then 1 else 0) l.

Definition inflow (m : gmap nat (list nat)) (w : nat) : nat :=
  sum_list_with (λ kv : nat * list nat, occ w kv.2) (map_to_list m).

Definition indeg (indegrees : gmap nat nat) (w : nat) : nat :=
  default 0 (indegrees !! w).

Arguments occ : simpl never.
Arguments inflow : simpl never.
Arguments indeg : simpl never.

Definition positive_counts (indegrees : gmap nat nat) : Prop :=
  ∀ w c, indegrees !! w = Some c → 0 < c.

(** The edge lists of the vertices that Kahn's loop has not removed yet. *)
Definition unvisited (ordering : gmap nat Z) (edges : gmap nat (list nat))
    : gmap nat (list nat) :=
  filter (λ kv : nat * list nat, ordering !! kv.1 = None) edges.

(** Every edge into a ranked vertex comes from a vertex of higher rank. *)
Definition ranked_below_parents (edges : gmap nat (list nat))
    (ordering : gmap nat Z) : Prop :=
  ∀ k es w, edges !! k = Some es → w ∈ es → is_Some (ordering !! w) →
    ∃ ok ow, ordering !! k = Some ok ∧ ordering !! w = Some ow ∧ (ow < ok)%Z.

(** Invariant of Kahn's loop; [q0] is the initial queue. *)
Definition kahn_inv (edges : gmap nat (list nat)) (labels : gmap nat string)
    (q0 q : list nat) (indegrees : gmap nat nat) (ordering : gmap nat Z)
    (visited_nodes : Z) : Prop :=
  positive_counts indegrees ∧
  (∀ w, indeg indegrees w = inflow (unvisited ordering edges) w) ∧
  NoDup q ∧
  (∀ x, x ∈ q → ordering !! x = None) ∧
  (∀ x, x ∈ q ∨ is_Some (ordering !! x) → indeg indegrees x = 0) ∧
  (∀ x o, ordering !! x = Some o → (visited_nodes < o)%Z) ∧
  ranked_below_parents edges ordering ∧
  (∀ x, is_Some (ordering !! x) → is_Some (labels !! x)) ∧
  (∀ x, x ∈ q0 → x ∈ q ∨ is_Some (ordering !! x)).

(** The term [freq[v][i] * freq[v][j] * C[v]] that node [v] adds to the
    kernel sum. *)
Definition node_term (Dv : gmap nat bnode) (C : gmap nat Z) (i j : nat)
    (v : nat) : Z :=
  match Dv !! v, C !! v with
  | Some (_, Vector l, _), Some c =>
      (default 0 (l !! i) * default 0 (l !! j) * c)%Z
  | _, _ => 0%Z
  end.

(** ** Example inputs *)

(** A path of ten vertices [0 - 1 - ... - 9], all labelled ["a"]. *)
Definition chain10 : graph :=
  Graph (seq 0 10)
        (list_to_map ((λ i, (i, (if decide (i = 0) then [] else [i - 1]) ++
                                (if decide (i = 9) then [] else [i + 1])))
                      <$> seq 0 10))
        (list_to_map ((λ i, (i, "a"%string)) <$> seq 0 10)).

(** A single vertex labelled ["a"]. *)
Definition one_vertex : graph := Graph [0] {[0 := []]} {[0 := "a"%string]}.

(** Two adjacent vertices labelled ["a"] and ["b"]. *)
Definition two_vertices : graph :=
  Graph [0; 1] (list_to_map [(0, [1]); (1, [0])])
        (list_to_map [(0, "a"%string); (1, "b"%string)]).

(** A vertex set [{0}] with an edge [0 -> 1] that leaves it. *)
Definition stray_edges : gmap nat (list nat) := list_to_map [(0, [1]); (1, [])].
Definition stray_labels : gmap nat string :=
  list_to_map [(0, "a"%string); (1, "b"%string)].

(** The dag of [two_vertices] rooted at [0], ordered by [odd], and its
    hashed vertices. *)
Definition ab_tree
    : vcoll bnode * gmap nat (list nat) * gmap nat Z * gmap nat string :=
  (VSet {[0; 1]}, list_to_map [(0, [1]); (1, [])],
   list_to_map [(0, 2%Z); (1, 1%Z)],
   list_to_map [(0, "a"%string); (1, "b"%string)]).

Definition ab_hashed : gmap nat dnode :=
  list_to_map [(0, (1%Z, 1%Z, "a(b)"%string)); (1, (0%Z, 1%Z, "b"%string))].

Definition ab_buckets : gmap string (list nat) :=
  list_to_map [("b"%string, [1]); ("a(b)"%string, [0])].

(** Levels and edges of the dag of [two_vertices] rooted at [0]. *)
Definition ab_levels : gmap nat Z := list_to_map [(0, 0%Z); (1, 1%Z)].
Definition ab_edges : gmap nat (list nat) := list_to_map [(0, [1]); (1, [])].

(** The hashed dag of [two_vertices] rooted at [0] and the Big DAG of a
    single fold of it. *)
Definition ab_dag : hashed_dag :=
  (ab_hashed, ab_buckets, [1; 0], ab_edges, ab_tree.2).

Definition ab_big : bigdag :=
  BigDag (list_to_map [(0, (1%Z, Scalar 1, "b"%string));
                       (1, (1%Z, Scalar 1, "a(b)"%string))])
         (list_to_map [("b"%string, [0]); ("a(b)"%string, [1])])
         (list_to_map [(0, []); (1, [0])])
         (list_to_map [(0, "b"%string); (1, "a"%string)]).

(** A heap that holds [ab_big] in four objects, and the same heap after
    [ab_dag] has been folded into it once more. *)
Definition ab_ref : bigref := BigRef 0 1 2 3.
Definition ab_heap : heap := write_big ab_ref ab_big ∅.
Definition ab_heap_after : heap :=
  write_big ab_ref
    (BigDag (double_freq <$> D_vertices ab_big) (D_hash_map ab_big)
            (D_edges ab_big) (D_labels ab_big)) ∅.

(** A dag without vertices. *)
Definition empty_dag : hashed_dag := (∅, ∅, [], ∅, ∅).

(** Number of vertices of the tuple returned by [make_dag_odd] or [odd]. *)
Definition vertex_count {V A B C : Type} (t : vcoll V * A * B * C) : result nat :=
  length <$> vcoll_list t.1.1.1.

(** A computation that may fail, but not with [ValueError]. *)
Definition no_value_error {A} (m : result A) : Prop := m ≠ Raise ValueError.

(** ** Vocabulary of the further properties of [dag] *)

(** [n] is recorded at least one level below [L]. *)
Definition deeper (levels : gmap nat Z) (L : Z) (n : nat) : bool :=
  match levels !! n with
  | Some ln => (L + 1 <=? ln)%Z
  | None => false
  end.

(** The vertex [u], recorded at level [L], has been taken from the queue
    and its neighbours visited. *)
Definition expanded (g : graph) (h : Z) (levels : gmap nat Z)
    (edges : gmap nat (list nat)) (u : nat) (L : Z) : Prop :=
  L ≠ h ∧
  edges !! u = Some (filter (λ n, deeper levels L n) (neighbors g u)) ∧
  ∀ n, n ∈ neighbors g u → ∃ ln, levels !! n = Some ln ∧ (ln ≤ L + 1)%Z.

(** Full invariant of the breadth-first loop at the loop head. *)
Definition bfs_full (g : graph) (v : nat) (h : Z) (st : bfs_state) : Prop :=
  let '(q, levels, edges) := st in
  (∀ u L, (u, L) ∈ q → levels !! u = Some L ∧ edges !! u = None) ∧
  NoDup q.*1 ∧
  StronglySorted (λ a b : nat * Z, (a.2 ≤ b.2)%Z) q ∧
  (∀ a u L, head q = Some a → levels !! u = Some L → (L ≤ a.2 + 1)%Z) ∧
  (∀ u L, levels !! u = Some L → (0 ≤ L)%Z ∧ ((0 < h)%Z → (L ≤ h)%Z)) ∧
  levels !! v = Some 0%Z ∧
  (∀ u L, levels !! u = Some L → (u, L) ∈ q ∨ expanded g h levels edges u L) ∧
  (∀ u, is_Some (edges !! u) → is_Some (levels !! u)) ∧
  (∀ n, is_Some (levels !! n) → n = v ∨ ∃ u l, edges !! u = Some l ∧ n ∈ l) ∧
  (∀ u l n, edges !! u = Some l → n ∈ l →
     ∃ L, levels !! u = Some L ∧ levels !! n = Some (L + 1)%Z).

(** What the breadth-first loop has established when it stops. *)
Definition bfs_done (g : graph) (v : nat) (h : Z) (levels : gmap nat Z)
    (edges : gmap nat (list nat)) : Prop :=
  levels !! v = Some 0%Z ∧
  (∀ u L, levels !! u = Some L → (0 ≤ L)%Z ∧ ((0 < h)%Z → (L ≤ h)%Z)) ∧
  (∀ u L, levels !! u = Some L →
     (L = h ∧ edges !! u = None) ∨ expanded g h levels edges u L) ∧
  (∀ u, is_Some (edges !! u) → is_Some (levels !! u)) ∧
  (∀ n, is_Some (levels !! n) → n = v ∨ ∃ u l, edges !! u = Some l ∧ n ∈ l) ∧
  (∀ u l n, edges !! u = Some l → n ∈ l →
     ∃ L, levels !! u = Some L ∧ levels !! n = Some (L + 1)%Z).

(** A walk of [k] steps along the adjacency lists of the graph. *)
Inductive walk (g : graph) : nat → nat → nat → Prop :=
  | walk_here a : walk g 0 a a
  | walk_step k a b c : walk g k a b → c ∈ neighbors g b → walk g (S k) a c.

(** The walk respects the height bound given to [dag]. *)
Definition within (h : option Z) (k : nat) : Prop :=
  ∀ b, h = Some b → (Z.of_nat k ≤ b)%Z.

(** The dag of [two_vertices] rooted at [0] and cut at height [1]. *)
Definition ab_cut_edges : gmap nat (list nat) := {[0 := [1]]}.

(** ** Vocabulary of the further properties of [odd] *)

(** [len(vertices)], the first rank that [odd] hands out. *)
Definition vcoll_size {V : Type} (c : vcoll V) : Z :=
  match c with
  | VSet s => Z.of_nat (size s)
  | VDict d => Z.of_nat (size d)
  | VOther => 0%Z
  end.

(** The ranks handed out so far by Kahn's loop: distinct numbers counted
    down from [n]; only initial vertices and edge targets enter the queue,
    and an edge target that is neither queued nor ranked still has a
    positive count. *)
Definition kahn_ranks (edges : gmap nat (list nat)) (n : Z) (q0 q : list nat)
    (indegrees : gmap nat nat) (ordering : gmap nat Z) (visited_nodes : Z)
    : Prop :=
  (∀ x, x ∈ q ∨ is_Some (ordering !! x) → x ∈ q0 ∨ inflow edges x ≠ 0) ∧
  (∀ x o, ordering !! x = Some o → (visited_nodes < o ≤ n)%Z) ∧
  (∀ x y o, ordering !! x = Some o → ordering !! y = Some o → x = y) ∧
  Z.of_nat (size ordering) = (n - visited_nodes)%Z ∧
  (∀ w, inflow edges w ≠ 0 →
     w ∈ q ∨ is_Some (ordering !! w) ∨ 0 < indeg indegrees w) ∧
  (∀ x, is_Some (ordering !! x) → is_Some (edges !! x)).

(** The list is in non-decreasing order of rank. *)
Definition rank_ordered (ordering : gmap nat Z) (l : list nat) : Prop :=
  StronglySorted (λ a b, ∃ oa ob, ordering !! a = Some oa ∧
                                  ordering !! b = Some ob ∧ (oa ≤ ob)%Z) l.

(** The vertices that some edge list mentions. *)
Definition edge_targets (edges : gmap nat (list nat)) : gset nat :=
  ⋃ ((λ kv : nat * list nat, list_to_set kv.2) <$> map_to_list edges).

(** The inputs on which [odd] runs to completion: a set or dictionary of
    vertices, an acyclic edge map, a label and an edge list for every
    vertex and every edge target, and no edge that starts outside the
    vertices and edge targets. *)
Definition odd_ready {V : Type} (vertices : vcoll V)
    (edges : gmap nat (list nat)) (labels : gmap nat string) : Prop :=
  vertices ≠ VOther ∧ acyclic edges ∧
  (∀ x, in_vcoll x vertices ∨ x ∈ edge_targets edges →
     is_Some (labels !! x) ∧ is_Some (edges !! x)) ∧
  (∀ k es, edges !! k = Some es → es ≠ [] →
     in_vcoll k vertices ∨ k ∈ edge_targets edges).

(** ** Vocabulary of the further properties of [hash_trees] *)

(** The buckets of the hash map list, identity by identity, the vertices
    of [l] in the order of [l]; no bucket is empty. *)
Definition buckets_of (vertices : gmap nat dnode) (l : list nat)
    (hm : gmap string (list nat)) : Prop :=
  (∀ key, default [] (hm !! key) = filter (λ x, id_of vertices x = key) l) ∧
  (∀ key b, hm !! key = Some b → b ≠ []).

(** Depth-weights are never negative, and zero on the leaves only. *)
Definition depths_ok (edge : gmap nat (list nat)) (vertices : gmap nat dnode)
    : Prop :=
  ∀ v n, vertices !! v = Some n →
    (0 ≤ n.1.1)%Z ∧ (n.1.1 = 0%Z ↔ is_leaf edge v = true).

(** ** Vocabulary of the further properties of [big_dag_append] *)

(** A well-formed Big DAG: the node indices are [0 .. n-1]; edges and
    labels are recorded for exactly the nodes; the hash map sends every
    identity to the single node that carries it, and every node is
    registered under its identity; the edge list of a node is free of
    duplicates and leads to nodes created earlier. *)
Definition big_wf (D : bigdag) : Prop :=
  (∀ node, is_Some (D_vertices D !! node) ↔ node < size (D_vertices D)) ∧
  dom (D_edges D) = dom (D_vertices D) ∧
  dom (D_labels D) = dom (D_vertices D) ∧
  (∀ key ns, D_hash_map D !! key = Some ns →
     ∃ node c f, ns = [node] ∧ D_vertices D !! node = Some (c, f, key)) ∧
  (∀ node n, D_vertices D !! node = Some n → D_hash_map D !! n.2 = Some [node]) ∧
  (∀ node es, D_edges D !! node = Some es →
     NoDup es ∧ ∀ w, w ∈ es → w < node).

(** What a fold keeps of the Big DAG it starts from: every node keeps its
    index, its first slot and its identity, its edge list and its label;
    identities keep their bucket. *)
Definition big_keeps (D D' : bigdag) : Prop :=
  (∀ node n, D_vertices D !! node = Some n →
     ∃ f', D_vertices D' !! node = Some (n.1.1, f', n.2)) ∧
  D_hash_map D ⊆ D_hash_map D' ∧
  D_edges D ⊆ D_edges D' ∧
  D_labels D ⊆ D_labels D'.

(** The count that the current fold has added to a frequency slot: the
    integer itself, or the last entry of the vector. *)
Definition freq_last (f : freq) : Z :=
  match f with
  | Scalar a => a
  | Vector l => default 0%Z (last l)
  end.

(** Sum of these counts over the nodes of a Big DAG. *)
Definition total_last (Dv : gmap nat bnode) : Z :=
  sumZ ((λ kv : nat * bnode, freq_last kv.2.1.2) <$> map_to_list Dv).

(** Sum of the occurrence counts [vertices[q][1]] of the vertices of a
    dag. *)
Definition total_count (vertices : gmap nat dnode) (l : list nat) : Z :=
  sumZ ((λ q, from_option (λ n : dnode, n.1.2) 0%Z (vertices !! q)) <$> l).

(** Every frequency slot is a vector of length [k]. *)
Definition vectors_of (k : nat) (Dv : gmap nat bnode) : Prop :=
  ∀ node n, Dv !! node = Some n → ∃ l, n.1.2 = Vector l ∧ length l = k.

(** ** Vocabulary of the statements about complete runs *)

(** A dag that [big_dag_append] can fold: every vertex of [v_ordered] is
    hashed and has a label and an edge list, and its children are hashed. *)
Definition dag_ready (dag : hashed_dag) : Prop :=
  let '(vertices, _, v_ordered, edges, labels) := dag in
  ∀ q, q ∈ v_ordered →
    is_Some (vertices !! q) ∧ is_Some (labels !! q) ∧
    ∃ es, edges !! q = Some es ∧ ∀ c, c ∈ es → is_Some (vertices !! c).

(** The frequency slots that a fold in the given mode can update: integers
    in merge mode, non-empty vectors of one length otherwise. *)
Definition freq_ok (merge_features : bool) (nf : nat) (Dv : gmap nat bnode)
    : Prop :=
  if merge_features
  then ∀ node n, Dv !! node = Some n → ∃ f, n.1.2 = Scalar f
  else 0 < nf ∧ vectors_of nf Dv.

(** A graph on which the kernel runs: it has a vertex, and every vertex
    that a walk from a listed vertex reaches has a label. *)
Definition graph_ok (g : graph) : Prop :=
  get_vertices g ≠ [] ∧
  ∀ v, v ∈ get_vertices g → ∀ k n, walk g k v n → is_Some (get_labels g !! n).

(** What the loop of [make_big_dag] holds after a root: a well-formed,
    non-empty Big DAG with integer frequencies whose first slots are [1]. *)
Definition merged_ok (o : option bigdag) : Prop :=
  from_option (λ D, big_wf D ∧ freq_ok true 0 (D_vertices D) ∧ D_vertices D ≠ ∅ ∧
                    ∀ node n, D_vertices D !! node = Some n → n.1.1 = 1%Z) True o.

(** ** Vocabulary of the statements about counts *)

(** The occurrence counts [vertices[q][1]] of the vertices of [l] that
    carry the identity [key], summed. *)
Definition count_of (vertices : gmap nat dnode) (l : list nat) (key : string) : Z :=
  total_count vertices (filter (λ q, id_of vertices q = key) l).

(** The count that a node holds for the current fold, [0] for a node that
    does not exist. *)
Definition node_last (Dv : gmap nat bnode) (node : nat) : Z :=
  from_option (λ n : bnode, freq_last n.1.2) 0%Z (Dv !! node).

(** The frequency vector without its last entry. *)
Definition freq_init (f : freq) : list Z :=
  match f with
  | Scalar _ => []
  | Vector l => removelast l
  end.

(** The slots that a node of the Big DAG holds before a fold in vector
    mode: its vector, or [k] zeros for a node that the fold creates. *)
Definition old_slots (big_dag : option bigdag) (k : nat) (node : nat) : list Z :=
  match big_dag ≫= (λ D, D_vertices D !! node) with
  | Some (_, Vector l, _) => l
  | Some (_, Scalar _, _) => []
  | None => replicate k 0%Z
  end.

(** The Big DAG of a single fold of [ab_dag] in vector mode. *)
Definition ab_big_vec : bigdag :=
  BigDag (list_to_map [(0, (1%Z, Vector [1%Z], "b"%string));
                       (1, (1%Z, Vector [1%Z], "a(b)"%string))])
         (D_hash_map ab_big) (D_edges ab_big) (D_labels ab_big).

(** Number of vertices of the dag rooted at [v] whose subtree has the
    identity [key]. *)
Definition root_count (g : graph) (v : nat) (key : string) : Z :=
  match make_dag_odd v g None ≫= hash_trees with
  | Ok (vertices, _, v_ordered) =>
      Z.of_nat (length (filter (λ q, id_of vertices q = key) v_ordered))
  | _ => 0%Z
  end.

(** The same number, summed over the dags of all vertices of the graph:
    how often the subtree [key] occurs in the decomposition of [g]. *)
Definition subtree_count (g : graph) (key : string) : Z :=
  sumZ ((λ v, root_count g v key) <$> get_vertices g).

(** What the loop of [make_big_dag] has counted after the roots [done]. *)
Definition merged_counts (g : graph) (done : list nat) (o : option bigdag) : Prop :=
  match o with
  | None => done = []
  | Some D =>
      big_wf D ∧
      (∀ node n, D_vertices D !! node = Some n →
         freq_last n.1.2 = sumZ ((λ v, root_count g v n.2) <$> done) ∧
         (1 ≤ freq_last n.1.2)%Z) ∧
      (∀ v key, v ∈ done → root_count g v key ≠ 0%Z →
         is_Some (D_hash_map D !! key))
  end.

(** What the loop of [odd_sth_matrix] has built after the graphs [done]:
    the vector of a node lists, graph by graph, how often the subtree of
    the node occurs; its first slot is that number for the graph whose fold
    created the node, the first graph in which the subtree occurs. *)
Definition folded (done : list graph) (o : option bigdag) : Prop :=
  match o with
  | None => done = []
  | Some D =>
      big_wf D ∧ D_vertices D ≠ ∅ ∧
      (∀ node n, D_vertices D !! node = Some n →
         n.1.2 = Vector ((λ g, subtree_count g n.2) <$> done) ∧
         ∃ pre g post, done = pre ++ g :: post ∧
           n.1.1 = subtree_count g n.2 ∧ (1 ≤ n.1.1)%Z ∧
           ∀ g', g' ∈ pre → subtree_count g' n.2 = 0%Z) ∧
      (∀ g key, g ∈ done → subtree_count g key ≠ 0%Z →
         is_Some (D_hash_map D !! key))
  end.

(** The Big DAG that [odd_sth_matrix] builds from [one_vertex] taken
    twice. *)
Definition aa_big : bigdag :=
  BigDag {[0 := (1%Z, Vector [1%Z; 1%Z], "a"%string)]} {["a"%string := [0]]}
         {[0 := []]} {[0 := "a"%string]}.

Arguments count_of : simpl never.
Arguments node_last : simpl never.

(** ** Vocabulary of the statement about the quadratic form *)

(** The quadratic form [x^T K x] over the indices [0 .. n-1]. *)
Definition quad_form (K : matrix) (n : nat) (x : nat → Z) : Z :=
  sumZ ((λ i, sumZ ((λ j, x i * x j * mget K i j)%Z <$> seq 0 n)) <$> seq 0 n).

(** Entry [i] of the frequency vector of node [v], and the weight of the
    node in the kernel sum. *)
Definition slot_of (Dv : gmap nat bnode) (v i : nat) : Z :=
  match Dv !! v with
  | Some (_, Vector l, _) => default 0%Z (l !! i)
  | _ => 0%Z
  end.

Definition weight_of (Dv : gmap nat bnode) (C : gmap nat Z) (v : nat) : Z :=
  match Dv !! v, C !! v with
  | Some (_, Vector _, _), Some c => c
  | _, _ => 0%Z
  end.

(* ================================================================== *)
(** * Properties *)

(** ** The result monad *)

Lemma bind_Ok {A B} (m : result A) (f : A → result B) (b : B) :
  m ≫= f = Ok b ↔ ∃ a, m = Ok a ∧ f a = Ok b.
Proof.
  destruct m as [a|e|]; simpl; split.
  - intros Hf. by exists a.
  - by intros (a' & [= ->] & Hf).
  - discriminate.
  - by intros (a' & [=] & _).
  - discriminate.
  - by intros (a' & [=] & _).
Qed.

Lemma getitem_Ok `{Countable K} {V} (d : gmap K V) k v :
  getitem d k = Ok v ↔ d !! k = Some v.
Proof.
  unfold getitem. destruct (d !! k); split; intros Heq; by simplify_eq.
Qed.

Lemma nve_bind {A B} (m : result A) (f : A → result B) :
  no_value_error m → (∀ a, no_value_error (f a)) → no_value_error (m ≫= f).
Proof.
  intros Hm Hf. destruct m as [a|e|]; unfold mbind, result_bind; [apply Hf| |done].
  intros [= ->]. by apply Hm.
Qed.

Lemma nve_getitem `{Countable K} {V} (d : gmap K V) k : no_value_error (getitem d k).
Proof. unfold getitem, no_value_error. by destruct (d !! k). Qed.

Lemma nve_Ok {A} (a : A) : no_value_error (Ok a).
Proof. done. Qed.

Lemma nve_for_each {A S} (body : S → A → result S) l s :
  (∀ s x, no_value_error (body s x)) → no_value_error (for_each body s l).
Proof.
  intros Hbody. revert s. induction l as [|x l IH]; intros s; simpl.
  - done.
  - apply nve_bind; auto.
Qed.

Lemma nve_keyed {K A} (key : A → result K) l :
  (∀ x, no_value_error (key x)) → no_value_error (keyed key l).
Proof.
  intros Hkey. induction l as [|x l IH]; simpl; [done|].
  apply nve_bind; [done|]. intros k. apply nve_bind; [done|]. done.
Qed.

Lemma nve_py_sorted {K A} le (key : A → result K) l :
  (∀ x, no_value_error (key x)) → no_value_error (py_sorted le key l).
Proof.
  intros Hkey. unfold py_sorted. apply nve_bind; [by apply nve_keyed|done].
Qed.

Lemma nve_dict_mapM {V W} (f : V → result W) d :
  (∀ x, no_value_error (f x)) → no_value_error (dict_mapM f d).
Proof.
  intros Hf. unfold dict_mapM. induction (map_to_list d) as [|kv l IH]; simpl.
  - done.
  - apply nve_bind; [done|]. intros m. apply nve_bind; [done|]. done.
Qed.

Lemma nve_rank_key ordering labels x : no_value_error (rank_key ordering labels x).
Proof.
  unfold rank_key. apply nve_bind; [apply nve_getitem|]. intros o.
  apply nve_bind; [apply nve_getitem|]. done.
Qed.

Lemma nve_odd_loop fuel edges labels q indegrees ordering visited :
  no_value_error (odd_loop fuel edges labels q indegrees ordering visited).
Proof.
  revert q indegrees ordering visited.
  induction fuel as [|fuel IH]; intros q indegrees ordering visited; simpl.
  - done.
  - destruct q as [|x q]; [done|].
    apply nve_bind; [apply nve_py_sorted; intros; apply nve_getitem|].
    intros [|e q2]; [done|].
    apply nve_bind; [apply nve_getitem|]. intros es.
    destruct (fold_left odd_relax es (indegrees, q2)). apply IH.
Qed.

(** ** [odd]: which inputs are rejected *)

Lemma nve_sort_edges ordering labels edges :
  no_value_error (sort_edges ordering labels edges).
Proof.
  apply nve_dict_mapM. intros l. apply nve_py_sorted. apply nve_rank_key.
Qed.

(** C7, the claim as stated, fails: the vertex set is [{0}], the edge map
    holds the edge [0 -> 1] whose target lies outside the set, and [odd]
    returns normally. *)
Lemma odd_accepts_stray_edge :
  stray_edges !! 0 = Some [1] ∧ (1 ∉@{gset nat} {[0]}) ∧
  ∃ r, @odd bnode (VSet {[0]}) stray_edges stray_labels = Ok r.
Proof.
  split; [by vm_compute|]. split; [set_solver|].
  eexists. vm_compute. reflexivity.
Qed.

(** C7 (amended): [odd] raises the invalid-input error [ValueError] exactly
    when its vertex collection is neither a set nor a dictionary; it makes
    no membership test on the targets of the edge map, so an edge that
    leaves the vertex set is never the cause of that error. *)
Theorem odd_value_error_iff {V} (vertices : vcoll V) edges labels :
  odd vertices edges labels = Raise ValueError ↔ vertices = VOther.
Proof.
  split.
  - intros Hodd. destruct vertices as [s|d|]; [exfalso..|done].
    all: revert Hodd; unfold odd; cbn -[odd_loop].
    all: destruct (odd_indegrees edges _) as [indegrees zero'].
    all: apply nve_bind; [apply nve_odd_loop|]; intros ordering.
    all: apply nve_bind; [apply nve_sort_edges|]; intros edges'; done.
  - intros ->. reflexivity.
Qed.

(** ** The depth bound on the way from the kernel to [dag] *)

Lemma dag_rejects_nonpositive v g (h : Z) :
  (h ≤ 0)%Z → dag v g (Some h) = Raise ValueError.
Proof.
  intros Hh. unfold dag, dag_levels, dag_bound.
  destruct (Z.leb_spec h 0); [done|lia].
Qed.

Lemma dag_rejects_nonpositive_witness :
  dag 0 one_vertex (Some 0%Z) = Raise ValueError.
Proof. apply dag_rejects_nonpositive. lia. Defined.

(** C2 on the code: with [max_height = 3] on the path of ten vertices,
    [dag] itself stops at four vertices, but [make_dag_odd] calls it with
    [h=None] and the dag handed to the canonicalizer has all ten. *)
Theorem make_dag_odd_drops_bound :
  (λ r, size r.1) <$> dag 0 chain10 (Some 3%Z) = Ok 4 ∧
  make_dag_odd 0 chain10 (Some 3%Z) ≫= vertex_count = Ok 10.
Proof. split; vm_compute; reflexivity. Qed.

(** C8 on the code: [dag] rejects the bound [0], but the kernel matrix and
    the pairwise kernel computed with [h = 0] return a value: the bound
    never reaches [dag]. *)
Theorem nonpositive_bound_accepted :
  dag 0 one_vertex (Some 0%Z) = Raise ValueError ∧
  odd_sth_matrix [one_vertex] None (Some 0%Z) = Ok [[1%Z]] ∧
  odd_sth one_vertex one_vertex (Some 0%Z) = Ok 1%Z.
Proof. repeat split; vm_compute; reflexivity. Qed.

(** ** The weight used by the kernel sum *)

(** C1 on the code: for the graph with a single vertex, the only subtree
    is the leaf ["a"] of depth-weight [0]; the Big-DAG node records the
    occurrence count [1] in its first slot and the kernel entry is [1],
    where the depth-weighted sum is [0]. *)
Theorem kernel_weight_is_count :
  (λ r, map_to_list r.1.1) <$> (make_dag_odd 0 one_vertex None ≫= hash_trees)
    = Ok [(0, (0%Z, 1%Z, "a"%string))] ∧
  (λ r, map_to_list r.1.1.1.1) <$> make_big_dag one_vertex None
    = Ok [(0, (1%Z, 1%Z, "a"%string))] ∧
  odd_sth_matrix [one_vertex] None None = Ok [[1%Z]].
Proof. repeat split; vm_compute; reflexivity. Qed.

(** ** The kernel matrix in self-comparison mode *)

Lemma mget_triu d K i j :
  mget (triu d K) i j = if decide (i + d ≤ j) then mget K i j else 0%Z.
Proof.
  unfold mget, triu. rewrite list_lookup_imap.
  destruct (K !! i) as [row|]; simpl; [|by case_decide].
  rewrite list_lookup_imap. destruct (row !! j); simpl; by case_decide.
Qed.

Lemma shape_triu d r c K : shape r c K → shape r c (triu d K).
Proof.
  intros [Hlen Hrows]. split; unfold triu.
  - by rewrite length_imap.
  - apply Forall_lookup. intros i row. rewrite list_lookup_imap.
    destruct (K !! i) as [row'|] eqn:Hi; simpl; [|done]. intros [= <-].
    rewrite length_imap. by eapply (Forall_lookup_1 _ _ _ _ Hrows Hi).
Qed.

Lemma shape_lookup r c K i :
  shape r c K → i < r → ∃ row, K !! i = Some row ∧ length row = c.
Proof.
  intros [Hlen Hrows] Hi.
  destruct (lookup_lt_is_Some_2 K i) as [row Hrow]; [lia|].
  exists row. split; [done|]. by eapply (Forall_lookup_1 _ _ _ _ Hrows Hrow).
Qed.

Lemma mget_transpose r c K i j :
  shape r c K → i < c → j < r → mget (transpose K) i j = mget K j i.
Proof.
  intros HK Hi Hj. unfold transpose.
  destruct (shape_lookup r c K 0 HK) as (row0 & Hrow0 & Hlen0); [lia|].
  assert (head K = Some row0) as -> by (by rewrite head_lookup).
  simpl. rewrite Hlen0. unfold mget at 1.
  rewrite list_lookup_fmap, lookup_seq_lt by done. simpl.
  rewrite list_lookup_fmap, lookup_seq_lt by (destruct HK; lia). done.
Qed.

Lemma shape_transpose n K : shape n n K → shape n n (transpose K).
Proof.
  intros HK. destruct n as [|n].
  - destruct HK as [Hlen _]. destruct K; [|done]. by split.
  - destruct (shape_lookup _ _ K 0 HK) as (row0 & Hrow0 & Hlen0); [lia|].
    unfold transpose. assert (head K = Some row0) as -> by (by rewrite head_lookup).
    simpl from_option. rewrite Hlen0. split.
    + by rewrite length_fmap, length_seq.
    + apply Forall_fmap, Forall_forall. intros j _. simpl.
      rewrite length_fmap, length_seq. by destruct HK.
Qed.

Lemma mget_madd r c A B i j :
  shape r c A → shape r c B → i < r → j < c →
  mget (madd A B) i j = (mget A i j + mget B i j)%Z.
Proof.
  intros HA HB Hi Hj.
  destruct (shape_lookup _ _ _ i HA Hi) as (ra & Hra & Hla).
  destruct (shape_lookup _ _ _ i HB Hi) as (rb & Hrb & Hlb).
  destruct (lookup_lt_is_Some_2 ra j) as [a Ha]; [lia|].
  destruct (lookup_lt_is_Some_2 rb j) as [b Hb]; [lia|].
  unfold mget, madd. rewrite lookup_zip_with, Hra, Hrb. simpl.
  rewrite lookup_zip_with, Ha, Hb. done.
Qed.

Lemma shape_zeros r c : shape r c (zeros r c).
Proof.
  split; unfold zeros.
  - by rewrite length_replicate.
  - apply Forall_replicate. by rewrite length_replicate.
Qed.

Lemma shape_mset r c K i j k : shape r c K → shape r c (mset K i j k).
Proof.
  intros [Hlen Hrows]. unfold mset. split.
  - by rewrite length_alter.
  - apply Forall_lookup. intros a row Ha.
    destruct (decide (a = i)) as [->|Hne].
    + rewrite list_lookup_alter_eq in Ha.
      destruct (K !! i) as [row'|] eqn:Hi; simplify_eq/=.
      rewrite length_insert. by eapply (Forall_lookup_1 _ _ _ _ Hrows Hi).
    + rewrite list_lookup_alter_ne in Ha by done.
      by eapply (Forall_lookup_1 _ _ _ _ Hrows Ha).
Qed.

Lemma mget_mset r c K i j k a b :
  shape r c K → i < r → j < c →
  mget (mset K i j k) a b = if decide (a = i ∧ b = j) then k else mget K a b.
Proof.
  intros HK Hi Hj. unfold mget, mset.
  destruct (shape_lookup _ _ _ i HK Hi) as (row & Hrow & Hlen).
  destruct (decide (a = i)) as [->|Hne].
  - rewrite list_lookup_alter_eq, Hrow. simpl.
    destruct (decide (b = j)) as [->|Hnb].
    + rewrite list_lookup_insert_eq by lia. by rewrite decide_True.
    + rewrite list_lookup_insert_ne by done. by rewrite decide_False by (by intros [??]).
  - rewrite list_lookup_alter_ne by done. by rewrite decide_False by (by intros [??]).
Qed.

Lemma elem_of_self_pairs n i j : (i, j) ∈ self_pairs n ↔ i ≤ j < n.
Proof.
  unfold self_pairs. rewrite list_elem_of_bind. split.
  - intros (a & Hin & Ha). apply elem_of_seq in Ha.
    apply list_elem_of_bind in Hin as (b & Hin & Hb). apply elem_of_seq in Hb.
    apply list_elem_of_singleton in Hin as [= -> ->]. lia.
  - intros Hij. exists i. split; [|apply elem_of_seq; lia].
    apply list_elem_of_bind. exists j. split; [by apply list_elem_of_singleton|].
    apply elem_of_seq. lia.
Qed.

Section fill.
Context (Dv : gmap nat bnode) (C : gmap nat Z) (offset r c : nat).

Lemma kernel_fill_shape K0 pairs K :
  for_each (kernel_fill Dv C offset) K0 pairs = Ok K → shape r c K0 → shape r c K.
Proof.
  revert K0. induction pairs as [|p pairs IH]; intros K0; simpl.
  - by intros [= <-].
  - intros (K1 & Hfill & Hrest)%bind_Ok HK0. apply (IH K1 Hrest).
    unfold kernel_fill in Hfill. apply bind_Ok in Hfill as (k & _ & [= <-]).
    by apply shape_mset.
Qed.

(** An entry of the filled matrix is the kernel sum of the last pair
    written there, or the initial entry when no pair is written there. *)
Lemma kernel_fill_entry K0 pairs K a b :
  for_each (kernel_fill Dv C offset) K0 pairs = Ok K →
  shape r c K0 →
  (∀ p, p ∈ pairs → p.1 - offset < r ∧ p.2 < c) →
  (∃ p, p ∈ pairs ∧ p.1 - offset = a ∧ p.2 = b ∧
        kernel_sum Dv C p.1 p.2 = Ok (mget K a b)) ∨
  ((∀ p, p ∈ pairs → ¬ (p.1 - offset = a ∧ p.2 = b)) ∧ mget K a b = mget K0 a b).
Proof.
  revert K0. induction pairs as [|p pairs IH]; intros K0; simpl.
  - intros [= <-] _ _. right. split; [|done]. by intros p ?%elem_of_nil.
  - intros (K1 & Hfill & Hrest)%bind_Ok HK0 Hrange.
    unfold kernel_fill in Hfill. apply bind_Ok in Hfill as (k & Hk & [= <-]).
    destruct (Hrange p) as [Hp1 Hp2]; [by left|].
    destruct (IH _ Hrest) as [(p' & Hin & Ha & Hb & Hsum)|[Hnone Heq]].
    + by apply shape_mset.
    + intros p' Hin. apply Hrange. by right.
    + left. exists p'. split; [by right|done].
    + rewrite (mget_mset r c) in Heq by done.
      case_decide as Hab.
      * left. exists p. destruct Hab as [-> ->]. subst k.
        split; [by left|done].
      * right. split; [|done].
        intros p' [->|Hin]%elem_of_cons; [|by apply Hnone].
        intros [??]. by apply Hab.
Qed.
End fill.



(** ** [sorted] returns a permutation *)

Lemma insert_key_perm {K A} (le : K → K → bool) (x : K * A) l :
  insert_key le x l ≡ₚ x :: l.
Proof.
  induction l as [|y l IH]; simpl; [done|].
  destruct (le x.1 y.1); [done|]. rewrite IH. apply Permutation_swap.
Qed.

Lemma sort_keyed_perm {K A} (le : K → K → bool) (l : list (K * A)) :
  sort_keyed le l ≡ₚ l.
Proof.
  induction l as [|x l IH]; simpl; [done|].
  by rewrite insert_key_perm, IH.
Qed.

Lemma keyed_Ok {K A} (key : A → result K) l kl :
  keyed key l = Ok kl →
  kl.*2 = l ∧ Forall (λ kx, key kx.2 = Ok kx.1) kl.
Proof.
  revert kl. induction l as [|x l IH]; intros kl; simpl.
  - by intros [= <-].
  - intros (k & Hk & (r & Hr & [= <-])%bind_Ok)%bind_Ok.
    destruct (IH r Hr) as [<- Hall]. split; [done|]. by constructor.
Qed.

Lemma py_sorted_perm {K A} le (key : A → result K) l l' :
  py_sorted le key l = Ok l' → l' ≡ₚ l.
Proof.
  unfold py_sorted. intros (kl & Hkl & [= <-])%bind_Ok.
  apply keyed_Ok in Hkl as [<- _]. by rewrite sort_keyed_perm.
Qed.

Lemma py_sorted_key {K A} le (key : A → result K) l l' x :
  py_sorted le key l = Ok l' → x ∈ l → ∃ k, key x = Ok k.
Proof.
  unfold py_sorted. intros (kl & Hkl & _)%bind_Ok Hx.
  apply keyed_Ok in Hkl as [<- Hall].
  apply list_elem_of_fmap in Hx as ([k y] & -> & Hin).
  exists k. by apply (proj1 (Forall_forall _ _) Hall (k, y)).
Qed.

Lemma dict_keys_perm {V} (d : gmap nat V) : dict_keys d ≡ₚ (map_to_list d).*1.
Proof. unfold dict_keys. apply merge_sort_Permutation. Qed.

Lemma NoDup_dict_keys {V} (d : gmap nat V) : NoDup (dict_keys d).
Proof. rewrite dict_keys_perm. apply NoDup_fst_map_to_list. Qed.

Lemma elem_of_dict_keys {V} (d : gmap nat V) k : k ∈ dict_keys d ↔ k ∈ dom d.
Proof.
  rewrite dict_keys_perm, elem_of_dom, list_elem_of_fmap. split.
  - intros ([k' v] & -> & Hin). exists v. by apply elem_of_map_to_list.
  - intros [v Hv]. exists (k, v). split; [done|]. by apply elem_of_map_to_list.
Qed.

Lemma vcoll_list_spec {V} (c : vcoll V) l :
  vcoll_list c = Ok l → NoDup l ∧ ∀ v, v ∈ l ↔ in_vcoll v c.
Proof.
  destruct c as [s|d|]; simpl; intros Hl; simplify_eq.
  - split; [apply NoDup_elements|]. intros v. apply elem_of_elements.
  - split; [apply NoDup_dict_keys|]. intros v. apply elem_of_dict_keys.
Qed.

(** ** [hash_trees] *)

Lemma sumZ_cons x l : sumZ (x :: l) = (x + sumZ l)%Z.
Proof. reflexivity. Qed.

Lemma sumZ_succ {A} (f : A → Z) (l : list A) :
  sumZ ((λ c, 1 + f c)%Z <$> l) = (Z.of_nat (length l) + sumZ (f <$> l))%Z.
Proof.
  induction l as [|x l IH]; [done|].
  rewrite !fmap_cons, !sumZ_cons, length_cons, Nat2Z.inj_succ. lia.
Qed.

Lemma hash_child_loop vertices cs d0 ids0 d ids :
  for_each (hash_child vertices) (d0, ids0) cs = Ok (d, ids) →
  Forall (λ c, is_Some (vertices !! c)) cs ∧
  d = (d0 + sumZ ((λ c, 1 + depth_of vertices c)%Z <$> cs))%Z ∧
  ids = ids0 ++ (id_of vertices <$> cs).
Proof.
  revert d0 ids0. induction cs as [|c cs IH]; intros d0 ids0; cbn [for_each].
  - intros [= <- <-]. split; [done|]. split; [unfold sumZ; simpl; lia|].
    by rewrite app_nil_r.
  - intros ([d1 ids1] & Hc & Hrest)%bind_Ok.
    unfold hash_child in Hc.
    apply bind_Ok in Hc as ([[dn x] idn] & Hn%getitem_Ok & [= <- <-]).
    destruct (IH _ _ Hrest) as (Hall & -> & ->).
    assert (depth_of vertices c = dn) as Hd by (unfold depth_of; by rewrite Hn).
    assert (id_of vertices c = idn) as Hi by (unfold id_of; by rewrite Hn).
    split; [by constructor|]. rewrite !fmap_cons, sumZ_cons, Hd, Hi.
    split; [lia|by rewrite <- app_assoc].
Qed.

Lemma hashed_ok_mono edge labels vs vs' v :
  vs ⊆ vs' → hashed_ok edge labels vs v → hashed_ok edge labels vs' v.
Proof.
  intros Hsub (lab & Hlab & Hv). exists lab. split; [done|].
  destruct (is_leaf edge v).
  - by eapply lookup_weaken.
  - destruct Hv as [Hall Hv]. split.
    + eapply Forall_impl; [done|]. intros c [n Hn]. exists n. by eapply lookup_weaken.
    + erewrite (lookup_weaken _ _ _ _ Hv Hsub). do 3 f_equal.
      * f_equal. apply Forall_fmap_ext_1. eapply Forall_impl; [done|].
        intros c [n Hn]. unfold depth_of. simpl.
        by rewrite Hn, (lookup_weaken _ _ _ _ Hn Hsub).
      * do 3 f_equal. apply Forall_fmap_ext_1. eapply Forall_impl; [done|].
        intros c [n Hn]. unfold id_of.
        by rewrite Hn, (lookup_weaken _ _ _ _ Hn Hsub).
Qed.

Lemma hash_step_spec edge labels vs hm v vs' hm' :
  vs !! v = None →
  hash_step edge labels (vs, hm) v = Ok (vs', hm') →
  vs ⊆ vs' ∧ dom vs' = dom vs ∪ {[v]} ∧ hashed_ok edge labels vs' v.
Proof.
  intros Hfresh. unfold hash_step. destruct (is_leaf edge v) eqn:Hleaf.
  - intros (lab & Hlab%getitem_Ok & [= <- <-])%bind_Ok.
    split; [by apply insert_subseteq|]. split; [by rewrite dom_insert_L, (comm_L (∪))|].
    exists lab. split; [done|]. rewrite Hleaf. apply lookup_insert_eq.
  - intros ([d ids] & Hloop & Hrest)%bind_Ok. simpl in Hrest.
    apply bind_Ok in Hrest as (lab & Hlab%getitem_Ok & [= <- <-]).
    apply hash_child_loop in Hloop as (Hall & -> & ->).
    split; [by apply insert_subseteq|]. split; [by rewrite dom_insert_L, (comm_L (∪))|].
    apply (hashed_ok_mono _ _
             (<[v := (sumZ ((λ c, 1 + depth_of vs c)%Z <$> default [] (edge !! v)),
                      1%Z,
                      (lab ++ "(" ++
                       String.concat "," (id_of vs <$> default [] (edge !! v)) ++
                       ")")%string)]> vs)); [done|].
    exists lab. split; [done|]. rewrite Hleaf.
    assert (Forall (λ c, c ≠ v) (default [] (edge !! v))) as Hne.
    { eapply Forall_impl; [exact Hall|]. intros c [n Hn] ->. congruence. }
    split.
    + eapply Forall_impl; [exact (proj2 (Forall_and _ _) (conj Hall Hne))|].
      intros c [Hc Hcv]. simpl. by rewrite lookup_insert_ne.
    + rewrite lookup_insert_eq. do 3 f_equal.
      * f_equal. apply Forall_fmap_ext_1. eapply Forall_impl; [exact Hne|].
        intros c Hc. unfold depth_of. simpl. by rewrite lookup_insert_ne.
      * do 3 f_equal. apply Forall_fmap_ext_1. eapply Forall_impl; [exact Hne|].
        intros c Hc. unfold id_of. simpl. by rewrite lookup_insert_ne.
Qed.

Lemma hash_loop_spec edge labels l vs hm vs' hm' :
  NoDup l → (∀ v, v ∈ l → vs !! v = None) →
  for_each (hash_step edge labels) (vs, hm) l = Ok (vs', hm') →
  vs ⊆ vs' ∧ dom vs' = dom vs ∪ list_to_set l ∧
  ∀ v, v ∈ l → hashed_ok edge labels vs' v.
Proof.
  revert vs hm. induction l as [|x l IH]; intros vs hm Hnd Hfresh; simpl.
  - intros [= <- <-]. split; [done|]. split; [set_solver|]. by intros v ?%elem_of_nil.
  - intros ([vs1 hm1] & Hstep & Hrest)%bind_Ok.
    apply NoDup_cons in Hnd as [Hx Hnd].
    apply hash_step_spec in Hstep as (Hsub1 & Hdom1 & Hok1); [|apply Hfresh; by left].
    apply IH in Hrest as (Hsub & Hdom & Hok); [|done|].
    + split; [by etrans|]. split; [rewrite Hdom, Hdom1; set_solver|].
      intros v [->|Hv]%elem_of_cons; [|by apply Hok].
      by eapply hashed_ok_mono.
    + intros v Hv. apply not_elem_of_dom. rewrite Hdom1.
      apply not_elem_of_union. split.
      * apply not_elem_of_dom. apply Hfresh. by right.
      * apply not_elem_of_singleton. by intros ->.
Qed.

Lemma is_leaf_true edge v :
  is_leaf edge v = true ↔ edge !! v = None ∨ edge !! v = Some [].
Proof.
  unfold is_leaf. destruct (edge !! v) as [[|c cs]|]; simpl; naive_solver.
Qed.

(** C3: after [hash_trees], a vertex without outgoing edges holds its label
    as identity and depth-weight [0]; a vertex with children [cs] (in the
    order of its sorted edge list) holds depth-weight
    [len(cs) + sum of D[c]], which is the sum of [1 + D[c]], and identity
    [label(id_1,...,id_k)]; the occurrence count is [1] in both cases. *)
Theorem hash_trees_spec {V} (vertex : vcoll V) edge ordering labels
    vertices hm v_ordered v :
  hash_trees (vertex, edge, ordering, labels) = Ok (vertices, hm, v_ordered) →
  in_vcoll v vertex →
  ∃ lab, labels !! v = Some lab ∧
    (edge !! v = None ∨ edge !! v = Some [] →
       vertices !! v = Some (0%Z, 1%Z, lab)) ∧
    (∀ cs, edge !! v = Some cs → cs ≠ [] →
       Forall (λ c, is_Some (vertices !! c)) cs ∧
       vertices !! v =
         Some ((Z.of_nat (length cs) + sumZ (depth_of vertices <$> cs))%Z, 1%Z,
               (lab ++ "(" ++ String.concat "," (id_of vertices <$> cs) ++ ")")%string) ∧
       (Z.of_nat (length cs) + sumZ (depth_of vertices <$> cs))%Z =
         sumZ ((λ c, 1 + depth_of vertices c)%Z <$> cs)).
Proof.
  unfold hash_trees. intros (l & Hl & Hrest)%bind_Ok Hv.
  apply bind_Ok in Hrest as (vo & Hsort & Hrest).
  apply bind_Ok in Hrest as ([vs hm'] & Hloop & [= <- <- <-]).
  apply vcoll_list_spec in Hl as [Hnd Hin].
  apply py_sorted_perm in Hsort as Hperm.
  apply hash_loop_spec in Hloop as (_ & _ & Hok).
  - destruct (Hok v) as (lab & Hlab & Hnode).
    { rewrite Hperm. by apply Hin. }
    exists lab. split; [done|]. split.
    + intros Hleaf%is_leaf_true. by rewrite Hleaf in Hnode.
    + intros cs Hcs Hne.
      assert (is_leaf edge v = false) as Hleaf.
      { unfold is_leaf. rewrite Hcs. destruct cs; [done|]. done. }
      rewrite Hleaf, Hcs in Hnode. simpl in Hnode. destruct Hnode as [Hall Hnode].
      rewrite <- sumZ_succ. done.
  - by rewrite Hperm.
  - intros ? _. apply lookup_empty.
Qed.

Lemma hash_trees_spec_witness : ab_hashed !! 1 = Some (0%Z, 1%Z, "b"%string).
Proof.
  destruct (hash_trees_spec (V := bnode) (VSet {[0; 1]}) (ab_tree.1.1.2) (ab_tree.1.2)
              (ab_tree.2) ab_hashed ab_buckets [1; 0] 1)
    as (lab & Hlab & Hleaf & _).
  - vm_compute. reflexivity.
  - simpl. set_solver.
  - vm_compute in Hlab. injection Hlab as <-.
    apply Hleaf. right. vm_compute. reflexivity.
Defined.

(** ** [dag]: the breadth-first loop *)

Lemma level_monotone_weaken levels levels' edges :
  levels ⊆ levels' → level_monotone levels edges → level_monotone levels' edges.
Proof.
  intros Hsub Hmono u l n Hu Hn.
  destruct (Hmono u l n Hu Hn) as (L & Ln & HL & HLn & Hle).
  exists L, Ln. eauto using lookup_weaken.
Qed.

(** Appending the edge [u -> n] keeps the edges level-monotone when [n] is
    recorded deep enough. *)
Lemma level_monotone_alter levels edges u n L Ln :
  levels !! u = Some L → levels !! n = Some Ln → (L + 1 ≤ Ln)%Z →
  level_monotone levels edges →
  level_monotone levels (alter (λ l, l ++ [n]) u edges).
Proof.
  intros HL HLn Hle Hmono u' l n'. destruct (decide (u' = u)) as [->|Hne].
  - rewrite lookup_alter_eq. destruct (edges !! u) as [l0|] eqn:Hl0; [|done].
    intros [= <-] [Hin| ->%list_elem_of_singleton]%elem_of_app.
    + by eapply Hmono.
    + by exists L, Ln.
  - rewrite lookup_alter_ne by done. apply Hmono.
Qed.

Lemma dag_visit_inv u level st n :
  st.1.2 !! u = Some level → bfs_inv st →
  bfs_inv (dag_visit u level st n) ∧ (dag_visit u level st n).1.2 !! u = Some level.
Proof.
  destruct st as [[q vs] es]. simpl. intros Hu [Hq Hmono]. unfold dag_visit.
  destruct (vs !! n) as [ln|] eqn:Hn.
  - destruct (Z.leb_spec (level + 1) ln) as [Hle|Hlt]; simpl.
    + split; [|done]. split; [done|]. simpl. by eapply level_monotone_alter.
    + by repeat split.
  - assert (vs ⊆ <[n := (level + 1)%Z]> vs) as Hsub by by apply insert_subseteq.
    assert (n ≠ u) as Hne by congruence.
    split; [|simpl; by rewrite lookup_insert_ne]. split; simpl.
    + intros u' L' [Hin|[= -> ->]%list_elem_of_singleton]%elem_of_app.
      * eapply lookup_weaken; [|done]. by apply Hq.
      * apply lookup_insert_eq.
    + eapply (level_monotone_alter _ _ _ _ level (level + 1)%Z).
      * by rewrite lookup_insert_ne.
      * apply lookup_insert_eq.
      * lia.
      * by eapply level_monotone_weaken.
Qed.

Lemma dag_visits_inv u level ns st :
  st.1.2 !! u = Some level → bfs_inv st →
  bfs_inv (fold_left (dag_visit u level) ns st).
Proof.
  revert st. induction ns as [|n ns IH]; intros st Hu Hinv; simpl; [done|].
  destruct (dag_visit_inv u level st n Hu Hinv) as [Hinv' Hu']. by apply IH.
Qed.

Lemma dag_body_inv g u level q vs es :
  bfs_inv ((u, level) :: q, vs, es) → bfs_inv (dag_body g u level q vs es).
Proof.
  intros [Hq Hmono]. simpl in *. unfold dag_body. apply dag_visits_inv; simpl.
  - apply Hq. by left.
  - split; simpl.
    + intros u' L' Hin. apply Hq. by right.
    + destruct (es !! u) eqn:Hu; [done|].
      intros u' l n. destruct (decide (u' = u)) as [->|Hne].
      * rewrite lookup_insert_eq. by intros [= <-] ?%elem_of_nil.
      * rewrite lookup_insert_ne by done. apply Hmono.
Qed.

Lemma dag_loop_inv fuel g h st levels edges :
  bfs_inv st → dag_loop fuel g h st = Ok (levels, edges) →
  level_monotone levels edges.
Proof.
  revert st. induction fuel as [|fuel IH]; intros [[q vs] es] Hinv; simpl; [done|].
  destruct q as [|[u level] q].
  - intros [= <- <-]. apply Hinv.
  - destruct (level =? h)%Z.
    + intros [= <- <-]. apply Hinv.
    + apply IH. by apply dag_body_inv.
Qed.

Lemma level_monotone_reach levels edges u w :
  level_monotone levels edges → reach edges u w →
  ∃ L Lw, levels !! u = Some L ∧ levels !! w = Some Lw ∧ (L < Lw)%Z.
Proof.
  intros Hmono. induction 1 as [u w l Hu Hw|u w x _ IH1 _ IH2].
  - destruct (Hmono u l w Hu Hw) as (L & Lw & ? & ? & ?).
    exists L, Lw. repeat split; [done..|lia].
  - destruct IH1 as (L & Lw & HL & HLw & ?), IH2 as (Lw' & Lx & HLw' & HLx & ?).
    simplify_eq. exists L, Lx. repeat split; [done..|lia].
Qed.

Lemma level_monotone_acyclic levels edges :
  level_monotone levels edges → acyclic edges.
Proof.
  intros Hmono u Hcycle.
  destruct (level_monotone_reach _ _ _ _ Hmono Hcycle) as (L & L' & ? & ? & ?).
  simplify_eq. lia.
Qed.

(** What one neighbour does to the state of the loop. *)
Lemma dag_visit_cases u level q vs es l n :
  es !! u = Some l →
  (vs !! n = None →
     dag_visit u level (q, vs, es) n =
       (q ++ [(n, (level + 1)%Z)], <[n := (level + 1)%Z]> vs, <[u := l ++ [n]]> es)) ∧
  (∀ ln, vs !! n = Some ln → (level + 1 ≤ ln)%Z →
     dag_visit u level (q, vs, es) n = (q, vs, <[u := l ++ [n]]> es)) ∧
  (∀ ln, vs !! n = Some ln → (ln < level + 1)%Z →
     dag_visit u level (q, vs, es) n = (q, vs, es)).
Proof.
  intros Hu.
  assert (alter (λ l, l ++ [n]) u es = <[u := l ++ [n]]> es) as Halter.
  { apply map_eq. intros k. destruct (decide (k = u)) as [->|Hne].
    - by rewrite lookup_alter_eq, lookup_insert_eq, Hu.
    - by rewrite lookup_alter_ne, lookup_insert_ne. }
  unfold dag_visit. repeat split.
  - intros ->. by rewrite Halter.
  - intros ln -> Hle. rewrite Halter. by destruct (Z.leb_spec (level + 1) ln); [|lia].
  - intros ln -> Hlt. by destruct (Z.leb_spec (level + 1) ln); [lia|].
Qed.


(** ** The fuel of the breadth-first loop suffices *)

Lemma neighbors_targets g u n : n ∈ neighbors g u → n ∈ targets g.
Proof.
  unfold neighbors, targets. destruct (adjacency g !! u) as [l|] eqn:Hu; simpl.
  - intros Hn. apply elem_of_union_list. exists (list_to_set l). split.
    + apply list_elem_of_fmap. exists (u, l). split; [done|].
      by apply elem_of_map_to_list.
    + by apply elem_of_list_to_set.
  - by intros ?%elem_of_nil.
Qed.

Lemma dag_visit_measure g u level st n :
  n ∈ targets g → bfs_measure g (dag_visit u level st n) ≤ bfs_measure g st.
Proof.
  destruct st as [[q vs] es]. intros Hn. unfold dag_visit, bfs_measure.
  destruct (vs !! n) as [ln|] eqn:Hvs.
  - by destruct (level + 1 <=? ln)%Z.
  - simpl. rewrite length_app, dom_insert_L. simpl.
    assert (targets g ∖ ({[n]} ∪ dom vs) = (targets g ∖ dom vs) ∖ {[n]}) as ->
      by set_solver.
    assert (n ∈ targets g ∖ dom vs) as Hin.
    { apply elem_of_difference. split; [done|]. by apply not_elem_of_dom. }
    rewrite size_difference by set_solver. rewrite size_singleton.
    assert (size (targets g ∖ dom vs) ≠ 0) by (apply size_non_empty_iff; set_solver).
    lia.
Qed.

Lemma dag_visits_measure g u level ns st :
  (∀ n, n ∈ ns → n ∈ targets g) →
  bfs_measure g (fold_left (dag_visit u level) ns st) ≤ bfs_measure g st.
Proof.
  revert st. induction ns as [|n ns IH]; intros st Hns; simpl; [done|].
  etrans; [apply IH|apply dag_visit_measure].
  - intros n' Hn'. apply Hns. by right.
  - apply Hns. by left.
Qed.

Lemma dag_loop_fuel fuel g h st :
  bfs_measure g st < fuel → dag_loop fuel g h st ≠ NoFuel.
Proof.
  revert st. induction fuel as [|fuel IH]; intros [[q vs] es] Hfuel; [lia|].
  simpl. destruct q as [|[u level] q]; [done|].
  destruct (level =? h)%Z; [done|]. apply IH.
  unfold dag_body. eapply Nat.le_lt_trans.
  - apply dag_visits_measure. intros n. apply neighbors_targets.
  - unfold bfs_measure in *. simpl in *. lia.
Qed.

(** [dag] always returns or raises: its loop never runs out of fuel. *)
Lemma dag_levels_total v g h : dag_levels v g h ≠ NoFuel.
Proof.
  unfold dag_levels. destruct (dag_bound h) as [h1| |] eqn:Hh; cbn [mbind result_bind]; [|done|].
  - apply dag_loop_fuel. unfold bfs_measure, dag_fuel. simpl.
    assert (size (targets g ∖ dom ({[v := 0%Z]} : gmap nat Z)) ≤ size (targets g)).
    { apply subseteq_size. set_solver. }
    lia.
  - destruct h as [h|]; simpl in Hh; [|done]. by destruct (h <=? 0)%Z.
Qed.


(** ** [big_dag_append] in merge mode *)

Section merge.
Context (nf : nat) (vertices : gmap nat dnode) (vhm : gmap string (list nat))
        (v_ordered : list nat) (edges : gmap nat (list nat))
        (labels : gmap nat string).
Let dag : hashed_dag := (vertices, vhm, v_ordered, edges, labels).

(** The two branches of the loop body. *)
Lemma bda_step_merge D idx q D' idx' :
  bda_step true nf dag (D, idx) q = Ok (D', idx') →
  ∃ c0 cnt key, vertices !! q = Some (c0, cnt, key) ∧
    ((∃ node ns c f k,
        D_hash_map D !! key = Some (node :: ns) ∧
        D_vertices D !! node = Some (c, Scalar f, k) ∧
        D' = BigDag (<[node := (c, Scalar (f + cnt), k)]> (D_vertices D))
                    (D_hash_map D) (D_edges D) (D_labels D) ∧
        idx' = idx) ∨
     (∃ lab d_edges,
        D_hash_map D !! key = None ∧
        D' = BigDag (<[idx := (cnt, Scalar cnt, key)]> (D_vertices D))
                    (<[key := [idx]]> (D_hash_map D))
                    (<[idx := d_edges]> (D_edges D))
                    (<[idx := lab]> (D_labels D)) ∧
        idx' = S idx)).
Proof.
  unfold bda_step, dag.
  intros ([[c0 cnt] key] & Hq%getitem_Ok & Hstep)%bind_Ok. simpl in Hstep.
  exists c0, cnt, key. split; [done|].
  destruct (D_hash_map D !! key) as [ns|] eqn:Hkey.
  - left. apply bind_Ok in Hstep as (node & Hnode & Hstep).
    destruct ns as [|node' ns]; simplify_eq/=.
    apply bind_Ok in Hstep as ([[c f] k] & Hn%getitem_Ok & Hstep). simpl in Hstep.
    apply bind_Ok in Hstep as (f' & Hbump & [= <- <-]).
    destruct f as [a|l]; simplify_eq/=. by exists node, ns, c, a, k.
  - right. apply bind_Ok in Hstep as (lab & _ & Hstep).
    apply bind_Ok in Hstep as (es & _ & Hstep).
    apply bind_Ok in Hstep as ([d_edges vn] & _ & [= <- <-]).
    by exists lab, d_edges.
Qed.

Lemma bda_step_wf D idx q D' idx' :
  merged_wf (D, idx) → bda_step true nf dag (D, idx) q = Ok (D', idx') →
  merged_wf (D', idx') ∧ extends D D'.
Proof.
  intros (Hhm & Hsc & Hfresh) Hstep. simpl in *.
  apply bda_step_merge in Hstep as (c0 & cnt & key & Hq & Hcase).
  destruct Hcase as [(node & ns & c & f & k & Hkey & Hnode & -> & ->)
                    |(lab & d_edges & Hkey & -> & ->)]; simpl.
  - split; [split; [|split]|split]; simpl.
    + intros key' ns' Hk'. destruct (Hhm _ _ Hk') as (node' & -> & Hsome).
      exists node'. split; [done|]. rewrite lookup_insert_is_Some'. by right.
    + intros node' n'. rewrite lookup_insert_Some.
      intros [[<- <-]|[_ Hn']]; [by eexists|by eapply Hsc].
    + intros node'. rewrite lookup_insert_is_Some'.
      intros [<-|Hn']; [|by apply Hfresh]. apply Hfresh. by eexists.
    + done.
    + rewrite dom_insert_L. set_solver.
  - assert (D_vertices D !! idx = None) as Hidx.
    { apply eq_None_not_Some. intros Hsome%Hfresh. lia. }
    split; [split; [|split]|split]; simpl.
    + intros key' ns'. rewrite lookup_insert_Some.
      intros [[<- <-]|[_ Hk']].
      * exists idx. split; [done|]. rewrite lookup_insert_eq. by eexists.
      * destruct (Hhm _ _ Hk') as (node' & -> & Hsome).
        exists node'. split; [done|]. rewrite lookup_insert_is_Some'. by right.
    + intros node' n'. rewrite lookup_insert_Some.
      intros [[<- <-]|[_ Hn']]; [by eexists|by eapply Hsc].
    + intros node'. rewrite lookup_insert_is_Some'.
      intros [<-|Hn'%Hfresh]; lia.
    + by apply insert_subseteq.
    + rewrite dom_insert_L. set_solver.
Qed.

Lemma extends_trans D1 D2 D3 : extends D1 D2 → extends D2 D3 → extends D1 D3.
Proof. intros [? ?] [? ?]. split; by etrans. Qed.

Lemma bda_loop_wf l D idx D' idx' :
  merged_wf (D, idx) →
  for_each (bda_step true nf dag) (D, idx) l = Ok (D', idx') →
  merged_wf (D', idx') ∧ extends D D'.
Proof.
  revert D idx. induction l as [|q l IH]; intros D idx Hwf; simpl.
  - intros [= <- <-]. split; [done|]. by split.
  - intros ([D1 idx1] & Hstep & Hrest)%bind_Ok.
    destruct (bda_step_wf _ _ _ _ _ Hwf Hstep) as [Hwf1 Hext1].
    destruct (IH _ _ Hwf1 Hrest) as [Hwf' Hext'].
    split; [done|]. by eapply extends_trans.
Qed.

Lemma refold_lookup Dvn Dv node :
  refold_vertices Dvn Dv !! node = (λ n, add_seen n (Dv !! node)) <$> Dvn !! node.
Proof.
  unfold refold_vertices. rewrite map_lookup_imap. by destruct (Dvn !! node).
Qed.

Lemma refold_insert Dvn Dv node n' cn fn kn :
  Dvn !! node = Some (cn, Scalar fn, kn) →
  refold_vertices Dvn (<[node := n']> Dv) =
    <[node := (cn, Scalar (fn + seen_count (Some n')), kn)]> (refold_vertices Dvn Dv).
Proof.
  intros Hn. apply map_eq. intros i. destruct (decide (i = node)) as [->|Hne].
  - rewrite lookup_insert_eq, refold_lookup, Hn. simpl. by rewrite lookup_insert_eq.
  - rewrite lookup_insert_ne, !refold_lookup by done. simpl.
    by rewrite lookup_insert_ne.
Qed.

(** One step of the second fold follows one step of the first. *)
Lemma bda_step_refold Dn idxn D idx q D' idx' idxT :
  merged_wf (Dn, idxn) → merged_wf (D, idx) →
  bda_step true nf dag (D, idx) q = Ok (D', idx') →
  extends D' Dn →
  bda_step true nf dag (refold Dn D, idxT) q = Ok (refold Dn D', idxT).
Proof.
  intros (Hhmn & Hscn & _) Hwf Hstep [Hsub Hdom]. simpl in *.
  destruct Hwf as (Hhm & Hsc & Hfresh). simpl in *.
  apply bda_step_merge in Hstep as (c0 & cnt & key & Hq & Hcase).
  unfold bda_step, dag, refold. rewrite (proj2 (getitem_Ok _ _ _) Hq).
  cbn [mbind result_bind D_hash_map D_vertices D_edges D_labels].
  destruct Hcase as [(node & ns & c & f & k & Hkey & Hnode & -> & ->)
                    |(lab & d_edges & Hkey & -> & ->)]; simpl in Hsub, Hdom.
  - destruct (Hhm _ _ Hkey) as (node' & [= <- ->] & _).
    assert (is_Some (D_vertices Dn !! node)) as [[[cn fn] kn] Hn].
    { apply elem_of_dom, Hdom. rewrite dom_insert_L. set_solver. }
    destruct (Hscn _ _ Hn) as [fn' [= ->]].
    rewrite (lookup_weaken _ _ _ _ Hkey Hsub). cbn [first_item mbind result_bind].
    unfold getitem. rewrite refold_lookup, Hn, Hnode.
    cbn [fmap option_fmap option_map add_seen seen_count mbind result_bind bump].
    cbn [D_hash_map D_vertices D_edges D_labels].
    rewrite (refold_insert _ _ _ _ _ _ _ Hn). cbn [seen_count].
    by rewrite Z.add_assoc.
  - assert (D_vertices D !! idx = None) as Hidx.
    { apply eq_None_not_Some. intros Hsome%Hfresh. lia. }
    assert (is_Some (D_vertices Dn !! idx)) as [[[cn fn] kn] Hn].
    { apply elem_of_dom, Hdom. rewrite dom_insert_L. set_solver. }
    destruct (Hscn _ _ Hn) as [fn' [= ->]].
    assert (D_hash_map Dn !! key = Some [idx]) as ->.
    { eapply lookup_weaken; [|done]. apply lookup_insert_eq. }
    cbn [first_item mbind result_bind].
    unfold getitem. rewrite refold_lookup, Hn, Hidx.
    cbn [fmap option_fmap option_map add_seen seen_count mbind result_bind bump].
    cbn [D_hash_map D_vertices D_edges D_labels].
    rewrite (refold_insert _ _ _ _ _ _ _ Hn). cbn [seen_count].
    by rewrite Z.add_0_r.
Qed.

Lemma bda_loop_refold Dn idxn l D idx D' idx' idxT :
  merged_wf (Dn, idxn) → merged_wf (D, idx) →
  for_each (bda_step true nf dag) (D, idx) l = Ok (D', idx') →
  extends D' Dn →
  for_each (bda_step true nf dag) (refold Dn D, idxT) l = Ok (refold Dn D', idxT).
Proof.
  intros Hwfn. revert D idx.
  induction l as [|q l IH]; intros D idx Hwf; cbn [for_each].
  - by intros [= <- <-] _.
  - intros ([D1 idx1] & Hstep & Hrest)%bind_Ok Hext.
    destruct (bda_step_wf _ _ _ _ _ Hwf Hstep) as [Hwf1 _].
    destruct (bda_loop_wf _ _ _ _ _ Hwf1 Hrest) as [_ Hext1].
    erewrite bda_step_refold; [|done..|by eapply extends_trans].
    cbn [mbind result_bind]. by eapply IH.
Qed.
End merge.

Lemma merged_wf_empty : merged_wf (BigDag ∅ ∅ ∅ ∅, 0).
Proof.
  split; [|split]; simpl.
  - intros key ns. by rewrite lookup_empty.
  - intros node n. by rewrite lookup_empty.
  - intros node. rewrite lookup_empty. by intros [? ?].
Qed.

Lemma refold_empty Dn idxn : merged_wf (Dn, idxn) → refold Dn (BigDag ∅ ∅ ∅ ∅) = Dn.
Proof.
  intros (_ & Hsc & _). destruct Dn as [Dv hm es ls]. unfold refold. simpl in *.
  f_equal. apply map_eq. intros i. rewrite refold_lookup, lookup_empty.
  destruct (Dv !! i) as [[[c f] k]|] eqn:Hi; [|done]. simpl.
  destruct (Hsc _ _ Hi) as [a [= ->]]. simpl. by rewrite Z.add_0_r.
Qed.

Lemma refold_self Dn idxn :
  merged_wf (Dn, idxn) →
  refold Dn Dn = BigDag (double_freq <$> D_vertices Dn) (D_hash_map Dn)
                        (D_edges Dn) (D_labels Dn).
Proof.
  intros (_ & Hsc & _). unfold refold. f_equal. apply map_eq. intros i.
  rewrite refold_lookup, lookup_fmap.
  destruct (D_vertices Dn !! i) as [[[c f] k]|] eqn:Hi; [|done]. simpl.
  destruct (Hsc _ _ Hi) as [a [= ->]]. unfold double_freq. simpl.
  by replace (a + a)%Z with (2 * a)%Z by lia.
Qed.

(** C5: folding the same dag into an empty Big DAG twice in merge mode
    gives the Big DAG of a single fold (same nodes under the same indices,
    same identities, labels and edge lists) with every frequency, an
    integer, doubled. *)
Theorem fold_twice_doubles (dag : hashed_dag) D1 :
  big_dag_append dag None true = Ok D1 →
  (∀ node n, D_vertices D1 !! node = Some n → ∃ f, n.1.2 = Scalar f) ∧
  big_dag_append dag (Some D1) true =
    Ok (BigDag (double_freq <$> D_vertices D1) (D_hash_map D1) (D_edges D1)
               (D_labels D1)).
Proof.
  destruct dag as [[[[vertices vhm] v_ordered] edges] labels].
  unfold big_dag_append. cbn [bda_init mbind result_bind fst snd].
  intros ([D' idx'] & Hloop & [= <-])%bind_Ok.
  destruct (bda_loop_wf _ _ _ _ _ _ _ _ _ _ _ merged_wf_empty Hloop) as [Hwf _].
  split; [apply Hwf|].
  rewrite <- (refold_empty D' idx') at 1 by done.
  erewrite bda_loop_refold; [|done|apply merged_wf_empty|done|by split].
  cbn. by erewrite refold_self.
Qed.

Lemma fold_twice_doubles_witness :
  big_dag_append ab_dag (Some ab_big) true =
    Ok (BigDag (double_freq <$> D_vertices ab_big) (D_hash_map ab_big)
               (D_edges ab_big) (D_labels ab_big)).
Proof.
  apply (fold_twice_doubles ab_dag ab_big). vm_compute. reflexivity.
Defined.

(** ** Counting edges *)

Lemma occ_nil w : occ w [] = 0.
Proof. reflexivity. Qed.

Lemma occ_cons w x l : occ w (x :: l) = (if decide (x = w) then 1 else 0) + occ w l.
Proof. reflexivity. Qed.

Lemma occ_zero w l : occ w l = 0 ↔ w ∉ l.
Proof.
  induction l as [|x l IH]; [split; [intros _; apply not_elem_of_nil|done]|].
  rewrite occ_cons, not_elem_of_cons. case_decide; subst; [|rewrite Nat.add_0_l, IH].
  - split; [lia|]. by intros [? _].
  - split; [by split|]. by intros [_ ?].
Qed.

Lemma inflow_delete m k es w :
  m !! k = Some es → inflow m w = occ w es + inflow (delete k m) w.
Proof.
  intros Hk. unfold inflow. by rewrite <- (map_to_list_delete m k es Hk).
Qed.

Lemma inflow_zero m w :
  inflow m w = 0 → ∀ k es, m !! k = Some es → w ∉ es.
Proof.
  intros Hzero k es Hk. rewrite (inflow_delete m k es w Hk) in Hzero.
  apply occ_zero. lia.
Qed.

Lemma inflow_empty w : inflow ∅ w = 0.
Proof. unfold inflow. by rewrite map_to_list_empty. Qed.

Lemma indeg_insert ind k c w :
  indeg (<[k := c]> ind) w = if decide (k = w) then c else indeg ind w.
Proof.
  unfold indeg. case_decide; subst.
  - by rewrite lookup_insert_eq.
  - by rewrite lookup_insert_ne.
Qed.

Lemma indeg_delete ind k w :
  indeg (delete k ind) w = if decide (k = w) then 0 else indeg ind w.
Proof.
  unfold indeg. case_decide; subst.
  - by rewrite lookup_delete_eq.
  - by rewrite lookup_delete_ne.
Qed.

(** ** Step 1 of [odd]: the in-degrees *)

Lemma count_edge_loop e ind zero ind' zero' :
  fold_left count_edge e (ind, zero) = (ind', zero') →
  positive_counts ind →
  positive_counts ind' ∧
  (∀ w, indeg ind' w = indeg ind w + occ w e) ∧
  (∀ w, w ∈ zero' ↔ w ∈ zero ∧ occ w e = 0).
Proof.
  revert ind zero. induction e as [|v e IH]; intros ind zero; simpl.
  - intros [= <- <-] Hpos. split; [done|]. split.
    + intros w. rewrite occ_nil. lia.
    + intros w. rewrite occ_nil. naive_solver.
  - intros Hfold Hpos. apply IH in Hfold as (Hpos' & Hind & Hzero).
    + split; [done|]. split.
      * intros w. rewrite Hind, occ_cons.
        destruct (ind !! v) as [c|] eqn:Hv; rewrite indeg_insert;
          case_decide; subst; unfold indeg; rewrite ?Hv; simpl; lia.
      * intros w. rewrite Hzero, occ_cons, elem_of_difference, elem_of_singleton.
        case_decide; subst; [|naive_solver lia]. split; [naive_solver|lia].
    + intros w c. destruct (ind !! v) as [c'|] eqn:Hv;
        rewrite lookup_insert_Some; intros [[<- <-]|[_ Hw]]; try lia;
        by eapply Hpos.
Qed.

Lemma odd_indegrees_spec edges zero ind zero' :
  odd_indegrees edges zero = (ind, zero') →
  positive_counts ind ∧
  (∀ w, indeg ind w = inflow edges w) ∧
  (∀ w, w ∈ zero' ↔ w ∈ zero ∧ inflow edges w = 0).
Proof.
  unfold odd_indegrees, inflow.
  assert (∀ (l : list (nat * list nat)) ind0 zero0,
    fold_left (λ st ke, fold_left count_edge ke.2 st) l (ind0, zero0) = (ind, zero') →
    positive_counts ind0 →
    positive_counts ind ∧
    (∀ w, indeg ind w = indeg ind0 w + sum_list_with (λ kv, occ w kv.2) l) ∧
    (∀ w, w ∈ zero' ↔ w ∈ zero0 ∧ sum_list_with (λ kv, occ w kv.2) l = 0)) as Hgen.
  { induction l as [|[k e] l IH]; intros ind0 zero0; simpl.
    - intros [= <- <-] Hpos. split; [done|]. split; [intros; lia|naive_solver].
    - destruct (fold_left count_edge e (ind0, zero0)) as [ind1 zero1] eqn:He.
      intros Hfold Hpos. apply count_edge_loop in He as (Hpos1 & Hind1 & Hzero1); [|done].
      apply IH in Hfold as (Hpos' & Hind & Hzero); [|done].
      split; [done|]. split.
      + intros w. rewrite Hind, Hind1. lia.
      + intros w. rewrite Hzero, Hzero1. naive_solver lia. }
  intros Hfold. apply Hgen in Hfold as (Hpos & Hind & Hzero).
  - split; [done|]. split; [|done]. intros w. rewrite Hind. unfold indeg.
    by rewrite lookup_empty.
  - intros w c. by rewrite lookup_empty.
Qed.

(** ** Step 3 of [odd]: releasing the children of the removed vertex *)

Lemma odd_relax_loop es ind q ind' q' :
  fold_left odd_relax es (ind, q) = (ind', q') →
  positive_counts ind →
  positive_counts ind' ∧
  (∀ w, indeg ind' w = indeg ind w - occ w es) ∧
  size ind' + length q' = size ind + length q ∧
  ∃ new, q' = q ++ new ∧ NoDup new ∧
         ∀ w, w ∈ new → 0 < indeg ind w ∧ indeg ind' w = 0.
Proof.
  revert ind q. induction es as [|k es IH]; intros ind q; simpl.
  - intros [= <- <-] Hpos. split; [done|]. split; [intros; rewrite occ_nil; lia|].
    split; [done|]. exists []. rewrite app_nil_r. split; [done|].
    split; [constructor|]. by intros w ?%elem_of_nil.
  - destruct (ind !! k) as [c|] eqn:Hk.
    + destruct (Nat.eqb_spec c 1) as [->|Hc].
      * intros Hfold Hpos. apply IH in Hfold as (Hpos' & Hind & Hsize & new & -> & Hnd & Hnew).
        2:{ intros w c. rewrite lookup_delete_Some. intros [_ ?]. by eapply Hpos. }
        split; [done|]. split; [|split].
        -- intros w. rewrite Hind, indeg_delete, occ_cons.
           case_decide; subst; [|lia]. unfold indeg. rewrite Hk. simpl. lia.
        -- rewrite Hsize, length_app, map_size_delete_Some by done. simpl.
           assert (size ind ≠ 0); [|lia].
           apply map_size_non_empty_iff. intros ->. by rewrite lookup_empty in Hk.
        -- exists (k :: new). split; [by rewrite <- app_assoc|]. split.
           ++ constructor; [|done]. intros [Hlt _]%Hnew.
              rewrite indeg_delete, decide_True in Hlt by done. lia.
           ++ intros w [->|Hw]%elem_of_cons.
              ** split; [unfold indeg; rewrite Hk; simpl; lia|].
                 rewrite Hind, indeg_delete, decide_True by done. lia.
              ** destruct (Hnew w Hw) as [Hlt Hzero]. split; [|done].
                 rewrite indeg_delete in Hlt. case_decide; lia.
      * intros Hfold Hpos. assert (0 < c) by by eapply Hpos.
        apply IH in Hfold as (Hpos' & Hind & Hsize & new & -> & Hnd & Hnew).
        2:{ intros w c'. rewrite lookup_insert_Some.
            intros [[<- <-]|[_ ?]]; [lia|by eapply Hpos]. }
        split; [done|]. split; [|split].
        -- intros w. rewrite Hind, indeg_insert, occ_cons.
           case_decide; subst; [|lia]. unfold indeg. rewrite Hk. simpl. lia.
        -- rewrite Hsize, map_size_insert_Some; [done|by eexists].
        -- exists new. split; [done|]. split; [done|].
           intros w Hw. destruct (Hnew w Hw) as [Hlt Hzero]. split; [|done].
           rewrite indeg_insert in Hlt. case_decide; subst; [|done].
           unfold indeg. rewrite Hk. simpl. lia.
    + intros Hfold Hpos.
      apply IH in Hfold as (Hpos' & Hind & Hsize & new & -> & Hnd & Hnew); [|done].
      split; [done|]. split; [|split; [done|]].
      * intros w. rewrite Hind, occ_cons.
        case_decide; subst; [|lia]. unfold indeg. rewrite Hk. simpl. lia.
      * by exists new.
Qed.

(** ** Kahn's loop *)

Lemma unvisited_lookup ord edges e es :
  ord !! e = None → edges !! e = Some es → unvisited ord edges !! e = Some es.
Proof. intros He Hes. unfold unvisited. by apply map_lookup_filter_Some. Qed.

Lemma unvisited_insert ord edges e v :
  unvisited (<[e := v]> ord) edges = delete e (unvisited ord edges).
Proof.
  unfold unvisited. apply map_eq. intros i. apply option_eq. intros x.
  rewrite lookup_delete_Some, !map_lookup_filter_Some. simpl.
  rewrite lookup_insert_None. naive_solver.
Qed.

Lemma unvisited_empty edges : unvisited ∅ edges = edges.
Proof.
  unfold unvisited. apply map_filter_id. intros i x _. apply lookup_empty.
Qed.

Lemma kahn_step edges labels q0 q ind ord visited e q2 es ind' q3 :
  kahn_inv edges labels q0 q ind ord visited →
  py_sorted String.leb (getitem labels) q = Ok (e :: q2) →
  edges !! e = Some es →
  fold_left odd_relax es (ind, q2) = (ind', q3) →
  kahn_inv edges labels q0 q3 ind' (<[e := visited]> ord) (visited - 1)%Z.
Proof.
  intros (Hpos & Hind & Hnd & Hfresh & Hzero & Hvis & Hrank & Hlab & Hq0)
         Hsort Hes Hrelax.
  pose proof (py_sorted_perm _ _ _ _ Hsort) as Hperm.
  assert (e ∈ q) as Heq by (rewrite <- Hperm; by left).
  assert (∀ x, x ∈ q2 → x ∈ q) as Hq2 by (intros x Hx; rewrite <- Hperm; by right).
  rewrite <- Hperm in Hnd. apply NoDup_cons in Hnd as [Heq2 Hnd2].
  pose proof (Hfresh e Heq) as He.
  apply odd_relax_loop in Hrelax as (Hpos' & Hind' & _ & new & -> & Hndnew & Hnew);
    [|done].
  assert (∀ w, w ∈ new → w ≠ e ∧ (w ∉ q2) ∧ ord !! w = None) as Hnew'.
  { intros w [Hlt _]%Hnew. split; [|split].
    - intros ->. rewrite Hzero in Hlt by (by left). lia.
    - intros Hw%Hq2. rewrite Hzero in Hlt by (by left). lia.
    - apply eq_None_not_Some. intros Hw. rewrite Hzero in Hlt by (by right). lia. }
  split; [done|]. split; [|split; [|split; [|split; [|split; [|split; [|split]]]]]].
  - intros w. rewrite Hind', Hind, unvisited_insert.
    rewrite (inflow_delete _ e es w (unvisited_lookup _ _ _ _ He Hes)). lia.
  - apply NoDup_app. split; [done|]. split; [|done].
    intros x Hx Hx'. by destruct (Hnew' x Hx') as (_ & ? & _).
  - intros x [Hx|Hx]%elem_of_app.
    + rewrite lookup_insert_ne by (by intros ->). by apply Hfresh, Hq2.
    + destruct (Hnew' x Hx) as (? & _ & ?). by rewrite lookup_insert_ne.
  - intros x Hx. rewrite Hind'.
    destruct Hx as [[Hx|Hx]%elem_of_app|Hx].
    + rewrite Hzero; [lia|]. left. by apply Hq2.
    + destruct (Hnew x Hx) as [_ Hz]. by rewrite Hind' in Hz.
    + apply lookup_insert_is_Some' in Hx as [<-|Hx].
      * rewrite Hzero; [lia|by left].
      * rewrite Hzero; [lia|by right].
  - intros x o. rewrite lookup_insert_Some.
    intros [[<- <-]|[_ Hx]]; [lia|]. apply Hvis in Hx. lia.
  - intros k esk w Hk Hw Hsome.
    apply lookup_insert_is_Some' in Hsome as [<-|Hsome].
    + assert (is_Some (ord !! k)) as [ok Hok].
      { apply not_eq_None_Some. intros Hnone.
        assert (inflow (unvisited ord edges) e = 0) as Hin.
        { rewrite <- Hind. apply Hzero. by left. }
        apply (inflow_zero _ _ Hin k esk); [|done].
        by apply unvisited_lookup. }
      exists ok, visited. split; [|split].
      * rewrite lookup_insert_ne; [done|]. intros <-. congruence.
      * apply lookup_insert_eq.
      * by apply Hvis in Hok.
    + destruct (Hrank k esk w Hk Hw Hsome) as (ok & ow & Hok & How & Hlt).
      exists ok, ow. split; [|split; [|done]].
      * rewrite lookup_insert_ne; [done|]. intros <-. congruence.
      * rewrite lookup_insert_ne; [done|]. intros <-. congruence.
  - intros x [<-|Hx]%lookup_insert_is_Some'; [|by apply Hlab].
    destruct (py_sorted_key _ _ _ _ e Hsort Heq) as [lb Hlb%getitem_Ok]. by eexists.
  - intros x Hx. destruct (Hq0 x Hx) as [Hin|Hsome].
    + rewrite <- Hperm in Hin. apply elem_of_cons in Hin as [->|Hin].
      * right. rewrite lookup_insert_eq. by eexists.
      * left. apply elem_of_app. by left.
    + right. apply lookup_insert_is_Some'. by right.
Qed.

Lemma odd_loop_inv fuel edges labels q0 q ind ord visited ord' :
  kahn_inv edges labels q0 q ind ord visited →
  odd_loop fuel edges labels q ind ord visited = Ok ord' →
  ranked_below_parents edges ord' ∧
  (∀ x, is_Some (ord' !! x) → is_Some (labels !! x)) ∧
  (∀ x, x ∈ q0 → is_Some (ord' !! x)).
Proof.
  revert q ind ord visited.
  induction fuel as [|fuel IH]; intros q ind ord visited Hinv; simpl; [done|].
  destruct q as [|x q].
  - intros [= <-]. destruct Hinv as (_ & _ & _ & _ & _ & _ & Hrank & Hlab & Hq0).
    split; [done|]. split; [done|]. intros y Hy.
    destruct (Hq0 y Hy) as [?%elem_of_nil|?]; done.
  - intros (q1 & Hsort & Hrest)%bind_Ok. destruct q1 as [|e q2]; [done|].
    apply bind_Ok in Hrest as (es & Hes%getitem_Ok & Hrest).
    destruct (fold_left odd_relax es (ind, q2)) as [ind' q3] eqn:Hrelax.
    eapply IH; [|done]. by eapply kahn_step.
Qed.

(** ** [sorted] sorts *)

Section sorted.
Context {K A : Type} (le : K → K → bool) (R : K → K → Prop).
Context (R_trans : ∀ a b c, R a b → R b c → R a c).
Context (le_true : ∀ a b, le a b = true → R a b).
Context (le_false : ∀ a b, le a b = false → R b a).

Lemma insert_key_sorted (x : K * A) l :
  StronglySorted (λ p1 p2, R p1.1 p2.1) l →
  StronglySorted (λ p1 p2, R p1.1 p2.1) (insert_key le x l).
Proof using R_trans le_true le_false.
  induction 1 as [|y l Hsorted IH Hall]; simpl.
  - repeat constructor.
  - destruct (le x.1 y.1) eqn:Hle.
    + constructor; [by constructor|]. constructor; [by apply le_true|].
      eapply Forall_impl; [done|]. intros z Hz. simpl in *.
      eapply R_trans; [|done]. by apply le_true.
    + constructor; [done|]. rewrite insert_key_perm.
      constructor; [by apply le_false|done].
Qed.

Lemma sort_keyed_sorted (l : list (K * A)) :
  StronglySorted (λ p1 p2, R p1.1 p2.1) (sort_keyed le l).
Proof using R_trans le_true le_false.
  induction l as [|x l IH]; simpl; [constructor|]. by apply insert_key_sorted.
Qed.
End sorted.

Lemma before_total {A} (l : list A) x y :
  x ∈ l → y ∈ l → x ≠ y → before x y l ∨ before y x l.
Proof.
  intros (l1 & l2 & ->)%list_elem_of_split Hy Hne.
  apply elem_of_app in Hy as [Hy|Hy].
  - right. apply list_elem_of_split in Hy as (l3 & l4 & ->).
    exists l3, l4, l2. by rewrite <- app_assoc.
  - left. apply elem_of_cons in Hy as [->|Hy]; [done|].
    apply list_elem_of_split in Hy as (l3 & l4 & ->). by exists l1, l3, l4.
Qed.

Lemma rank_sorted (kl : list (Z * string * nat)) :
  StronglySorted (λ p1 p2, (p1.1.1 ≤ p2.1.1)%Z) (sort_keyed rank_le kl).
Proof.
  apply (sort_keyed_sorted rank_le (λ a b : Z * string, (a.1 ≤ b.1)%Z)).
  - intros a b c. lia.
  - intros a b. unfold rank_le. lia.
  - intros a b. unfold rank_le. lia.
Qed.

Lemma rank_key_Ok ordering labels x k :
  rank_key ordering labels x = Ok k ↔ ordering !! x = Some k.1 ∧ labels !! x = Some k.2.
Proof.
  unfold rank_key. rewrite bind_Ok. split.
  - intros (o & Ho%getitem_Ok & (lb & Hlb%getitem_Ok & [= <-])%bind_Ok). done.
  - intros [Ho Hlb]. exists k.1. split; [by apply getitem_Ok|].
    apply bind_Ok. exists k.2. split; [by apply getitem_Ok|]. by destruct k.
Qed.

(** In the order computed by [hash_trees], a vertex of smaller rank comes
    before a vertex of larger rank. *)
Lemma rank_sorted_before ordering labels l v_ordered x y ox oy :
  py_sorted rank_le (rank_key ordering labels) l = Ok v_ordered →
  x ∈ l → y ∈ l →
  ordering !! x = Some ox → ordering !! y = Some oy → (ox < oy)%Z →
  before x y v_ordered.
Proof.
  intros Hsort Hx Hy Hox Hoy Hlt.
  pose proof (py_sorted_perm _ _ _ _ Hsort) as Hperm.
  destruct (before_total v_ordered x y) as [?|Hbad]; [by rewrite Hperm..| |done|].
  { intros ->. simplify_eq. lia. }
  exfalso. unfold py_sorted in Hsort.
  apply bind_Ok in Hsort as (kl & Hkl & [= <-]).
  apply keyed_Ok in Hkl as [_ Hkeys].
  rewrite <- (sort_keyed_perm rank_le kl) in Hkeys.
  pose proof (rank_sorted kl) as Hsorted.
  destruct Hbad as (l1 & l2 & l3 & Hsplit).
  apply fmap_app_inv in Hsplit as (s1 & s' & -> & Hs' & Hskl).
  symmetry in Hs'. apply fmap_cons_inv in Hs' as ([ky y'] & s'' & [= <-] & Hs'' & ->).
  symmetry in Hs''. apply fmap_app_inv in Hs'' as (s2 & s3' & -> & Hs3 & ->).
  symmetry in Hs3. apply fmap_cons_inv in Hs3 as ([kx x'] & s3 & [= <-] & _ & ->).
  rewrite Hskl in Hsorted, Hkeys.
  apply StronglySorted_app_1_r, StronglySorted_cons in Hsorted as [Hall _].
  apply Forall_app in Hall as [_ [Hle _]%Forall_cons]. simpl in Hle.
  apply Forall_app in Hkeys as [_ [Hky Hkeys]%Forall_cons].
  apply Forall_app in Hkeys as [_ [Hkx _]%Forall_cons].
  apply rank_key_Ok in Hky as [Hky _], Hkx as [Hkx _]. simpl in *.
  simplify_eq. lia.
Qed.

(** ** [odd] as a whole *)

Lemma dict_mapM_spec {V W} (f : V → result W) (d : gmap nat V) d' :
  dict_mapM f d = Ok d' →
  ∀ k, match d !! k with
       | Some v => ∃ w, f v = Ok w ∧ d' !! k = Some w
       | None => d' !! k = None
       end.
Proof.
  unfold dict_mapM. intros Hmap.
  assert (∀ (l : list (nat * V)) (m : gmap nat W), NoDup l.*1 →
    foldr (λ kv acc, m ← acc; w ← f kv.2; Ok (<[kv.1 := w]> m)) (Ok ∅) l = Ok m →
    (∀ k v, (k, v) ∈ l → ∃ w, f v = Ok w ∧ m !! k = Some w) ∧
    (∀ k, k ∉ l.*1 → m !! k = None)) as Hgen.
  { induction l as [|[k0 v0] l IH]; intros m Hnd; simpl.
    - intros [= <-]. split; [by intros k v ?%elem_of_nil|]. intros k _. apply lookup_empty.
    - intros (m0 & Hm0 & (w & Hw & [= <-])%bind_Ok)%bind_Ok.
      apply NoDup_cons in Hnd as [Hk0 Hnd]. destruct (IH m0 Hnd Hm0) as [Hin Hout].
      split.
      + intros k v [[= -> ->]|Hkv]%elem_of_cons.
        * exists w. split; [done|]. apply lookup_insert_eq.
        * destruct (Hin k v Hkv) as (w' & Hw' & Hk). exists w'. split; [done|].
          rewrite lookup_insert_ne; [done|]. intros <-. apply Hk0.
          apply list_elem_of_fmap. by exists (k0, v).
      + intros k [Hne Hk]%not_elem_of_cons. rewrite lookup_insert_ne by done.
        by apply Hout. }
  destruct (Hgen _ _ (NoDup_fst_map_to_list d) Hmap) as [Hin Hout].
  intros k. destruct (d !! k) as [v|] eqn:Hk.
  - apply Hin. by apply elem_of_map_to_list.
  - apply Hout. intros ([k' v] & -> & Hkv%elem_of_map_to_list)%list_elem_of_fmap.
    simpl in *. congruence.
Qed.

Lemma inflow_pos m w :
  inflow m w ≠ 0 → ∃ k es, m !! k = Some es ∧ w ∈ es.
Proof.
  unfold inflow. intros Hne.
  assert (∃ kv, kv ∈ map_to_list m ∧ occ w kv.2 ≠ 0) as ([k es] & Hin & Hocc).
  { induction (map_to_list m) as [|kv l IH]; [done|]. simpl in Hne.
    destruct (decide (occ w kv.2 = 0)) as [Hz|Hnz].
    - destruct IH as (kv' & ? & ?); [lia|]. exists kv'. split; [by right|done].
    - exists kv. split; [by left|done]. }
  exists k, es. split; [by apply elem_of_map_to_list|].
  destruct (decide (w ∈ es)) as [|Hnin]; [done|]. by apply occ_zero in Hnin.
Qed.

(** What [odd] returns: the vertices and labels it was given, the edge
    lists permuted, and a rank for every vertex and every edge target such
    that edges lead to strictly smaller ranks. *)
Lemma odd_spec {V} (vertices : vcoll V) edges labels t :
  odd vertices edges labels = Ok t →
  ∃ edges' ordering,
    t = (vertices, edges', ordering, labels) ∧
    ranked_below_parents edges ordering ∧
    (∀ x, is_Some (ordering !! x) → is_Some (labels !! x)) ∧
    (∀ x, in_vcoll x vertices → is_Some (ordering !! x)) ∧
    (∀ k, match edges !! k with
          | Some es => ∃ es', edges' !! k = Some es' ∧ es' ≡ₚ es ∧
                              ∀ w, w ∈ es → is_Some (ordering !! w)
          | None => edges' !! k = None
          end).
Proof.
  unfold odd. intros ([zero visited] & Hstart & Hrest)%bind_Ok. cbn -[odd_loop] in Hrest.
  destruct (odd_indegrees edges zero) as [ind zero'] eqn:Hind.
  apply bind_Ok in Hrest as (ordering & Hloop & Hrest).
  apply bind_Ok in Hrest as (edges' & Hedges & [= <-]).
  exists edges', ordering. split; [done|].
  apply odd_indegrees_spec in Hind as (Hpos & Hindeg & Hzero).
  apply odd_loop_inv with (q0 := elements zero') in Hloop as (Hrank & Hlab & Hq0).
  2:{ split; [done|]. split; [|split; [|split; [|split; [|split; [|split; [|split]]]]]].
      - intros w. by rewrite unvisited_empty.
      - apply NoDup_elements.
      - intros x _. apply lookup_empty.
      - intros x [Hx%elem_of_elements%Hzero|Hx].
        + rewrite Hindeg. apply Hx.
        + rewrite lookup_empty in Hx. by destruct Hx.
      - intros x o. by rewrite lookup_empty.
      - intros k es w _ _. rewrite lookup_empty. by intros [? ?].
      - intros x. rewrite lookup_empty. by intros [? ?].
      - intros x Hx. by left. }
  pose proof (dict_mapM_spec _ _ _ Hedges) as Hsorted.
  assert (∀ k es w, edges !! k = Some es → w ∈ es → is_Some (ordering !! w)) as Htgt.
  { intros k es w Hk Hw. specialize (Hsorted k). rewrite Hk in Hsorted.
    destruct Hsorted as (es' & Hes' & _).
    destruct (py_sorted_key _ _ _ _ w Hes' Hw) as [kw [Hkw _]%rank_key_Ok].
    by eexists. }
  split; [done|]. split; [done|]. split.
  - intros x Hx. destruct (decide (inflow edges x = 0)) as [Hz|Hnz].
    + apply Hq0, elem_of_elements, Hzero. split; [|done].
      destruct vertices as [s|d|]; simpl in *; simplify_eq; done.
    + destruct (inflow_pos _ _ Hnz) as (k & es & Hk & Hw). by eapply Htgt.
  - intros k. specialize (Hsorted k). destruct (edges !! k) as [es|] eqn:Hk; [|done].
    destruct Hsorted as (es' & Hes' & Hk'). exists es'. split; [done|].
    split; [by eapply py_sorted_perm|]. intros w Hw. by eapply Htgt.
Qed.

(** ** [hash_trees] on the output of [odd] *)

Lemma hash_child_total vs cs st :
  Forall (λ c, is_Some (vs !! c)) cs → ∃ r, for_each (hash_child vs) st cs = Ok r.
Proof.
  revert st. induction cs as [|c cs IH]; intros [d ids] Hall; simpl; [by eexists|].
  apply Forall_cons in Hall as [[[[dn x] idn] Hc] Hall].
  unfold hash_child at 1. rewrite (proj2 (getitem_Ok _ _ _) Hc). simpl. by apply IH.
Qed.

Lemma hash_step_total edge labels vs hm v :
  is_Some (labels !! v) →
  Forall (λ c, is_Some (vs !! c)) (default [] (edge !! v)) →
  ∃ r, hash_step edge labels (vs, hm) v = Ok r.
Proof.
  intros [lab Hlab] Hall. unfold hash_step.
  rewrite (proj2 (getitem_Ok _ _ _) Hlab). destruct (is_leaf edge v).
  - by eexists.
  - destruct (hash_child_total vs _ (0%Z, []) Hall) as [[d ids] ->]. by eexists.
Qed.

Lemma split_unique {A} (l1 l1' l2 l2' : list A) u :
  u ∉ l1 → u ∉ l1' → l1 ++ u :: l2 = l1' ++ u :: l2' → l1 = l1'.
Proof.
  revert l1'. induction l1 as [|x l1 IH]; intros [|x' l1'] Hu Hu' Heq;
    simplify_eq/=; try done.
  - exfalso. apply Hu'. by left.
  - exfalso. apply Hu. by left.
  - f_equal. apply not_elem_of_cons in Hu as [_ Hu], Hu' as [_ Hu']. by eapply IH.
Qed.

Lemma before_prefix {A} (l l1 l2 : list A) w u :
  NoDup l → before w u l → l = l1 ++ u :: l2 → w ∈ l1.
Proof.
  intros Hnd (a & b & c & Hl) ->.
  assert (l1 = a ++ w :: b) as ->.
  { assert (a ++ w :: b ++ u :: c = (a ++ w :: b) ++ u :: c) as Hassoc
      by (by rewrite <- app_assoc).
    rewrite Hassoc in Hl.
    eapply split_unique; [..|exact Hl].
    - intros Hin. apply NoDup_app in Hnd as (_ & Hnd & _).
      apply (Hnd u Hin). by left.
    - rewrite Hl in Hnd. intros Hin. apply NoDup_app in Hnd as (_ & Hnd & _).
      apply (Hnd u Hin). by left. }
  apply elem_of_app. right. by left.
Qed.

Lemma hash_loop_total edge labels l vs hm :
  NoDup l → (∀ v, v ∈ l → vs !! v = None) →
  (∀ v, v ∈ l → is_Some (labels !! v)) →
  (∀ l1 u l2 w, l = l1 ++ u :: l2 → w ∈ default [] (edge !! u) →
     is_Some (vs !! w) ∨ w ∈ l1) →
  ∃ r, for_each (hash_step edge labels) (vs, hm) l = Ok r.
Proof.
  revert vs hm.
  induction l as [|u l IH]; intros vs hm Hnd Hfresh Hlab Hkids; cbn [for_each].
  - by eexists.
  - apply NoDup_cons in Hnd as [Hu Hnd].
    destruct (hash_step_total edge labels vs hm u) as [[vs1 hm1] Hstep].
    { apply Hlab. by left. }
    { apply Forall_forall. intros w Hw.
      destruct (Hkids [] u l w eq_refl Hw) as [?|?%elem_of_nil]; done. }
    rewrite Hstep. cbn [mbind result_bind].
    apply hash_step_spec in Hstep as (Hsub & Hdom & _); [|apply Hfresh; by left].
    apply IH; [done|..].
    + intros v Hv. apply not_elem_of_dom. rewrite Hdom.
      apply not_elem_of_union. split.
      * apply not_elem_of_dom, Hfresh. by right.
      * apply not_elem_of_singleton. by intros ->.
    + intros v Hv. apply Hlab. by right.
    + intros l1 u' l2 w -> Hw.
      destruct (Hkids (u :: l1) u' l2 w eq_refl Hw) as [[n Hn]|[->|Hin]%elem_of_cons].
      * left. exists n. by eapply lookup_weaken.
      * left. apply elem_of_dom. rewrite Hdom. set_solver.
      * by right.
Qed.



(** ** [big_dag_append] on the heap *)

Lemma read_big_Some σ r D :
  read_big σ r = Some D ↔
    σ !! r_vertices r = Some (OVertices (D_vertices D)) ∧
    σ !! r_hash_map r = Some (OHashMap (D_hash_map D)) ∧
    σ !! r_edges r = Some (OEdges (D_edges D)) ∧
    σ !! r_labels r = Some (OLabels (D_labels D)).
Proof.
  unfold read_big. destruct D as [Dv hm De Dl]. simpl.
  destruct (σ !! r_vertices r) as [[]|], (σ !! r_hash_map r) as [[]|],
    (σ !! r_edges r) as [[]|], (σ !! r_labels r) as [[]|]; naive_solver.
Qed.

(** References that denote a Big DAG are pairwise distinct. *)
Lemma read_big_distinct σ r D : read_big σ r = Some D → NoDup (locs r).
Proof.
  intros (Hv & Hh & He & Hl)%read_big_Some. unfold locs.
  repeat constructor; set_solver by congruence.
Qed.

Lemma locs_distinct r :
  NoDup (locs r) →
  r_vertices r ≠ r_hash_map r ∧ r_vertices r ≠ r_edges r ∧
  r_vertices r ≠ r_labels r ∧ r_hash_map r ≠ r_edges r ∧
  r_hash_map r ≠ r_labels r ∧ r_edges r ≠ r_labels r.
Proof.
  unfold locs. intros Hnd.
  apply NoDup_cons in Hnd as [Hv Hnd]. apply NoDup_cons in Hnd as [Hh Hnd].
  apply NoDup_cons in Hnd as [He _].
  repeat split; intros Heq; rewrite Heq in *; set_solver.
Qed.

Lemma read_write_big σ r D :
  NoDup (locs r) → read_big (write_big r D σ) r = Some D.
Proof.
  intros (? & ? & ? & ? & ? & ?)%locs_distinct.
  apply read_big_Some. unfold write_big. repeat split.
  - apply lookup_insert_eq.
  - rewrite lookup_insert_ne by done. apply lookup_insert_eq.
  - rewrite !lookup_insert_ne by done. apply lookup_insert_eq.
  - rewrite !lookup_insert_ne by done. apply lookup_insert_eq.
Qed.

Lemma write_big_lookup r D σ l :
  l ∉ locs r → write_big r D σ !! l = σ !! l.
Proof.
  unfold locs, write_big. rewrite !not_elem_of_cons. intros (? & ? & ? & ? & _).
  by rewrite !lookup_insert_ne.
Qed.

Lemma write_big_id σ r D : read_big σ r = Some D → write_big r D σ = σ.
Proof.
  intros (Hv & Hh & He & Hl)%read_big_Some. unfold write_big.
  by rewrite (insert_id _ _ _ Hl), (insert_id _ _ _ He), (insert_id _ _ _ Hh),
    (insert_id _ _ _ Hv).
Qed.

Lemma write_big_twice r D D' σ :
  NoDup (locs r) → write_big r D' (write_big r D σ) = write_big r D' σ.
Proof.
  intros Hnd. apply map_eq. intros l.
  destruct (decide (l ∈ locs r)) as [Hin|Hout].
  - pose proof (read_write_big σ r D' Hnd) as H1.
    pose proof (read_write_big (write_big r D σ) r D' Hnd) as H2.
    apply read_big_Some in H1 as (? & ? & ? & ?), H2 as (? & ? & ? & ?).
    unfold locs in Hin. rewrite !elem_of_cons in Hin.
    destruct Hin as [->|[->|[->|[->|[]%elem_of_nil]]]]; congruence.
  - by rewrite !write_big_lookup.
Qed.

Lemma write_big_dom σ r D D' :
  read_big σ r = Some D → dom (write_big r D' σ) = dom σ.
Proof.
  intros (Hv & Hh & He & Hl)%read_big_Some. unfold write_big.
  rewrite !dom_insert_L.
  apply (elem_of_dom_2 (D := gset loc)) in Hv, Hh, He, Hl. set_solver.
Qed.

Lemma write_big_vertices σ r D Dv :
  read_big σ r = Some D →
  write_big r (BigDag Dv (D_hash_map D) (D_edges D) (D_labels D)) σ =
    <[r_vertices r := OVertices Dv]> σ.
Proof.
  intros (Hv & Hh & He & Hl)%read_big_Some. unfold write_big. simpl.
  by rewrite (insert_id _ _ _ Hl), (insert_id _ _ _ He), (insert_id _ _ _ Hh).
Qed.

(** One iteration on the heap is one iteration of the pure fold, written
    back to the same four objects. *)
Lemma bda_step_st_refines mf nf dag r idx q σ D :
  read_big σ r = Some D →
  bda_step_st mf nf dag r idx q σ =
    match bda_step mf nf dag (D, idx) q with
    | Ok (D', idx') => Ok (idx', write_big r D' σ)
    | Raise e => Raise e
    | NoFuel => NoFuel
    end.
Proof.
  destruct dag as [[[[vertices vhm] vo] edges] labels]. intros HD.
  pose proof (locs_distinct r (read_big_distinct _ _ _ HD))
    as (Hvh & Hve & Hvl & Hhe & Hhl & Hel).
  pose proof HD as (Hv & Hh & He & Hl)%read_big_Some.
  unfold bda_step_st, bda_step.
  unfold mbind, heapM_bind, result_bind, lift, mret, heapM_ret.
  destruct (getitem vertices q) as [[[c0 cnt] key]| |]; [|done..].
  unfold read_hash_map at 1. rewrite Hh. cbv beta iota.
  destruct (D_hash_map D !! key) as [ns|] eqn:Hkey.
  - destruct (first_item ns) as [node| |]; [|done..].
    unfold read_vertices. rewrite Hv. cbv beta iota.
    destruct (getitem (D_vertices D) node) as [[[c f] k]| |]; [|done..].
    destruct (bump mf f cnt) as [f'| |]; [|done..].
    unfold write. by rewrite (write_big_vertices _ _ _ _ HD).
  - destruct (getitem labels q) as [lab| |]; [|done..].
    unfold read_labels, write. rewrite Hl. cbv beta iota.
    destruct (getitem edges q) as [es| |]; [|done..].
    destruct (for_each (bda_child vertices (D_hash_map D)) ([], ∅) es)
      as [[d_edges vn]| |]; [|done..].
    unfold read_edges. rewrite lookup_insert_ne, He by done. cbv beta iota.
    unfold read_vertices. rewrite !lookup_insert_ne, Hv by done.
    reflexivity.
Qed.

Lemma bda_loop_st_refines mf nf dag r l idx σ D :
  read_big σ r = Some D →
  for_each_st (bda_step_st mf nf dag r) idx l σ =
    match for_each (bda_step mf nf dag) (D, idx) l with
    | Ok (D', idx') => Ok (idx', write_big r D' σ)
    | Raise e => Raise e
    | NoFuel => NoFuel
    end.
Proof.
  intros HD. pose proof (read_big_distinct _ _ _ HD) as Hnd.
  assert (∀ σ0 D0 idx0, write_big r D0 σ = σ0 →
    for_each_st (bda_step_st mf nf dag r) idx0 l σ0 =
      match for_each (bda_step mf nf dag) (D0, idx0) l with
      | Ok (D', idx') => Ok (idx', write_big r D' σ)
      | Raise e => Raise e
      | NoFuel => NoFuel
      end) as Hgen.
  { induction l as [|q l IH]; intros σ0 D0 idx0 <-; cbn [for_each for_each_st].
    - done.
    - unfold mbind at 1, heapM_bind.
      rewrite (bda_step_st_refines _ _ _ _ _ _ _ D0) by by apply read_write_big.
      unfold mbind at 1, result_bind.
      destruct (bda_step mf nf dag (D0, idx0) q) as [[D1 idx1]| |]; [|done..].
      apply IH. symmetry. by apply write_big_twice. }
  apply Hgen. by apply write_big_id.
Qed.

Lemma bda_init_st_refines r mf σ D :
  read_big σ r = Some D →
  bda_init_st (Some r) mf σ =
    match bda_init (Some D) mf with
    | Ok (D0, idx, nf) => Ok ((r, idx, nf), write_big r D0 σ)
    | Raise e => Raise e
    | NoFuel => NoFuel
    end.
Proof.
  intros HD. pose proof HD as (Hv & Hh & He & Hl)%read_big_Some.
  unfold bda_init_st, bda_init.
  unfold mbind at 1, heapM_bind, read_vertices. rewrite Hv.
  destruct mf.
  - unfold mret, heapM_ret. by rewrite (write_big_id _ _ _ HD).
  - unfold mbind, heapM_bind, result_bind, lift, write, mret, heapM_ret.
    destruct (dict_mapM append_zero (D_vertices D)) as [Dv'| |]; [|done..].
    by rewrite (write_big_vertices _ _ _ _ HD).
Qed.

(** The fold on the heap is the pure fold, written back to the objects
    that the caller's references denote. *)
Lemma big_dag_append_st_refines dag r mf σ D :
  read_big σ r = Some D →
  big_dag_append_st dag (Some r) mf σ =
    match big_dag_append dag (Some D) mf with
    | Ok D' => Ok (r, write_big r D' σ)
    | Raise e => Raise e
    | NoFuel => NoFuel
    end.
Proof.
  intros HD. pose proof (read_big_distinct _ _ _ HD) as Hnd.
  unfold big_dag_append_st, big_dag_append.
  unfold mbind at 1, heapM_bind. rewrite (bda_init_st_refines _ _ _ _ HD).
  unfold mbind at 3, result_bind.
  destruct (bda_init (Some D) mf) as [[[D0 idx] nf]| |]; [|done..].
  unfold mbind at 1, heapM_bind.
  rewrite (bda_loop_st_refines _ _ _ _ _ _ _ D0) by by apply read_write_big.
  unfold mbind at 1, result_bind.
  destruct (for_each (bda_step mf nf dag) (D0, idx) dag.1.1.2) as [[D' idx']| |];
    [|done..].
  unfold mret, heapM_ret. by rewrite write_big_twice.
Qed.

(** ** Vector mode always changes a non-empty Big DAG *)

Lemma bump_vector_length f c f' :
  bump false f c = Ok f' →
  ∃ l l', f = Vector l ∧ f' = Vector l' ∧ length l' = length l.
Proof.
  unfold bump. destruct f as [a|l]; [done|].
  destruct (last l) as [a|] eqn:Hlast; [|done]. intros [= <-].
  exists l, (removelast l ++ [(a + c)%Z]). split; [done|]. split; [done|].
  destruct l as [|x l] using rev_ind; [done|].
  by rewrite removelast_last, !length_app.
Qed.

Lemma bda_step_vector_slot nf dag D idx q D' idx' k0 :
  0 < nf →
  bda_step false nf dag (D, idx) q = Ok (D', idx') →
  (∃ n, D_vertices D !! k0 = Some n ∧ ∃ l, n.1.2 = Vector l ∧ length l = nf) →
  (∃ n, D_vertices D' !! k0 = Some n ∧ ∃ l, n.1.2 = Vector l ∧ length l = nf).
Proof.
  destruct dag as [[[[vertices vhm] vo] edges] labels].
  intros Hnf Hstep (n & Hn & l & Hl & Hlen). unfold bda_step in Hstep.
  apply bind_Ok in Hstep as ([[c0 cnt] key] & _ & Hstep). simpl in Hstep.
  destruct (D_hash_map D !! key) as [ns|].
  - apply bind_Ok in Hstep as (node & _ & Hstep).
    apply bind_Ok in Hstep as ([[c f] k] & Hnode%getitem_Ok & Hstep).
    simpl in Hstep. apply bind_Ok in Hstep as (f' & Hbump & [= <- <-]). simpl.
    destruct (decide (node = k0)) as [->|Hne].
    + rewrite lookup_insert_eq. eexists. split; [done|]. simpl.
      apply bump_vector_length in Hbump as (l0 & l' & -> & -> & Hlen').
      exists l'. split; [done|]. simplify_eq/=. lia.
    + rewrite lookup_insert_ne by done. eauto.
  - apply bind_Ok in Hstep as (lab & _ & Hstep).
    apply bind_Ok in Hstep as (es & _ & Hstep).
    apply bind_Ok in Hstep as ([d_edges vn] & _ & [= <- <-]). simpl.
    destruct (decide (idx = k0)) as [->|Hne].
    + rewrite lookup_insert_eq. eexists. split; [done|]. simpl.
      eexists. split; [done|]. rewrite length_app, length_replicate. simpl. lia.
    + rewrite lookup_insert_ne by done. eauto.
Qed.

Lemma bda_loop_vector_slot nf dag l D idx D' idx' k0 :
  0 < nf →
  for_each (bda_step false nf dag) (D, idx) l = Ok (D', idx') →
  (∃ n, D_vertices D !! k0 = Some n ∧ ∃ l, n.1.2 = Vector l ∧ length l = nf) →
  (∃ n, D_vertices D' !! k0 = Some n ∧ ∃ l, n.1.2 = Vector l ∧ length l = nf).
Proof.
  intros Hnf. revert D idx. induction l as [|q l IH]; intros D idx; simpl.
  - by intros [= <- <-].
  - intros ([D1 idx1] & Hstep & Hrest)%bind_Ok Hslot.
    eapply IH; [done|]. by eapply bda_step_vector_slot.
Qed.

Lemma fold_vector_changes dag D D' :
  big_dag_append dag (Some D) false = Ok D' → D_vertices D ≠ ∅ → D' ≠ D.
Proof.
  unfold big_dag_append, bda_init.
  intros ([[D0 idx] nf] & Hinit & Hloop)%bind_Ok Hne. simpl in Hloop.
  apply bind_Ok in Hinit as (Dv0 & Hmap & [= <- <- <-]).
  apply bind_Ok in Hloop as ([D1 idx1] & Hloop & [= <-]).
  pose proof (dict_mapM_spec _ _ _ Hmap) as Hspec.
  destruct (dict_keys Dv0) as [|k0 ks] eqn:Hkeys.
  { exfalso. apply Hne. apply map_empty. intros k.
    specialize (Hspec k). destruct (D_vertices D !! k) as [v|] eqn:Hk; [|done].
    destruct Hspec as (w & _ & Hw).
    assert (k ∈ dict_keys Dv0) as Hin by (apply elem_of_dict_keys; by apply elem_of_dom).
    rewrite Hkeys in Hin. by apply elem_of_nil in Hin. }
  assert (k0 ∈ dom Dv0) as [w Hw]%elem_of_dom.
  { apply elem_of_dict_keys. rewrite Hkeys. by left. }
  pose proof (Hspec k0) as Hk0. destruct (D_vertices D !! k0) as [v|] eqn:Hv;
    [|congruence].
  destruct Hk0 as (w' & Happ & Hw'). simplify_eq.
  destruct v as [[c [a|l]] k]; simplify_eq/=.
  rewrite Hw in Hloop. simpl in Hloop.
  eapply bda_loop_vector_slot in Hloop as (n & Hn & l' & Hl' & Hlen).
  - intros ->. rewrite Hv in Hn. simplify_eq/=.
    rewrite length_app in Hlen. simpl in Hlen. lia.
  - rewrite length_app. simpl. lia.
  - exists (c, Vector (l ++ [0%Z]), k). split; [done|]. by eexists.
Qed.




(** ** The fuel of Kahn's loop suffices *)

Lemma bind_fuel {A B} (m : result A) (f : A → result B) :
  m ≠ NoFuel → (∀ a, m = Ok a → f a ≠ NoFuel) → m ≫= f ≠ NoFuel.
Proof.
  intros Hm Hf. destruct m as [a|e|]; unfold mbind, result_bind; [by apply Hf|done..].
Qed.

Lemma getitem_fuel `{Countable K} {V} (d : gmap K V) k : getitem d k ≠ NoFuel.
Proof. unfold getitem. by destruct (d !! k). Qed.

Lemma py_sorted_fuel {K A} le (key : A → result K) l :
  (∀ x, key x ≠ NoFuel) → py_sorted le key l ≠ NoFuel.
Proof.
  intros Hkey. unfold py_sorted. apply bind_fuel; [|done].
  induction l as [|x l IH]; simpl; [done|].
  apply bind_fuel; [done|]. intros k _. by apply bind_fuel.
Qed.

Lemma rank_key_fuel ordering labels x : rank_key ordering labels x ≠ NoFuel.
Proof.
  unfold rank_key. apply bind_fuel; [apply getitem_fuel|]. intros o _.
  apply bind_fuel; [apply getitem_fuel|]. done.
Qed.

Lemma dict_mapM_fuel {V W} (f : V → result W) d :
  (∀ x, f x ≠ NoFuel) → dict_mapM f d ≠ NoFuel.
Proof.
  intros Hf. unfold dict_mapM. induction (map_to_list d) as [|kv l IH]; simpl; [done|].
  apply bind_fuel; [done|]. intros m _. by apply bind_fuel.
Qed.

Lemma odd_loop_fuel fuel edges labels q ind ord visited :
  positive_counts ind → length q + size ind < fuel →
  odd_loop fuel edges labels q ind ord visited ≠ NoFuel.
Proof.
  revert q ind ord visited.
  induction fuel as [|fuel IH]; intros q ind ord visited Hpos Hfuel; [lia|].
  simpl. destruct q as [|x q]; [done|].
  apply bind_fuel; [apply py_sorted_fuel; intros; apply getitem_fuel|].
  intros q1 Hsort%py_sorted_perm. destruct q1 as [|e q2]; [done|].
  apply bind_fuel; [apply getitem_fuel|]. intros es _.
  destruct (fold_left odd_relax es (ind, q2)) as [ind' q3] eqn:Hrelax.
  apply odd_relax_loop in Hrelax as (Hpos' & _ & Hsize & _); [|done].
  apply IH; [done|]. apply Permutation_length in Hsort. simpl in *. lia.
Qed.

(** [odd] returns or raises: Kahn's loop never runs out of fuel. *)
Lemma odd_total {V} (vertices : vcoll V) edges labels :
  odd vertices edges labels ≠ NoFuel.
Proof.
  unfold odd. apply bind_fuel; [by destruct vertices|].
  intros [zero visited] _.
  destruct (odd_indegrees edges zero) as [ind zero'] eqn:Hind.
  apply odd_indegrees_spec in Hind as (Hpos & _ & _).
  apply bind_fuel; [apply odd_loop_fuel; [done|lia]|]. intros ordering _.
  apply bind_fuel; [|done].
  apply dict_mapM_fuel. intros l. apply py_sorted_fuel, rank_key_fuel.
Qed.

(** The edges extracted by [dag] stay inside its vertex set. *)
Lemma dag_closed v g h vs es :
  dag v g h = Ok (vs, es) →
  ∀ u l n, es !! u = Some l → n ∈ l → n ∈ vs.
Proof.
  unfold dag. intros ([levels es'] & Hlevels & [= <- <-])%bind_Ok u l n Hu Hn.
  unfold dag_levels in Hlevels. apply bind_Ok in Hlevels as (h' & _ & Hloop).
  eapply dag_loop_inv in Hloop.
  - destruct (Hloop u l n Hu Hn) as (L & Ln & _ & HLn & _). by apply elem_of_dom.
  - split; simpl.
    + intros u' L [= -> ->]%list_elem_of_singleton. apply lookup_singleton_eq.
    + intros u' l' n'. by rewrite lookup_empty.
Qed.

(** [make_dag_odd] returns or raises. *)
Lemma make_dag_odd_total v g h : make_dag_odd v g h ≠ NoFuel.
Proof.
  unfold make_dag_odd. apply bind_fuel.
  - unfold dag. apply bind_fuel; [apply dag_levels_total|]. by intros [??] _.
  - intros [vs es] _. apply odd_total.
Qed.

(** ** What the kernel sum adds up *)

Lemma kernel_term_Ok Dv C i j k v k' :
  kernel_term Dv C i j k v = Ok k' → k' = (k + node_term Dv C i j v)%Z.
Proof.
  unfold kernel_term, node_term.
  intros ([[c0 f] key] & Hv%getitem_Ok & Hrest)%bind_Ok.
  apply bind_Ok in Hrest as (a & Ha & Hrest).
  apply bind_Ok in Hrest as (b & Hb & Hrest).
  apply bind_Ok in Hrest as (c & Hc%getitem_Ok & [= <-]).
  rewrite Hv, Hc. unfold freq_item in Ha, Hb. destruct f as [n|l]; [done|].
  destruct (l !! i), (l !! j); by simplify_eq/=.
Qed.

(** A kernel entry that is computed is the sum, over all nodes of the Big
    DAG, of [freq[v][i] * freq[v][j] * C[v]], where [C[v]] is the first
    slot of the node. *)
Lemma kernel_sum_spec Dv C i j k :
  kernel_sum Dv C i j = Ok k → k = sumZ (node_term Dv C i j <$> dict_keys C).
Proof.
  unfold kernel_sum.
  assert (∀ l k0, for_each (kernel_term Dv C i j) k0 l = Ok k →
                  k = (k0 + sumZ (node_term Dv C i j <$> l))%Z) as Hgen.
  { induction l as [|v l IH]; intros k0; cbn [for_each].
    - intros [= <-]. unfold sumZ. simpl. lia.
    - intros (k1 & Hterm%kernel_term_Ok & Hrest%IH)%bind_Ok.
      rewrite fmap_cons, sumZ_cons. lia. }
  intros Hsum%Hgen. lia.
Qed.

Lemma elem_of_cross_pairs h_x h_y i j :
  (i, j) ∈ cross_pairs h_x h_y ↔ h_x ≤ i < h_x + h_y ∧ j < h_x.
Proof.
  unfold cross_pairs. rewrite list_elem_of_bind. split.
  - intros (a & Hin & Ha). apply elem_of_seq in Ha.
    apply list_elem_of_bind in Hin as (b & Hin & Hb). apply elem_of_seq in Hb.
    apply list_elem_of_singleton in Hin as [= -> ->]. lia.
  - intros Hij. exists i. split; [|apply elem_of_seq; lia].
    apply list_elem_of_bind. exists j. split; [by apply list_elem_of_singleton|].
    apply elem_of_seq. lia.
Qed.

(** In cross-comparison mode every entry of the [h_y] by [h_x] matrix is
    the kernel sum of a graph of the second collection and a graph of the
    first. *)
Lemma cross_matrix_entries Gx Gy h K :
  odd_sth_matrix Gx (Some Gy) h = Ok K →
  ∃ D, for_each (fold_graph h) None (Gx ++ Gy) = Ok (Some D) ∧
    ∀ a j, a < length Gy → j < length Gx →
      kernel_sum (D_vertices D) (weights D) (length Gx + a) j = Ok (mget K a j).
Proof.
  unfold odd_sth_matrix. intros (big2Dag & Hfold & HK)%bind_Ok.
  destruct big2Dag as [D|]; [|done]. exists D. split; [done|].
  apply bind_Ok in HK as (K0 & Hfill & [= <-]).
  intros a j Ha Hj.
  destruct (kernel_fill_entry _ _ (length Gx) (length Gy) (length Gx) _ _ _ a j
              Hfill (shape_zeros _ _)) as [([i b] & Hin & Hi & Hb & Hsum)|[Hnone _]].
  - intros [i b] Hin%elem_of_cross_pairs. simpl. lia.
  - apply elem_of_cross_pairs in Hin. simpl in *.
    by replace (length Gx + a) with i by lia; subst b.
  - exfalso. apply (Hnone (length Gx + a, j)).
    + apply elem_of_cross_pairs. lia.
    + simpl. lia.
Qed.

(** ** [dag]: what the loop computes *)

Lemma insert_alter_eq {V} (f : V → V) (m : gmap nat V) k x :
  <[k := x]> (alter f k m) = <[k := x]> m.
Proof.
  apply map_eq. intros i. destruct (decide (i = k)) as [->|Hne].
  - by rewrite !lookup_insert_eq.
  - by rewrite !lookup_insert_ne, lookup_alter_ne.
Qed.

Lemma deeper_weaken levels levels' L n :
  levels ⊆ levels' → is_Some (levels !! n) → deeper levels' L n = deeper levels L n.
Proof.
  intros Hsub [ln Hn]. unfold deeper. by rewrite Hn, (lookup_weaken _ _ _ _ Hn Hsub).
Qed.

(** The effect of visiting the neighbours [ns] of [u]. *)
Lemma dag_visits_spec u L ns q vs es l0 q2 vs2 es2 :
  vs !! u = Some L → es !! u = Some l0 →
  fold_left (dag_visit u L) ns (q, vs, es) = (q2, vs2, es2) →
  vs ⊆ vs2 ∧
  (∀ n ln, vs2 !! n = Some ln →
     vs !! n = Some ln ∨ (vs !! n = None ∧ n ∈ ns ∧ ln = (L + 1)%Z)) ∧
  (∀ n, n ∈ ns → is_Some (vs2 !! n)) ∧
  es2 = <[u := l0 ++ filter (λ n, deeper vs2 L n) ns]> es ∧
  ∃ new, q2 = q ++ new ∧ NoDup new.*1 ∧
    (∀ a, a ∈ new → a.2 = (L + 1)%Z ∧ vs !! a.1 = None ∧ a.1 ∈ ns) ∧
    (∀ n, vs !! n = None → is_Some (vs2 !! n) → (n, (L + 1)%Z) ∈ new).
Proof.
  revert q vs es l0.
  induction ns as [|n ns IH]; intros q vs es l0 Hu Hl0; cbn [fold_left].
  - intros [= <- <- <-]. split; [done|]. split; [by left|].
    split; [by intros n ?%elem_of_nil|]. split.
    + rewrite app_nil_r. by rewrite insert_id.
    + exists []. rewrite app_nil_r. split; [done|]. split; [constructor|].
      split; [by intros a ?%elem_of_nil|]. intros n Hn [ln Hln]. congruence.
  - destruct (dag_visit u L (q, vs, es) n) as [[q1 vs1] es1] eqn:Hvisit.
    unfold dag_visit in Hvisit. destruct (vs !! n) as [ln|] eqn:Hn.
    + destruct (Z.leb_spec (L + 1) ln) as [Hle|Hlt]; simplify_eq.
      * intros Hfold.
        apply (IH _ _ _ (l0 ++ [n])) in Hfold
          as (Hsub & Hrec & Hall & -> & new & -> & Hnd & Hnew & Hnew').
        2: done.
        2: by rewrite lookup_alter_eq, Hl0.
        split; [done|]. split; [|split; [|split]].
        -- intros m lm Hm. destruct (Hrec m lm Hm) as [?|(? & ? & ?)]; [by left|].
           right. split; [done|]. split; [by right|done].
        -- intros m [->|Hm]%elem_of_cons; [|by apply Hall].
           exists ln. by eapply lookup_weaken.
        -- rewrite insert_alter_eq, filter_cons_True, <- app_assoc; [done|].
           unfold deeper. rewrite (lookup_weaken _ _ _ _ Hn Hsub).
           apply Is_true_true, Z.leb_le. lia.
        -- exists new. split; [done|]. split; [done|]. split; [|done].
           intros a Ha. destruct (Hnew a Ha) as (? & ? & ?).
           split; [done|]. split; [done|]. by right.
      * intros Hfold.
        apply (IH _ _ _ l0) in Hfold
          as (Hsub & Hrec & Hall & -> & new & -> & Hnd & Hnew & Hnew'); [|done..].
        split; [done|]. split; [|split; [|split]].
        -- intros m lm Hm. destruct (Hrec m lm Hm) as [?|(? & ? & ?)]; [by left|].
           right. split; [done|]. split; [by right|done].
        -- intros m [->|Hm]%elem_of_cons; [|by apply Hall].
           exists ln. by eapply lookup_weaken.
        -- rewrite filter_cons_False; [done|].
           unfold deeper. rewrite (lookup_weaken _ _ _ _ Hn Hsub).
           intros Hd%Is_true_true%Z.leb_le. lia.
        -- exists new. split; [done|]. split; [done|]. split; [|done].
           intros a Ha. destruct (Hnew a Ha) as (? & ? & ?).
           split; [done|]. split; [done|]. by right.
    + simplify_eq. intros Hfold. assert (n ≠ u) as Hnu by congruence.
      apply (IH _ _ _ (l0 ++ [n])) in Hfold
        as (Hsub & Hrec & Hall & -> & new & -> & Hnd & Hnew & Hnew').
      2: by rewrite lookup_insert_ne.
      2: by rewrite lookup_alter_eq, Hl0.
      assert (vs2 !! n = Some (L + 1)%Z) as Hn2.
      { eapply lookup_weaken; [|done]. apply lookup_insert_eq. }
      split; [|split; [|split; [|split]]].
      * etrans; [|done]. by apply insert_subseteq.
      * intros m lm Hm. destruct (decide (m = n)) as [->|Hmn].
        -- right. split; [done|]. split; [by left|congruence].
        -- destruct (Hrec m lm Hm) as [Hold|(Hnone & ? & ?)].
           ++ left. by rewrite lookup_insert_ne in Hold.
           ++ right. rewrite lookup_insert_ne in Hnone by done.
              split; [done|]. split; [by right|done].
      * intros m [->|Hm]%elem_of_cons; [by eexists|by apply Hall].
      * rewrite insert_alter_eq, filter_cons_True, <- app_assoc; [done|].
        unfold deeper. rewrite Hn2. apply Is_true_true, Z.leb_le. lia.
      * exists ((n, (L + 1)%Z) :: new). split; [by rewrite <- app_assoc|].
        split; [|split].
        -- simpl. constructor; [|done].
           intros ([m lm] & -> & Hin)%list_elem_of_fmap.
           destruct (Hnew _ Hin) as (_ & Hnone & _). simpl in Hnone.
           by rewrite lookup_insert_eq in Hnone.
        -- intros a [->|Ha]%elem_of_cons; [by repeat split; [|left]|].
           destruct (Hnew a Ha) as (? & Hnone & ?). split; [done|].
           split; [|by right]. apply lookup_insert_None in Hnone. tauto.
        -- intros m Hm Hm2. destruct (decide (m = n)) as [->|Hmn]; [by left|].
           right. apply Hnew'; [|done]. by rewrite lookup_insert_ne.
Qed.

Lemma filter_ext_elem {A} (P Q : A → Prop) `{!∀ x, Decision (P x)}
    `{!∀ x, Decision (Q x)} (l : list A) :
  (∀ x, x ∈ l → P x ↔ Q x) → filter P l = filter Q l.
Proof.
  induction l as [|a l IH]; intros Hl; [done|].
  rewrite !filter_cons. rewrite IH by (intros; apply Hl; by right).
  destruct (decide (P a)) as [HP|HP], (decide (Q a)) as [HQ|HQ]; try done;
    exfalso; apply (Hl a) in HP || apply (Hl a) in HQ; try done; by left.
Qed.

Lemma expanded_weaken g h vs vs' es es' u L :
  vs ⊆ vs' → es' !! u = es !! u →
  expanded g h vs es u L → expanded g h vs' es' u L.
Proof.
  intros Hsub Hes (Hne & Hu & Hall). split; [done|]. split.
  - rewrite Hes, Hu. f_equal. apply filter_ext_elem.
    intros n Hn. rewrite (deeper_weaken vs vs'); [done..|].
    destruct (Hall n Hn) as (ln & -> & _). by eexists.
  - intros n (ln & Hn & Hle)%Hall. exists ln. split; [by eapply lookup_weaken|done].
Qed.

(** One iteration keeps the full invariant. *)
Lemma dag_body_full g v h u L q vs es :
  bfs_full g v h ((u, L) :: q, vs, es) → L ≠ h →
  bfs_full g v h (dag_body g u L q vs es).
Proof.
  intros (Hq & Hnd & Hsorted & Hhead & Hbound & Hroot & Hexp & Hdom & Hpar & Hexact) HLh.
  destruct (Hq u L) as [Hu Hesu]; [by left|].
  unfold dag_body. rewrite Hesu.
  destruct (fold_left (dag_visit u L) (neighbors g u) (q, vs, <[u:=[]]> es))
    as [[q2 vs2] es2] eqn:Hfold.
  apply (dag_visits_spec _ _ _ _ _ _ []) in Hfold
    as (Hsub & Hrec & Hall & -> & new & -> & Hndnew & Hnew & Hnew');
    [|done|apply lookup_insert_eq].
  rewrite insert_insert_eq. simpl app.
  apply NoDup_cons in Hnd as [Huq Hndq].
  apply StronglySorted_cons in Hsorted as [HLq Hsortedq].
  assert (∀ x Lx, vs2 !! x = Some Lx → (Lx ≤ L + 1)%Z) as Hle2.
  { intros x Lx Hx. destruct (Hrec x Lx Hx) as [Hold|(_ & _ & ->)]; [|lia].
    by apply (Hhead (u, L) x Lx). }
  assert (∀ a, a ∈ new → vs2 !! a.1 = Some a.2) as Hnew2.
  { intros a Ha. destruct (Hnew a Ha) as (HaL & Hnone & Hin).
    destruct (Hall _ Hin) as [la Hla].
    destruct (Hrec _ _ Hla) as [?|(_ & _ & ->)]; congruence. }
  assert (∀ x Lx, (x, Lx) ∈ q → x ≠ u) as Hqu.
  { intros x Lx Hin ->. apply Huq. apply list_elem_of_fmap. by exists (u, Lx). }
  unfold bfs_full. split; [|split; [|split; [|split; [|split; [|split;
    [|split; [|split; [|split]]]]]]]].
  - intros x Lx [Hin|Hin]%elem_of_app.
    + destruct (Hq x Lx) as [Hx Hex]; [by right|]. split; [by eapply lookup_weaken|].
      rewrite lookup_insert_ne; [done|]. intros <-. by eapply Hqu.
    + destruct (Hnew _ Hin) as (_ & Hnone & _). split; [by apply (Hnew2 (x, Lx))|].
      simpl in Hnone. rewrite lookup_insert_ne by congruence.
      apply eq_None_not_Some. intros Hsome%Hdom. rewrite Hnone in Hsome.
      by destruct Hsome.
  - rewrite fmap_app. apply NoDup_app. split; [done|]. split; [|done].
    intros x ([x1 Lx] & -> & Hin)%list_elem_of_fmap
           ([x2 Lx2] & Heq & Hin2)%list_elem_of_fmap. simpl in Heq. subst x2.
    destruct (Hq x1 Lx) as [Hx _]; [by right|].
    destruct (Hnew _ Hin2) as (_ & Hnone & _). simpl in Hnone. congruence.
  - apply StronglySorted_app_2; [|done|].
    + intros a b Ha Hb. destruct (Hnew b Hb) as (-> & _ & _).
      destruct a as [x Lx]. destruct (Hq x Lx) as [Hx _]; [by right|].
      simpl. by apply (Hhead (u, L) x Lx).
    + clear -Hnew. induction new as [|a new IH]; [constructor|].
      constructor.
      * apply IH. intros b Hb. apply Hnew. by right.
      * apply Forall_forall. intros b Hb.
        destruct (Hnew a) as (-> & _); [by left|].
        destruct (Hnew b) as (-> & _); [by right|]. lia.
  - intros a x Lx Ha Hx. pose proof (Hle2 x Lx Hx).
    assert (L ≤ a.2)%Z; [|lia].
    destruct q as [|b q]; simpl in Ha.
    + destruct new as [|b new]; simplify_eq/=.
      destruct (Hnew a) as (-> & _); [by left|]. lia.
    + simplify_eq. apply Forall_cons in HLq as [? _]. done.
  - intros x Lx Hx. destruct (Hrec x Lx Hx) as [Hold|(_ & _ & ->)]; [by apply (Hbound x)|].
    destruct (Hbound u L Hu). split; [lia|]. intros Hh. assert (L ≤ h)%Z by auto. lia.
  - by eapply lookup_weaken.
  - intros x Lx Hx. destruct (decide (x = u)) as [->|Hxu].
    + right. assert (Lx = L) as -> by (pose proof (lookup_weaken _ _ _ _ Hu Hsub); congruence).
      split; [done|]. split; [apply lookup_insert_eq|].
      intros n [ln Hn]%Hall. exists ln. split; [done|by eapply Hle2].
    + destruct (Hrec x Lx Hx) as [Hold|(Hnone & _ & ->)].
      * destruct (Hexp x Lx Hold) as [[[= -> ->]|Hin]%elem_of_cons|Hexpx]; [done| |].
        -- left. apply elem_of_app. by left.
        -- right. eapply expanded_weaken; [done| |done]. by rewrite lookup_insert_ne.
      * left. apply elem_of_app. right. apply Hnew'; [done|by eexists].
  - intros x [->|[_ Hx]]%lookup_insert_is_Some.
    + exists L. by eapply lookup_weaken.
    + destruct (Hdom x Hx) as [Lx HLx]. exists Lx. by eapply lookup_weaken.
  - intros n [Ln Hn]. destruct (Hrec n Ln Hn) as [Hold|(Hnone & Hin & ->)].
    + destruct (Hpar n) as [->|(p & l & Hp & Hnl)]; [by eexists|by left|].
      right. exists p, l. split; [|done].
      rewrite lookup_insert_ne; [done|]. intros <-. congruence.
    + right. exists u. eexists. split; [apply lookup_insert_eq|].
      apply list_elem_of_filter. split; [|done].
      unfold deeper. rewrite Hn. apply Is_true_true, Z.leb_le. lia.
  - intros p l n. destruct (decide (p = u)) as [->|Hpu].
    + rewrite lookup_insert_eq. intros [= <-] [Hd Hin]%list_elem_of_filter.
      exists L. split; [by eapply lookup_weaken|].
      unfold deeper in Hd. destruct (vs2 !! n) as [ln|] eqn:Hn; [|done].
      apply Is_true_true, Z.leb_le in Hd. pose proof (Hle2 n ln Hn).
      f_equal. lia.
    + rewrite lookup_insert_ne by done. intros Hp Hin.
      destruct (Hexact p l n Hp Hin) as (Lp & HLp & HLn).
      exists Lp. split; by eapply lookup_weaken.
Qed.

Lemma bfs_full_init g v h : bfs_full g v h ([(v, 0%Z)], {[v := 0%Z]}, ∅).
Proof.
  unfold bfs_full. split; [|split; [|split; [|split; [|split; [|split;
    [|split; [|split; [|split]]]]]]]].
  - intros u L [= -> ->]%list_elem_of_singleton. split; [apply lookup_singleton_eq|done].
  - simpl. apply NoDup_singleton.
  - repeat constructor.
  - intros a u L [= <-] [-> <-]%lookup_singleton_Some. simpl. lia.
  - intros u L [-> <-]%lookup_singleton_Some. split; [lia|]. lia.
  - apply lookup_singleton_eq.
  - intros u L [-> <-]%lookup_singleton_Some. left. by left.
  - intros u [l Hl]. by rewrite lookup_empty in Hl.
  - intros n [L [-> _]%lookup_singleton_Some]. by left.
  - intros u l n. by rewrite lookup_empty.
Qed.

(** When the loop stops, every recorded vertex is expanded or sits at the
    bound. *)
Lemma dag_loop_full fuel g v h st levels edges :
  h ≠ 0%Z → bfs_full g v h st →
  dag_loop fuel g h st = Ok (levels, edges) →
  bfs_done g v h levels edges.
Proof.
  intros Hh. revert st.
  induction fuel as [|fuel IH]; intros [[q vs] es] Hfull; simpl; [done|].
  destruct q as [|[u L] q].
  - intros [= <- <-].
    destruct Hfull as (Hq & Hnd & Hsorted & Hhead & Hbound & Hroot & Hexp & Hrest).
    split; [done|]. split; [done|]. split; [|done].
    intros x Lx Hx. right. by destruct (Hexp x Lx Hx) as [?%elem_of_nil|?].
  - destruct (Z.eqb_spec L h) as [->|HLh].
    + intros [= <- <-].
      destruct Hfull as (Hq & Hnd & Hsorted & Hhead & Hbound & Hroot & Hexp & Hrest).
      split; [done|]. split; [done|]. split; [|done].
      intros x Lx Hx. destruct (Hexp x Lx Hx) as [Hin|?]; [left|by right].
      destruct (Hq x Lx Hin) as [_ Hnone]. split; [|done].
      destruct (Hbound x Lx Hx) as [_ Hle].
      destruct (Hq u h) as [Hu _]; [by left|].
      destruct (Hbound u h Hu) as [? _].
      assert (h ≤ Lx)%Z; [|lia].
      apply elem_of_cons in Hin as [[= -> ->]|Hin]; [lia|].
      apply StronglySorted_cons in Hsorted as [Hall _].
      by apply (proj1 (Forall_forall _ _) Hall (x, Lx)).
    + intros Hloop. eapply IH; [|done]. by apply dag_body_full.
Qed.

Lemma dag_bound_nonzero h h' : dag_bound h = Ok h' → h' ≠ 0%Z.
Proof.
  destruct h as [h|]; simpl; [|by intros [= <-]].
  destruct (Z.leb_spec h 0); [done|]. intros [= <-]. lia.
Qed.

Lemma dag_levels_done v g h levels edges :
  dag_levels v g h = Ok (levels, edges) →
  ∃ h', dag_bound h = Ok h' ∧ bfs_done g v h' levels edges.
Proof.
  unfold dag_levels. intros (h' & Hh & Hloop)%bind_Ok. exists h'. split; [done|].
  eapply dag_loop_full; [by eapply dag_bound_nonzero|apply bfs_full_init|done].
Qed.

Lemma dag_bound_cases h h' :
  dag_bound h = Ok h' →
  (h = None ∧ h' = (-1)%Z) ∨ (h = Some h' ∧ (0 < h')%Z).
Proof.
  destruct h as [h|]; simpl; [|intros [= <-]; by left].
  destruct (Z.leb_spec h 0); [done|]. intros [= <-]. by right.
Qed.

Lemma bfs_done_walk g v h levels edges n L :
  bfs_done g v h levels edges → levels !! n = Some L →
  walk g (Z.to_nat L) v n.
Proof.
  intros (Hroot & Hbound & Hexp & Hdom & Hpar & Hexact).
  remember (Z.to_nat L) as k eqn:Hk. revert n L Hk.
  induction k as [|k IH]; intros n L Hk Hn.
  - destruct (Hbound n L Hn) as [HL _]. assert (L = 0%Z) as -> by lia.
    destruct (Hpar n) as [->|(p & l & Hp & Hnl)]; [by eexists|constructor|].
    destruct (Hexact p l n Hp Hnl) as (Lp & HLp & HLn).
    destruct (Hbound p Lp HLp). simplify_eq. lia.
  - destruct (Hpar n) as [->|(p & l & Hp & Hnl)]; [by eexists| |].
    { simplify_eq. }
    destruct (Hexact p l n Hp Hnl) as (Lp & HLp & HLn).
    assert (L = Lp + 1)%Z as -> by congruence.
    destruct (Hbound p Lp HLp) as [? _].
    apply (walk_step g k v p n).
    + apply (IH p Lp); [lia|done].
    + destruct (Hexp p Lp HLp) as [[_ Hnone]|(_ & Hes & _)]; [congruence|].
      rewrite Hp in Hes. simplify_eq. by apply list_elem_of_filter in Hnl as [_ ?].
Qed.

Lemma bfs_done_near g v h levels edges k n :
  bfs_done g v h levels edges → walk g k v n →
  ((0 ≤ h)%Z → (Z.of_nat k ≤ h)%Z) →
  ∃ L, levels !! n = Some L ∧ (L ≤ Z.of_nat k)%Z.
Proof.
  intros (Hroot & Hbound & Hexp & Hdom & Hpar & Hexact).
  induction 1 as [|k a b c _ IH Hc]; intros Hk.
  - exists 0%Z. split; [done|lia].
  - assert ((0 ≤ h)%Z → (Z.of_nat k ≤ h)%Z) as Hk' by (intros Hp; specialize (Hk Hp); lia).
    destruct (IH Hroot Hpar Hk') as (Lb & HLb & Hle).
    destruct (Hbound b Lb HLb) as [? Hh].
    destruct (Hexp b Lb HLb) as [[-> _]|(_ & _ & Hall)].
    + specialize (Hk ltac:(done)). lia.
    + destruct (Hall c Hc) as (Lc & HLc & ?). exists Lc. split; [done|lia].
Qed.

(** Once the bound is accepted, the loop terminates and [dag] returns. *)
Lemma dag_returns v g h h' :
  dag_bound h = Ok h' → ∃ vs es, dag v g h = Ok (vs, es).
Proof.
  intros Hh. pose proof (dag_levels_total v g h) as Hfuel.
  unfold dag. unfold dag_levels in *. rewrite Hh in *. cbn [mbind result_bind] in *.
  destruct (dag_loop _ _ _ _) as [[levels es]| |] eqn:Hloop; [by eauto|..|done].
  exfalso. clear Hfuel. revert Hloop.
  generalize (dag_fuel g), ([(v, 0%Z)], ({[v := 0%Z]} : gmap nat Z),
                            (∅ : gmap nat (list nat))).
  intros fuel. induction fuel as [|fuel IH]; intros [[q vs] es]; simpl; [done|].
  destruct q as [|[u L] q]; [done|]. destruct (L =? h')%Z; [done|]. apply IH.
Qed.

(** [dag] rejects exactly the explicit bounds [h <= 0], with [ValueError];
    on every other input the loop terminates and the function returns. *)
Theorem dag_outcome v g h :
  (dag v g h = Raise ValueError ↔ ∃ n, h = Some n ∧ (n ≤ 0)%Z) ∧
  ((∀ n, h = Some n → (0 < n)%Z) → ∃ vs es, dag v g h = Ok (vs, es)).
Proof.
  pose proof (dag_returns v g h) as Hok.
  split; [split|].
  - intros Hraise. destruct (dag_bound h) as [h'| |] eqn:Hh.
    + destruct (Hok h' eq_refl) as (vs & es & Hdag). congruence.
    + destruct h as [n|]; [|done]. simpl in Hh. exists n. split; [done|].
      by destruct (Z.leb_spec n 0).
    + destruct h as [n|]; [|done]. simpl in Hh. by destruct (n <=? 0)%Z.
  - intros (n & -> & Hn). unfold dag, dag_levels, dag_bound.
    by destruct (Z.leb_spec n 0); [|lia].
  - intros Hpos. destruct h as [n|]; [|by apply (Hok (-1)%Z)].
    apply (Hok n). simpl. specialize (Hpos n eq_refl).
    by destruct (Z.leb_spec n 0); [lia|].
Qed.

(** Levels recorded by [dag]: the root is at level 0, no level is negative
    or exceeds an explicit bound, and the keys of the edge dictionary are
    exactly the recorded vertices that are not at the bound. *)
Theorem dag_levels_within_bound v g h levels edges :
  dag_levels v g h = Ok (levels, edges) →
  levels !! v = Some 0%Z ∧
  (∀ u L, levels !! u = Some L →
     (0 ≤ L)%Z ∧ (∀ b, h = Some b → (L ≤ b)%Z) ∧
     (is_Some (edges !! u) ↔ h ≠ Some L)) ∧
  (∀ u, is_Some (edges !! u) → is_Some (levels !! u)).
Proof.
  intros (h' & Hh & Hroot & Hbound & Hexp & Hdom & _)%dag_levels_done.
  split; [done|]. split; [|done]. intros u L Hu.
  destruct (Hbound u L Hu) as [HL Hle]. split; [done|].
  apply dag_bound_cases in Hh as [[-> ->]|[-> Hpos]].
  - split; [done|]. split; [done|]. intros _.
    destruct (Hexp u L Hu) as [[-> _]|(_ & -> & _)]; [lia|by eexists].
  - split; [intros b [= <-]; auto|].
    destruct (Hexp u L Hu) as [[-> Hnone]|(Hne & -> & _)].
    + rewrite Hnone. split; [by intros [? ?]|done].
    + split; [congruence|by eexists].
Qed.

(** The edges [dag] keeps for a vertex that is not at the bound are its
    neighbours recorded exactly one level deeper, in adjacency order; every
    neighbour of such a vertex is recorded, at most one level deeper. *)
Theorem dag_edges_next_level v g h levels edges u L :
  dag_levels v g h = Ok (levels, edges) →
  levels !! u = Some L → h ≠ Some L →
  edges !! u = Some (filter (λ n, levels !! n = Some (L + 1)%Z) (neighbors g u)) ∧
  ∀ n, n ∈ neighbors g u → ∃ ln, levels !! n = Some ln ∧ (ln ≤ L + 1)%Z.
Proof.
  intros (h' & Hh & Hroot & Hbound & Hexp & Hdom & _)%dag_levels_done Hu HhL.
  destruct (Hexp u L Hu) as [[-> _]|(_ & Hes & Hall)].
  - apply dag_bound_cases in Hh as [[-> ->]|[-> Hpos]]; [|done].
    destruct (Hbound u _ Hu). lia.
  - split; [|done]. rewrite Hes. f_equal. apply filter_ext_elem.
    intros n (ln & Hn & Hle)%Hall. unfold deeper. rewrite Hn. split.
    + intros Hd%Is_true_true%Z.leb_le. f_equal. lia.
    + intros [= ->]. apply Is_true_true, Z.leb_le. lia.
Qed.

(** The level [dag] records for a vertex is its distance from the root:
    a walk of that many steps leads to it, and no admissible walk is
    shorter. *)
Theorem dag_levels_are_distances v g h levels edges n L :
  dag_levels v g h = Ok (levels, edges) → levels !! n = Some L →
  walk g (Z.to_nat L) v n ∧
  ∀ k, walk g k v n → within h k → (L ≤ Z.of_nat k)%Z.
Proof.
  intros (h' & Hh & Hdone)%dag_levels_done Hn. split.
  - by eapply bfs_done_walk.
  - intros k Hwalk Hk.
    destruct (bfs_done_near g v h' levels edges k n Hdone Hwalk) as (L' & HL' & ?).
    + intros Hpos. apply dag_bound_cases in Hh as [[-> ->]|[-> _]]; [lia|by apply Hk].
    + congruence.
Qed.

(** The vertex set returned by [dag] is the ball around the root: the
    vertices that a walk of at most [h] steps reaches, all reachable
    vertices when [h] is [None]. *)
Theorem dag_vertices_ball v g h vs es n :
  dag v g h = Ok (vs, es) →
  n ∈ vs ↔ ∃ k, walk g k v n ∧ within h k.
Proof.
  unfold dag. intros ([levels es'] & Hlevels & [= <- <-])%bind_Ok.
  destruct (dag_levels_done _ _ _ _ _ Hlevels) as (h' & Hh & Hdone).
  rewrite elem_of_dom. split.
  - intros [L HL]. exists (Z.to_nat L). split; [by eapply bfs_done_walk|].
    destruct Hdone as (_ & Hbound & _). destruct (Hbound n L HL) as [? Hle].
    intros b ->. simpl in Hh. destruct (Z.leb_spec b 0); [done|].
    injection Hh as <-. specialize (Hle ltac:(done)). lia.
  - intros (k & Hwalk & Hk).
    destruct (bfs_done_near g v h' levels es' k n Hdone Hwalk) as (L & HL & _);
      [|by eexists].
    intros Hpos. apply dag_bound_cases in Hh as [[-> ->]|[-> _]]; [lia|by apply Hk].
Qed.

(** The dag returned by [dag] is rooted and lies inside the graph: edge
    keys and targets are vertices of the dag, each edge is an edge of the
    graph, and every vertex but the root is reached from the root along
    dag edges. *)
Theorem dag_rooted v g h vs es :
  dag v g h = Ok (vs, es) →
  v ∈ vs ∧
  (∀ u l, es !! u = Some l → u ∈ vs ∧ ∀ n, n ∈ l → n ∈ vs ∧ n ∈ neighbors g u) ∧
  (∀ n, n ∈ vs → n = v ∨ reach es v n).
Proof.
  unfold dag. intros ([levels es'] & Hlevels & [= <- <-])%bind_Ok.
  destruct (dag_levels_done _ _ _ _ _ Hlevels)
    as (h' & Hh & Hroot & Hbound & Hexp & Hdom & Hpar & Hexact).
  split; [by apply elem_of_dom|]. split.
  - intros u l Hu. destruct (Hdom u) as [L HL]; [by eexists|].
    split; [by apply elem_of_dom|]. intros n Hn.
    destruct (Hexact u l n Hu Hn) as (L' & _ & HLn). split; [by apply elem_of_dom|].
    destruct (Hexp u L HL) as [[_ Hnone]|(_ & Hes & _)]; [congruence|].
    rewrite Hu in Hes. simplify_eq. by apply list_elem_of_filter in Hn as [_ ?].
  - intros n [L HL]%elem_of_dom. remember (Z.to_nat L) as k eqn:Hk.
    revert n L Hk HL. induction k as [|k IH]; intros n L Hk HL.
    + destruct (Hpar n) as [->|(p & l & Hp & Hnl)]; [by eexists|by left|].
      destruct (Hexact p l n Hp Hnl) as (Lp & HLp & HLn).
      destruct (Hbound p Lp HLp), (Hbound n L HL). simplify_eq. lia.
    + destruct (Hpar n) as [->|(p & l & Hp & Hnl)]; [by eexists|by left|].
      destruct (Hexact p l n Hp Hnl) as (Lp & HLp & HLn).
      destruct (Hbound p Lp HLp) as [? _]. right.
      destruct (IH p Lp) as [->|Hreach]; [simplify_eq; lia|done| |].
      * by eapply reach_edge.
      * eapply reach_trans; [done|]. by eapply reach_edge.
Qed.

Lemma dag_levels_within_bound_witness :
  ab_levels !! 0 = Some 0%Z ∧ (is_Some (ab_cut_edges !! 1) ↔ Some 1%Z ≠ Some 1%Z).
Proof.
  destruct (dag_levels_within_bound 0 two_vertices (Some 1%Z) ab_levels ab_cut_edges)
    as (Hroot & Hlev & _); [vm_compute; reflexivity|].
  split; [exact Hroot|]. apply (Hlev 1 1%Z). vm_compute; reflexivity.
Defined.

Lemma dag_edges_next_level_witness :
  ab_cut_edges !! 0 =
    Some (filter (λ n, ab_levels !! n = Some (0 + 1)%Z) (neighbors two_vertices 0)).
Proof.
  apply (dag_edges_next_level 0 two_vertices (Some 1%Z) ab_levels ab_cut_edges 0 0%Z).
  - vm_compute; reflexivity.
  - vm_compute; reflexivity.
  - discriminate.
Defined.

Lemma dag_levels_are_distances_witness : walk two_vertices (Z.to_nat 1) 0 1.
Proof.
  apply (dag_levels_are_distances 0 two_vertices (Some 1%Z) ab_levels ab_cut_edges 1 1%Z).
  - vm_compute; reflexivity.
  - vm_compute; reflexivity.
Defined.

Lemma dag_vertices_ball_witness :
  1 ∈ ({[0; 1]} : gset nat) ↔ ∃ k, walk two_vertices k 0 1 ∧ within (Some 1%Z) k.
Proof.
  apply (dag_vertices_ball 0 two_vertices (Some 1%Z) {[0; 1]} ab_cut_edges 1).
  vm_compute; reflexivity.
Defined.

Lemma dag_rooted_witness : 0 ∈ ({[0; 1]} : gset nat).
Proof.
  apply (dag_rooted 0 two_vertices None {[0; 1]} ab_edges).
  vm_compute; reflexivity.
Defined.

(** ** [odd]: the ranks *)

Lemma odd_relax_complete es ind q ind' q' w :
  fold_left odd_relax es (ind, q) = (ind', q') →
  positive_counts ind →
  0 < indeg ind w → indeg ind' w = 0 → w ∈ q'.
Proof.
  revert ind q. induction es as [|k es IH]; intros ind q; simpl.
  - intros [= <- <-] _ ? ?. lia.
  - destruct (ind !! k) as [c|] eqn:Hk.
    + destruct (Nat.eqb_spec c 1) as [->|Hc].
      * intros Hfold Hpos Hlt Hzero. destruct (decide (w = k)) as [->|Hwk].
        -- apply odd_relax_loop in Hfold as (_ & _ & _ & new & -> & _).
           ++ apply elem_of_app. left. apply elem_of_app. right. by left.
           ++ intros x c. rewrite lookup_delete_Some. intros [_ ?]. by eapply Hpos.
        -- eapply IH; [done| | |done].
           ++ intros x c. rewrite lookup_delete_Some. intros [_ ?]. by eapply Hpos.
           ++ rewrite indeg_delete. by rewrite decide_False.
      * intros Hfold Hpos Hlt Hzero. assert (0 < c) by by eapply Hpos.
        eapply IH; [done| | |done].
        -- intros x c'. rewrite lookup_insert_Some.
           intros [[<- <-]|[_ ?]]; [lia|by eapply Hpos].
        -- rewrite indeg_insert. case_decide; [lia|done].
    + intros Hfold Hpos Hlt Hzero. by eapply IH.
Qed.

Lemma kahn_inv_init edges (zero : gset nat) ind zero' labels visited :
  odd_indegrees edges zero = (ind, zero') →
  kahn_inv edges labels (elements zero') (elements zero') ind ∅ visited.
Proof.
  intros (Hpos & Hindeg & Hzero)%odd_indegrees_spec.
  split; [done|]. split; [|split; [|split; [|split; [|split; [|split; [|split]]]]]].
  - intros w. by rewrite unvisited_empty.
  - apply NoDup_elements.
  - intros x _. apply lookup_empty.
  - intros x [Hx%elem_of_elements%Hzero|Hx].
    + rewrite Hindeg. apply Hx.
    + rewrite lookup_empty in Hx. by destruct Hx.
  - intros x o. by rewrite lookup_empty.
  - intros k es w _ _. rewrite lookup_empty. by intros [? ?].
  - intros x. rewrite lookup_empty. by intros [? ?].
  - intros x Hx. by left.
Qed.

Lemma kahn_ranks_init edges (zero : gset nat) ind zero' n :
  odd_indegrees edges zero = (ind, zero') →
  kahn_ranks edges n (elements zero') (elements zero') ind ∅ n.
Proof.
  intros (Hpos & Hindeg & Hzero)%odd_indegrees_spec.
  split; [|split; [|split; [|split; [|split]]]].
  - intros x [Hx|[? Hx]]; [by left|by rewrite lookup_empty in Hx].
  - intros x o. by rewrite lookup_empty.
  - intros x y o. by rewrite lookup_empty.
  - rewrite map_size_empty. lia.
  - intros w Hw. right. right. rewrite Hindeg. lia.
  - intros x [? Hx]. by rewrite lookup_empty in Hx.
Qed.

Lemma kahn_ranks_step edges labels n q0 q ind ord visited e q2 es ind' q3 :
  kahn_inv edges labels q0 q ind ord visited →
  kahn_ranks edges n q0 q ind ord visited →
  py_sorted String.leb (getitem labels) q = Ok (e :: q2) →
  edges !! e = Some es →
  fold_left odd_relax es (ind, q2) = (ind', q3) →
  kahn_ranks edges n q0 q3 ind' (<[e := visited]> ord) (visited - 1)%Z.
Proof.
  intros (Hpos & Hind & Hnd & Hfresh & Hzero & Hvis & Hrank & Hlab & Hq0)
         (Hsrc & Hrange & Hinj & Hsize & Hlive & Hkeys) Hsort Hes Hrelax.
  pose proof (py_sorted_perm _ _ _ _ Hsort) as Hperm.
  assert (e ∈ q) as Heq by (rewrite <- Hperm; by left).
  assert (∀ x, x ∈ q2 → x ∈ q) as Hq2 by (intros x Hx; rewrite <- Hperm; by right).
  pose proof (Hfresh e Heq) as He.
  assert (∀ w, 0 < indeg ind w → indeg ind' w = 0 → w ∈ q3) as Hcomplete.
  { intros w. exact (odd_relax_complete _ _ _ _ _ w Hrelax Hpos). }
  apply odd_relax_loop in Hrelax as (Hpos' & Hind' & _ & new & -> & Hndnew & Hnew);
    [|done].
  split; [|split; [|split; [|split; [|split]]]].
  - intros x [[Hx|Hx]%elem_of_app|[<-|Hx]%lookup_insert_is_Some'].
    + apply Hsrc. left. by apply Hq2.
    + right. destruct (Hnew x Hx) as [Hlt _]. rewrite Hind in Hlt.
      intros Hz. destruct (inflow_pos (unvisited ord edges) x) as (k & esk & Hk & Hx');
        [lia|].
      apply map_lookup_filter_Some in Hk as [Hk _].
      by apply (inflow_zero _ _ Hz k esk).
    + apply Hsrc. by left.
    + apply Hsrc. by right.
  - intros x o. rewrite lookup_insert_Some. intros [[<- <-]|[_ Hx]].
    + assert (visited ≤ n)%Z; [|lia]. lia.
    + apply Hrange in Hx. lia.
  - intros x y o. rewrite !lookup_insert_Some.
    intros [[<- <-]|[? Hx]] [[<- Ho]|[? Hy]]; [done| | |by eapply Hinj].
    + apply Hrange in Hy. lia.
    + subst o. apply Hrange in Hx. lia.
  - rewrite map_size_insert_None by done. lia.
  - intros w Hw. destruct (Hlive w Hw) as [Hin|[Hsome|Hlt]].
    + rewrite <- Hperm in Hin. apply elem_of_cons in Hin as [->|Hin].
      * right. left. rewrite lookup_insert_eq. by eexists.
      * left. apply elem_of_app. by left.
    + right. left. apply lookup_insert_is_Some'. by right.
    + destruct (decide (indeg ind' w = 0)) as [Hz|Hnz].
      * left. by apply Hcomplete.
      * right. right. lia.
  - intros x [<-|Hx]%lookup_insert_is_Some'; [by eexists|by apply Hkeys].
Qed.

(** What the finished loop says about the ranks. *)
Lemma odd_loop_ranks fuel edges labels n q0 q ind ord visited ord' :
  kahn_inv edges labels q0 q ind ord visited →
  kahn_ranks edges n q0 q ind ord visited →
  odd_loop fuel edges labels q ind ord visited = Ok ord' →
  (∀ x, is_Some (ord' !! x) → x ∈ q0 ∨ inflow edges x ≠ 0) ∧
  (∀ x o, ord' !! x = Some o → (n - Z.of_nat (size ord') < o ≤ n)%Z) ∧
  (∀ x y o, ord' !! x = Some o → ord' !! y = Some o → x = y) ∧
  (∀ w, inflow edges w ≠ 0 → ord' !! w = None →
     ∃ k es, edges !! k = Some es ∧ w ∈ es ∧ ord' !! k = None) ∧
  (∀ x, is_Some (ord' !! x) → is_Some (edges !! x)).
Proof.
  revert q ind ord visited.
  induction fuel as [|fuel IH]; intros q ind ord visited Hinv Hranks; simpl; [done|].
  destruct q as [|x q].
  - intros [= <-]. destruct Hranks as (Hsrc & Hrange & Hinj & Hsize & Hlive & Hkeys).
    destruct Hinv as (_ & Hind & _).
    split; [intros; apply Hsrc; by right|]. split; [|split; [done|split; [|done]]].
    + intros y o Hy. apply Hrange in Hy. lia.
    + intros w Hw Hnone. destruct (Hlive w Hw) as [?%elem_of_nil|[[? ?]|Hlt]];
        [done|congruence|].
      rewrite Hind in Hlt.
      destruct (inflow_pos (unvisited ord edges) w) as (k & es & Hk & Hin); [lia|].
      apply map_lookup_filter_Some in Hk as [Hk Hk']. by exists k, es.
  - intros (q1 & Hsort & Hrest)%bind_Ok. destruct q1 as [|e q2]; [done|].
    apply bind_Ok in Hrest as (es & Hes%getitem_Ok & Hrest).
    destruct (fold_left odd_relax es (ind, q2)) as [ind' q3] eqn:Hrelax.
    eapply IH; [| |done]; [by eapply kahn_step|by eapply kahn_ranks_step].
Qed.

Lemma elem_of_edge_targets edges w :
  w ∈ edge_targets edges ↔ ∃ k es, edges !! k = Some es ∧ w ∈ es.
Proof.
  unfold edge_targets. rewrite elem_of_union_list. split.
  - intros (X & ([k es] & -> & Hk%elem_of_map_to_list)%list_elem_of_fmap & Hw).
    exists k, es. split; [done|]. by apply elem_of_list_to_set in Hw.
  - intros (k & es & Hk & Hw). exists (list_to_set es). split.
    + apply list_elem_of_fmap. exists (k, es). split; [done|].
      by apply elem_of_map_to_list.
    + by apply elem_of_list_to_set.
Qed.

Lemma inflow_edge_targets edges w :
  inflow edges w ≠ 0 ↔ w ∈ edge_targets edges.
Proof.
  rewrite elem_of_edge_targets. split; [apply inflow_pos|].
  intros (k & es & Hk & Hw) Hz. by apply (inflow_zero _ _ Hz k es).
Qed.

Lemma keyed_total {K A} (key : A → result K) l :
  (∀ x, x ∈ l → ∃ k, key x = Ok k) → ∃ kl, keyed key l = Ok kl.
Proof.
  induction l as [|x l IH]; intros Hkey; simpl; [by eexists|].
  destruct (Hkey x) as [k ->]; [by left|].
  destruct IH as [kl ->]; [intros; apply Hkey; by right|]. by eexists.
Qed.

Lemma py_sorted_total {K A} le (key : A → result K) l :
  (∀ x, x ∈ l → ∃ k, key x = Ok k) → ∃ l', py_sorted le key l = Ok l'.
Proof.
  intros [kl Hkl]%keyed_total. unfold py_sorted. rewrite Hkl. by eexists.
Qed.

Lemma dict_mapM_total {V W} (f : V → result W) (d : gmap nat V) :
  (∀ k v, d !! k = Some v → ∃ w, f v = Ok w) → ∃ d', dict_mapM f d = Ok d'.
Proof.
  intros Hf. unfold dict_mapM.
  assert (∀ kv, kv ∈ map_to_list d → ∃ w, f kv.2 = Ok w) as Hl.
  { intros [k v] Hkv%elem_of_map_to_list. by eapply Hf. }
  clear Hf. induction (map_to_list d) as [|kv l IH]; simpl; [by eexists|].
  destruct IH as [m ->]; [intros; apply Hl; by right|].
  destruct (Hl kv) as [w Hw]; [by left|]. cbn. rewrite Hw. by eexists.
Qed.

(** In a non-empty finite set in which every element has a predecessor,
    a transitive relation has a cycle. *)
Lemma predecessors_cycle (R : nat → nat → Prop) (U : gset nat) :
  (∀ a b c, R a b → R b c → R a c) →
  U ≠ ∅ → (∀ w, w ∈ U → ∃ k, k ∈ U ∧ R k w) → ∃ u, R u u.
Proof.
  intros Htrans. induction U as [|x U Hx IH] using set_ind_L; [done|].
  intros _ Hpar. destruct (Hpar x) as (k & Hk & Hkx); [set_solver|].
  destruct (decide (k = x)) as [->|Hne]; [by exists x|].
  assert (k ∈ U) as HkU by set_solver.
  apply IH; [set_solver|]. intros w Hw.
  destruct (Hpar w) as (p & Hp & Hpw); [set_solver|].
  destruct (decide (p = x)) as [->|Hpx].
  - exists k. split; [done|]. by eapply Htrans.
  - exists p. split; [set_solver|done].
Qed.

Lemma odd_loop_progress fuel edges labels n q0 q ind ord visited :
  (∀ x, x ∈ q0 ∨ inflow edges x ≠ 0 →
     is_Some (labels !! x) ∧ is_Some (edges !! x)) →
  kahn_inv edges labels q0 q ind ord visited →
  kahn_ranks edges n q0 q ind ord visited →
  length q + size ind < fuel →
  ∃ ord', odd_loop fuel edges labels q ind ord visited = Ok ord'.
Proof.
  intros Hready. revert q ind ord visited.
  induction fuel as [|fuel IH]; intros q ind ord visited Hinv Hranks Hfuel; [lia|].
  simpl. destruct q as [|x q]; [by eexists|].
  destruct (py_sorted_total String.leb (getitem labels) (x :: q)) as [q1 Hsort].
  { intros y Hy. destruct Hranks as (Hsrc & _).
    destruct (Hready y) as [[lb Hlb] _]; [apply Hsrc; by left|].
    exists lb. unfold getitem. by rewrite Hlb. }
  rewrite Hsort. cbn [mbind result_bind].
  pose proof (py_sorted_perm _ _ _ _ Hsort) as Hperm.
  destruct q1 as [|e q2]; [by apply Permutation_nil_cons in Hperm|].
  assert (is_Some (edges !! e)) as [es Hes].
  { destruct Hranks as (Hsrc & _). apply Hready, Hsrc. left. rewrite <- Hperm. by left. }
  unfold getitem at 1. rewrite Hes. cbn [mbind result_bind].
  destruct (fold_left odd_relax es (ind, q2)) as [ind' q3] eqn:Hrelax.
  apply (IH q3 ind').
  - by eapply kahn_step.
  - by eapply kahn_ranks_step.
  - destruct Hinv as (Hpos & _).
    apply odd_relax_loop in Hrelax as (_ & _ & Hsize & _); [|done].
    apply Permutation_length in Hperm. simpl in *. lia.
Qed.

Lemma odd_start_spec {V} (vertices : vcoll V) zero n :
  odd_start vertices = Ok (zero, n) →
  n = vcoll_size vertices ∧ ∀ x, x ∈ zero ↔ in_vcoll x vertices.
Proof.
  destruct vertices as [s|d|]; simpl; [| |done]; intros [= <- <-]; [done|].
  split; [done|]. intros x. by rewrite elem_of_dom.
Qed.

(** With an acyclic edge map, Kahn's loop ranks every edge target. *)
Lemma kahn_complete edges (ord' : gmap nat Z) (zero : gset nat) :
  acyclic edges →
  (∀ k es, edges !! k = Some es → es ≠ [] → k ∈ zero ∨ k ∈ edge_targets edges) →
  (∀ x, x ∈ zero → inflow edges x = 0 → is_Some (ord' !! x)) →
  (∀ w, inflow edges w ≠ 0 → ord' !! w = None →
     ∃ k es, edges !! k = Some es ∧ w ∈ es ∧ ord' !! k = None) →
  ∀ w, w ∈ edge_targets edges → is_Some (ord' !! w).
Proof.
  intros Hacyclic Hkeys Hzero Hparent w Hw.
  destruct (ord' !! w) as [o|] eqn:How; [by eexists|]. exfalso.
  set (U := filter (λ x, ord' !! x = None) (edge_targets edges)).
  destruct (predecessors_cycle (reach edges) U) as [u Hu].
  - intros a b c. apply reach_trans.
  - assert (w ∈ U) by (by apply elem_of_filter). set_solver.
  - intros x [Hx Hxt]%elem_of_filter.
    destruct (Hparent x) as (k & es & Hk & Hin & Hnone);
      [by apply inflow_edge_targets|done|].
    exists k. split; [|by eapply reach_edge].
    apply elem_of_filter. split; [done|].
    destruct (Hkeys k es Hk) as [Hkz|Hkt]; [by intros ->; apply elem_of_nil in Hin| |done].
    destruct (decide (k ∈ edge_targets edges)) as [?|Hnt]; [done|].
    destruct (Hzero k Hkz) as [? ?]; [|congruence].
    destruct (decide (inflow edges k = 0)) as [?|Hnz]; [done|].
    by apply inflow_edge_targets in Hnz.
  - by apply (Hacyclic u).
Qed.

(** The facts about the ranks that [odd] returns. *)
Lemma odd_ranks_spec {V} (vertices : vcoll V) edges labels t :
  odd vertices edges labels = Ok t →
  (∀ x, is_Some (t.1.2 !! x) → in_vcoll x vertices ∨ x ∈ edge_targets edges) ∧
  (∀ x o, t.1.2 !! x = Some o →
     (vcoll_size vertices - Z.of_nat (size t.1.2) < o ≤ vcoll_size vertices)%Z) ∧
  (∀ x y o, t.1.2 !! x = Some o → t.1.2 !! y = Some o → x = y) ∧
  (∀ x, is_Some (t.1.2 !! x) → is_Some (edges !! x)).
Proof.
  unfold odd. intros ([zero visited] & Hstart & Hrest)%bind_Ok. cbn -[odd_loop] in Hrest.
  destruct (odd_indegrees edges zero) as [ind zero'] eqn:Hind.
  apply bind_Ok in Hrest as (ordering & Hloop & Hrest).
  apply bind_Ok in Hrest as (edges' & Hedges & [= <-]). simpl.
  apply odd_start_spec in Hstart as [-> Hzero].
  eapply odd_loop_ranks in Hloop as (Hsrc & Hrange & Hinj & _ & Hkeys);
    [|by eapply kahn_inv_init|by eapply kahn_ranks_init].
  split; [|done].
  intros x [Hx%elem_of_elements|Hx%inflow_edge_targets]%Hsrc; [left|by right].
  apply odd_indegrees_spec in Hind as (_ & _ & Hzero').
  by apply Hzero, Hzero'.
Qed.

Lemma odd_acyclic {V} (vertices : vcoll V) edges labels t :
  odd vertices edges labels = Ok t →
  (∀ k es w, edges !! k = Some es → w ∈ es →
     ∃ ok ow, t.1.2 !! k = Some ok ∧ t.1.2 !! w = Some ow ∧ (ow < ok)%Z) ∧
  acyclic edges.
Proof.
  intros (edges' & ordering & -> & Hrank & Hlab & Hranked & Hedges)%odd_spec. simpl.
  assert (∀ k es w, edges !! k = Some es → w ∈ es →
     ∃ ok ow, ordering !! k = Some ok ∧ ordering !! w = Some ow ∧ (ow < ok)%Z) as Hdesc.
  { intros k es w Hk Hw. apply (Hrank k es w Hk Hw).
    specialize (Hedges k). rewrite Hk in Hedges.
    destruct Hedges as (es' & _ & _ & Hall). by apply Hall. }
  split; [done|].
  apply (level_monotone_acyclic (Z.opp <$> ordering)).
  intros k es w Hk Hw. destruct (Hdesc k es w Hk Hw) as (ok & ow & Hok & How & Hlt).
  exists (- ok)%Z, (- ow)%Z. rewrite !lookup_fmap, Hok, How. split; [done|].
  split; [done|lia].
Qed.

Lemma odd_sufficient {V} (vertices : vcoll V) edges labels :
  odd_ready vertices edges labels → ∃ t, odd vertices edges labels = Ok t.
Proof.
  intros (Htype & Hacyclic & Hready & Hkeys).
  assert (∃ zero n, odd_start vertices = Ok (zero, n)) as (zero & n & Hstart).
  { destruct vertices; simpl; [by eexists _, _..|done]. }
  unfold odd. rewrite Hstart. cbn -[odd_loop].
  apply odd_start_spec in Hstart as [-> Hzero].
  destruct (odd_indegrees edges zero) as [ind zero'] eqn:Hind.
  pose proof (odd_indegrees_spec _ _ _ _ Hind) as (_ & _ & Hzero').
  assert (∀ x, x ∈ elements zero' ∨ inflow edges x ≠ 0 →
               is_Some (labels !! x) ∧ is_Some (edges !! x)) as Hready'.
  { intros x [[Hx _]%elem_of_elements%Hzero'|Hx%inflow_edge_targets]; apply Hready;
      [left; by apply Hzero|by right]. }
  destruct (odd_loop_progress (S (length (elements zero') + size ind)) edges labels
              (vcoll_size vertices) (elements zero') (elements zero') ind ∅
              (vcoll_size vertices)) as [ordering Hloop];
    [done|by eapply kahn_inv_init|by eapply kahn_ranks_init|lia|].
  rewrite Hloop. cbn [mbind result_bind].
  pose proof Hloop as Hloop'.
  eapply odd_loop_inv in Hloop as (_ & _ & Hq0); [|by eapply kahn_inv_init].
  eapply odd_loop_ranks in Hloop' as (_ & _ & _ & Hparent & _);
    [|by eapply kahn_inv_init|by eapply kahn_ranks_init].
  assert (∀ w, w ∈ edge_targets edges → is_Some (ordering !! w)) as Hall.
  { apply (kahn_complete edges ordering zero); [done| | |done].
    - intros k es Hk Hne. destruct (Hkeys k es Hk Hne) as [?%Hzero|?]; auto.
    - intros x Hx Hz. apply Hq0, elem_of_elements, Hzero'. by split. }
  destruct (dict_mapM_total (py_sorted rank_le (rank_key ordering labels)) edges)
    as [edges' Hsorted].
  { intros k es Hk. apply py_sorted_total. intros w Hw.
    assert (w ∈ edge_targets edges) as Hwt by (apply elem_of_edge_targets; eauto).
    destruct (Hall w Hwt) as [o Ho]. destruct (Hready w) as [[lb Hlb] _]; [by right|].
    exists (o, lb). by apply rank_key_Ok. }
  unfold sort_edges. rewrite Hsorted. by eexists.
Qed.

Lemma odd_necessary {V} (vertices : vcoll V) edges labels t :
  odd vertices edges labels = Ok t → odd_ready vertices edges labels.
Proof.
  intros Hodd.
  destruct (odd_acyclic _ _ _ _ Hodd) as [Hdesc Hacyclic].
  destruct (odd_ranks_spec _ _ _ _ Hodd) as (Hsrc & _ & _ & Hkeys).
  destruct (odd_spec _ _ _ _ Hodd) as (edges' & ordering & -> & _ & Hlab & Hranked & _).
  simpl in *. split; [by intros ->|]. split; [done|]. split.
  - intros x Hx. assert (is_Some (ordering !! x)) as Hox.
    { destruct Hx as [Hx|(k & es & Hk & Hw)%elem_of_edge_targets]; [by apply Hranked|].
      destruct (Hdesc k es x Hk Hw) as (_ & ow & _ & -> & _). by eexists. }
    split; [by apply Hlab|by apply Hkeys].
  - intros k [|w es] Hk Hne; [done|]. apply Hsrc.
    destruct (Hdesc k (w :: es) w Hk) as (ok & _ & -> & _); [by left|]. by eexists.
Qed.

Lemma py_sorted_rank_ordered ordering labels l l' :
  py_sorted rank_le (rank_key ordering labels) l = Ok l' → rank_ordered ordering l'.
Proof.
  unfold py_sorted. intros (kl & [_ Hkeys]%keyed_Ok & [= <-])%bind_Ok.
  pose proof (rank_sorted kl) as Hsorted.
  assert (Forall (λ kx : Z * string * nat, ordering !! kx.2 = Some kx.1.1)
                 (sort_keyed rank_le kl)) as Hall.
  { rewrite sort_keyed_perm. eapply Forall_impl; [exact Hkeys|].
    by intros [k x] [? _]%rank_key_Ok. }
  unfold rank_ordered.
  induction Hsorted as [|p sl Hsl IH Hp]; simpl; [constructor|].
  apply Forall_cons in Hall as [Hpk Hall]. constructor; [by apply IH|].
  rewrite Forall_fmap. rewrite Forall_forall in Hp, Hall |- *.
  intros p' Hp'. exists p.1.1, p'.1.1. split; [done|]. split; [by apply Hall|].
  by apply Hp.
Qed.

(** [odd] returns if and only if its input is ready: the vertex collection
    is a set or a dictionary, the edge map is acyclic, every vertex of the
    collection and every edge target has a label and an edge list, and
    every non-empty edge list belongs to a vertex of the collection or to
    an edge target.  On every other input it raises. *)
Theorem odd_returns_iff {V} (vertices : vcoll V) edges labels :
  (∃ t, odd vertices edges labels = Ok t) ↔ odd_ready vertices edges labels.
Proof.
  split; [intros [t Hodd]; by eapply odd_necessary|apply odd_sufficient].
Qed.

(** The ranks returned by [odd]: the ranked vertices are the vertices of
    the collection and the edge targets; with [n] vertices in the
    collection and [m] ranked vertices the ranks are distinct numbers in
    [(n - m, n]] (so [1..n] when every edge target is in the collection);
    every edge leads to a vertex of strictly lower rank. *)
Theorem odd_ranks {V} (vertices : vcoll V) edges labels t :
  odd vertices edges labels = Ok t →
  (∀ x, is_Some (t.1.2 !! x) ↔ in_vcoll x vertices ∨ x ∈ edge_targets edges) ∧
  (∀ x o, t.1.2 !! x = Some o →
     (vcoll_size vertices - Z.of_nat (size t.1.2) < o ≤ vcoll_size vertices)%Z) ∧
  (∀ x y o, t.1.2 !! x = Some o → t.1.2 !! y = Some o → x = y) ∧
  (∀ k es w, edges !! k = Some es → w ∈ es →
     ∃ ok ow, t.1.2 !! k = Some ok ∧ t.1.2 !! w = Some ow ∧ (ow < ok)%Z) ∧
  ((∀ w, w ∈ edge_targets edges → in_vcoll w vertices) →
   ∀ x o, t.1.2 !! x = Some o → (1 ≤ o ≤ vcoll_size vertices)%Z).
Proof.
  intros Hodd.
  destruct (odd_acyclic _ _ _ _ Hodd) as [Hdesc _].
  destruct (odd_ranks_spec _ _ _ _ Hodd) as (Hsrc & Hrange & Hinj & _).
  destruct (odd_spec _ _ _ _ Hodd) as (edges' & ordering & -> & _ & _ & Hranked & _).
  simpl in *.
  assert (∀ x, is_Some (ordering !! x) ↔ in_vcoll x vertices ∨ x ∈ edge_targets edges)
    as Hdom.
  { intros x. split; [apply Hsrc|].
    intros [Hx|(k & es & Hk & Hw)%elem_of_edge_targets]; [by apply Hranked|].
    destruct (Hdesc k es x Hk Hw) as (_ & ow & _ & -> & _). by eexists. }
  split; [done|]. split; [done|]. split; [done|]. split; [done|].
  intros Hclosed x o Hx.
  assert (Z.of_nat (size ordering) = vcoll_size vertices) as Hsize.
  { destruct vertices as [s|d|]; simpl in *.
    - f_equal. rewrite <- size_dom. f_equal. apply set_eq. intros y.
      rewrite elem_of_dom, Hdom. split; [intros [?|?]; auto|by left].
    - f_equal. rewrite <- !size_dom. f_equal. apply set_eq. intros y.
      rewrite elem_of_dom, Hdom. split; [intros [?|?]; auto|by left].
    - discriminate Hodd. }
  apply Hrange in Hx. lia.
Qed.

(** [odd] hands back its vertex collection and its labels; the edge
    dictionary keeps its keys, and every edge list is a permutation of the
    given one, in non-decreasing order of rank. *)
Theorem odd_edges_sorted {V} (vertices : vcoll V) edges labels t :
  odd vertices edges labels = Ok t →
  t.1.1.1 = vertices ∧ t.2 = labels ∧
  ∀ k, match edges !! k with
       | Some es => ∃ es', t.1.1.2 !! k = Some es' ∧ es' ≡ₚ es ∧
                           rank_ordered t.1.2 es'
       | None => t.1.1.2 !! k = None
       end.
Proof.
  unfold odd. intros ([zero visited] & Hstart & Hrest)%bind_Ok. cbn -[odd_loop] in Hrest.
  destruct (odd_indegrees edges zero) as [ind zero'] eqn:Hind.
  apply bind_Ok in Hrest as (ordering & Hloop & Hrest).
  apply bind_Ok in Hrest as (edges' & Hedges & [= <-]). simpl.
  split; [done|]. split; [done|]. intros k.
  pose proof (dict_mapM_spec _ _ _ Hedges k) as Hk.
  destruct (edges !! k) as [es|]; [|done].
  destruct Hk as (es' & Hsort & Hk). exists es'. split; [done|].
  split; [by eapply py_sorted_perm|by eapply py_sorted_rank_ordered].
Qed.

Lemma odd_ranks_witness :
  ∃ ok ow, ab_tree.1.2 !! 0 = Some ok ∧ ab_tree.1.2 !! 1 = Some ow ∧ (ow < ok)%Z.
Proof.
  destruct (odd_ranks (V := bnode) (VSet {[0; 1]}) ab_edges ab_tree.2 ab_tree)
    as (_ & _ & _ & Hdesc & _); [vm_compute; reflexivity|].
  apply (Hdesc 0 [1] 1); [vm_compute; reflexivity|by left].
Defined.

Lemma odd_edges_sorted_witness :
  ∃ es', ab_tree.1.1.2 !! 0 = Some es' ∧ es' ≡ₚ [1] ∧ rank_ordered ab_tree.1.2 es'.
Proof.
  destruct (odd_edges_sorted (V := bnode) (VSet {[0; 1]}) ab_edges ab_tree.2 ab_tree)
    as (_ & _ & Hsorted); [vm_compute; reflexivity|].
  specialize (Hsorted 0).
  assert (ab_edges !! 0 = Some [1]) as Heq by (vm_compute; reflexivity).
  rewrite Heq in Hsorted. exact Hsorted.
Defined.

(** ** [make_dag_odd]: when it returns *)

(** The dag that [dag] extracts without a bound is ready for [odd] as soon
    as its vertices are labelled. *)
Lemma dag_odd_ready v g vs es labels :
  dag v g None = Ok (vs, es) →
  (∀ n, n ∈ vs ↔ ∃ k, walk g k v n) ∧
  (odd_ready (V := bnode) (VSet vs) es labels ↔
     ∀ n, n ∈ vs → is_Some (labels !! n)).
Proof.
  unfold dag. intros ([levels es'] & Hlevels & [= <- <-])%bind_Ok.
  destruct (dag_levels_done _ _ _ _ _ Hlevels) as (h' & [= <-] & Hdone).
  pose proof Hdone as (Hroot & Hbound & Hexp & Hdom & Hpar & Hexact).
  split.
  - intros n. rewrite elem_of_dom. split.
    + intros [L HL]. exists (Z.to_nat L). by eapply bfs_done_walk.
    + intros [k Hwalk].
      destruct (bfs_done_near g v (-1)%Z levels es' k n Hdone Hwalk) as (L & HL & _);
        [lia|by eexists].
  - split.
    + intros (_ & _ & Hready & _) n Hn. apply Hready. by left.
    + intros Hlab. split; [done|]. split; [|split].
      * apply (level_monotone_acyclic levels). intros u l n Hu Hn.
        destruct (Hexact u l n Hu Hn) as (L & HL & HLn).
        exists L, (L + 1)%Z. split; [done|]. split; [done|lia].
      * assert (∀ x, x ∈ dom levels → is_Some (labels !! x) ∧ is_Some (es' !! x)) as Hvs.
        { intros x Hx. split; [by apply Hlab|]. apply elem_of_dom in Hx as [L HL].
          destruct (Hexp x L HL) as [[-> _]|(_ & -> & _)]; [|by eexists].
          destruct (Hbound x _ HL). lia. }
        intros x [Hx|(k & l & Hk & Hx)%elem_of_edge_targets]; [by apply Hvs|].
        apply Hvs. destruct (Hexact k l x Hk Hx) as (L & _ & HLx). by apply elem_of_dom.
      * intros k l Hk _. left. simpl. apply elem_of_dom, Hdom. by eexists.
Qed.

(** [make_dag_odd] returns if and only if every vertex that a walk from
    the root reaches has a label; the bound [h] plays no part. *)
Theorem make_dag_odd_returns_iff v g h :
  (∃ t, make_dag_odd v g h = Ok t) ↔
  ∀ k n, walk g k v n → is_Some (get_labels g !! n).
Proof.
  unfold make_dag_odd.
  destruct (dag_returns v g None (-1)%Z eq_refl) as (vs & es & Hdag).
  rewrite Hdag. cbn [mbind result_bind].
  destruct (dag_odd_ready v g vs es (get_labels g) Hdag) as [Hvs Hready].
  split.
  - intros [t Hodd%odd_necessary] k n Hwalk.
    apply (proj1 Hready Hodd), Hvs. by exists k.
  - intros Hlab. apply odd_sufficient, Hready. intros n [k Hwalk]%Hvs. by eapply Hlab.
Qed.

(** ** [hash_trees]: order, buckets and depth-weights *)

Lemma hash_step_bucket edge labels vs hm v vs' hm' :
  hash_step edge labels (vs, hm) v = Ok (vs', hm') →
  hm' = bucket_append (id_of vs' v) v hm.
Proof.
  unfold hash_step. destruct (is_leaf edge v).
  - intros (lab & _ & [= <- <-])%bind_Ok. unfold id_of. by rewrite lookup_insert_eq.
  - intros ([d ids] & _ & Hrest)%bind_Ok. simpl in Hrest.
    apply bind_Ok in Hrest as (lab & _ & [= <- <-]).
    unfold id_of. by rewrite lookup_insert_eq.
Qed.

Lemma buckets_of_step vs hm pre x vs1 :
  buckets_of vs pre hm → vs ⊆ vs1 → (∀ y, y ∈ pre → is_Some (vs !! y)) →
  buckets_of vs1 (pre ++ [x]) (bucket_append (id_of vs1 x) x hm).
Proof.
  intros [Hb Hne] Hsub Hpre.
  assert (∀ key, filter (λ y, id_of vs1 y = key) pre = filter (λ y, id_of vs y = key) pre)
    as Hsame.
  { intros key. apply filter_ext_elem. intros y [n Hn]%Hpre. unfold id_of.
    by rewrite Hn, (lookup_weaken _ _ _ _ Hn Hsub). }
  split.
  - intros key. unfold bucket_append. rewrite filter_app, Hsame, <- Hb.
    destruct (decide (key = id_of vs1 x)) as [->|Hkey].
    + rewrite lookup_insert_eq. simpl. f_equal.
      rewrite filter_cons, decide_True by done. done.
    + rewrite lookup_insert_ne by done.
      rewrite filter_cons, decide_False by done. by rewrite filter_nil, app_nil_r.
  - intros key b. unfold bucket_append. rewrite lookup_insert_Some.
    intros [[_ <-]|[_ Hkey]]; [|by eapply Hne]. by destruct (default [] _).
Qed.

Lemma hash_loop_buckets edge labels l pre vs hm vs' hm' :
  NoDup l → (∀ v, v ∈ l → vs !! v = None) →
  (∀ y, y ∈ pre → is_Some (vs !! y)) →
  for_each (hash_step edge labels) (vs, hm) l = Ok (vs', hm') →
  buckets_of vs pre hm → buckets_of vs' (pre ++ l) hm'.
Proof.
  revert pre vs hm. induction l as [|x l IH]; intros pre vs hm Hnd Hfresh Hpre; simpl.
  - intros [= <- <-]. by rewrite app_nil_r.
  - intros ([vs1 hm1] & Hstep & Hrest)%bind_Ok Hb.
    apply NoDup_cons in Hnd as [Hx Hnd].
    pose proof (hash_step_bucket _ _ _ _ _ _ _ Hstep) as ->.
    apply hash_step_spec in Hstep as (Hsub1 & Hdom1 & _); [|apply Hfresh; by left].
    rewrite (assoc_L (++) pre [x] l : pre ++ x :: l = (pre ++ [x]) ++ l).
    eapply IH; [done| | |done|by eapply buckets_of_step].
    + intros v Hv. apply not_elem_of_dom. rewrite Hdom1.
      apply not_elem_of_union. split.
      * apply not_elem_of_dom, Hfresh. by right.
      * apply not_elem_of_singleton. by intros ->.
    + intros y [Hy|Hy%list_elem_of_singleton]%elem_of_app; apply elem_of_dom;
        rewrite Hdom1; [|set_solver].
      apply elem_of_union. left. by apply elem_of_dom, Hpre.
Qed.

Lemma hash_step_depths edge labels vs hm v vs' hm' :
  vs !! v = None → depths_ok edge vs →
  hash_step edge labels (vs, hm) v = Ok (vs', hm') → depths_ok edge vs'.
Proof.
  intros Hfresh Hd. unfold hash_step. destruct (is_leaf edge v) eqn:Hleaf.
  - intros (lab & _ & [= <- <-])%bind_Ok. intros x n.
    rewrite lookup_insert_Some. intros [[<- <-]|[_ Hx]]; [|by apply Hd].
    simpl. by rewrite Hleaf.
  - intros ([d ids] & Hloop & Hrest)%bind_Ok. simpl in Hrest.
    apply bind_Ok in Hrest as (lab & _ & [= <- <-]).
    apply hash_child_loop in Hloop as (Hall & -> & _).
    intros x n. rewrite lookup_insert_Some. intros [[<- <-]|[_ Hx]]; [|by apply Hd].
    simpl. rewrite Hleaf.
    assert (1 ≤ sumZ ((λ c, 1 + depth_of vs c)%Z <$> default [] (edge !! v)))%Z;
      [|split; [lia|split; [lia|done]]].
    unfold is_leaf in Hleaf. destruct (edge !! v) as [[|c cs]|]; [done| |done].
    cbn [default] in *.
    apply Forall_cons in Hall as [[nc Hc] Hall].
    assert (∀ l, Forall (λ c, is_Some (vs !! c)) l →
                 (0 ≤ sumZ ((λ c, 1 + depth_of vs c)%Z <$> l))%Z) as Hpos.
    { induction 1 as [|y l [ny Hy] _ IH]; [done|].
      rewrite fmap_cons, sumZ_cons. unfold depth_of at 1. rewrite Hy. simpl.
      destruct (Hd y ny Hy). lia. }
    change (id (c :: cs)) with (c :: cs). rewrite fmap_cons, sumZ_cons.
    unfold depth_of at 1. rewrite Hc. simpl. destruct (Hd c nc Hc).
    specialize (Hpos cs Hall). lia.
Qed.

Lemma hash_loop_depths edge labels l vs hm vs' hm' :
  NoDup l → (∀ v, v ∈ l → vs !! v = None) → depths_ok edge vs →
  for_each (hash_step edge labels) (vs, hm) l = Ok (vs', hm') →
  depths_ok edge vs'.
Proof.
  revert vs hm. induction l as [|x l IH]; intros vs hm Hnd Hfresh Hd; simpl.
  - by intros [= <- <-].
  - intros ([vs1 hm1] & Hstep & Hrest)%bind_Ok.
    apply NoDup_cons in Hnd as [Hx Hnd].
    pose proof (hash_step_depths _ _ _ _ _ _ _ (Hfresh x ltac:(by left)) Hd Hstep) as Hd1.
    apply hash_step_spec in Hstep as (_ & Hdom1 & _); [|apply Hfresh; by left].
    eapply IH; [done| |done|done].
    intros v Hv. apply not_elem_of_dom. rewrite Hdom1.
    apply not_elem_of_union. split.
    + apply not_elem_of_dom, Hfresh. by right.
    + apply not_elem_of_singleton. by intros ->.
Qed.

(** The order in which [hash_trees] visits the vertices and the dictionary
    it fills: [v_ordered] lists every vertex of the collection once, in
    non-decreasing order of rank, and the dictionary has exactly these
    vertices as keys. *)
Theorem hash_trees_order {V} (vertex : vcoll V) edge ordering labels
    vertices hm v_ordered :
  hash_trees (vertex, edge, ordering, labels) = Ok (vertices, hm, v_ordered) →
  NoDup v_ordered ∧ (∀ v, v ∈ v_ordered ↔ in_vcoll v vertex) ∧
  rank_ordered ordering v_ordered ∧
  dom vertices = list_to_set v_ordered.
Proof.
  unfold hash_trees. intros (l & Hl & Hrest)%bind_Ok.
  apply bind_Ok in Hrest as (vo & Hsort & Hrest).
  apply bind_Ok in Hrest as ([vs hm'] & Hloop & [= <- <- <-]).
  apply vcoll_list_spec in Hl as [Hnd Hin].
  pose proof (py_sorted_perm _ _ _ _ Hsort) as Hperm.
  split; [by rewrite Hperm|]. split; [intros v; by rewrite Hperm|].
  split; [by eapply py_sorted_rank_ordered|].
  apply hash_loop_spec in Hloop as (_ & Hdom & _); [|by rewrite Hperm|done].
  rewrite Hdom. set_solver.
Qed.


(** Depth-weights returned by [hash_trees] are never negative, and a
    vertex has depth-weight [0] exactly when it has no children. *)
Theorem hash_trees_depths {V}
    (tree : vcoll V * gmap nat (list nat) * gmap nat Z * gmap nat string)
    vertices hm v_ordered v n :
  hash_trees tree = Ok (vertices, hm, v_ordered) →
  vertices !! v = Some n →
  (0 ≤ n.1.1)%Z ∧
  (n.1.1 = 0%Z ↔ tree.1.1.2 !! v = None ∨ tree.1.1.2 !! v = Some []).
Proof.
  destruct tree as [[[vertex edge] ordering] labels].
  unfold hash_trees. intros (l & Hl & Hrest)%bind_Ok.
  apply bind_Ok in Hrest as (vo & Hsort & Hrest).
  apply bind_Ok in Hrest as ([vs hm'] & Hloop & [= <- <- <-]).
  apply vcoll_list_spec in Hl as [Hnd Hin].
  pose proof (py_sorted_perm _ _ _ _ Hsort) as Hperm.
  apply hash_loop_depths in Hloop; [|by rewrite Hperm|done|].
  - intros Hv. simpl. rewrite <- is_leaf_true. by apply Hloop.
  - intros x nx. by rewrite lookup_empty.
Qed.

Lemma hash_trees_order_witness :
  NoDup [1; 0] ∧ rank_ordered ab_tree.1.2 [1; 0] ∧
  dom ab_hashed = list_to_set [1; 0].
Proof.
  destruct (hash_trees_order (V := bnode) (VSet {[0; 1]}) ab_tree.1.1.2 ab_tree.1.2
              ab_tree.2 ab_hashed ab_buckets [1; 0])
    as (Hnd & _ & Hsorted & Hdom); [vm_compute; reflexivity|].
  split; [exact Hnd|]. split; [exact Hsorted|exact Hdom].
Defined.


Lemma hash_trees_depths_witness :
  (0 ≤ 1)%Z ∧ (1%Z = 0%Z ↔ ab_tree.1.1.2 !! 0 = None ∨ ab_tree.1.1.2 !! 0 = Some []).
Proof.
  apply (hash_trees_depths ab_tree ab_hashed ab_buckets [1; 0] 0
           (1%Z, 1%Z, "a(b)"%string)); vm_compute; reflexivity.
Defined.

(** ** [big_dag_append]: the structure of the Big DAG *)

(** The two branches of the loop body, in either mode. *)
Lemma bda_step_cases mf nf vertices vhm v_ordered edges labels D idx q D' idx' :
  bda_step mf nf (vertices, vhm, v_ordered, edges, labels) (D, idx) q = Ok (D', idx') →
  ∃ c0 cnt key, vertices !! q = Some (c0, cnt, key) ∧
    ((∃ node ns c f f' k,
        D_hash_map D !! key = Some (node :: ns) ∧
        D_vertices D !! node = Some (c, f, k) ∧
        bump mf f cnt = Ok f' ∧
        D' = BigDag (<[node := (c, f', k)]> (D_vertices D))
                    (D_hash_map D) (D_edges D) (D_labels D) ∧
        idx' = idx) ∨
     (∃ lab es d_edges vn,
        D_hash_map D !! key = None ∧
        labels !! q = Some lab ∧ edges !! q = Some es ∧
        for_each (bda_child vertices (D_hash_map D)) ([], ∅) es = Ok (d_edges, vn) ∧
        D' = BigDag (<[idx := (cnt, if mf then Scalar cnt
                                   else Vector (replicate (nf - 1) 0%Z ++ [cnt]), key)]>
                       (D_vertices D))
                    (<[key := [idx]]> (D_hash_map D))
                    (<[idx := d_edges]> (D_edges D))
                    (<[idx := lab]> (D_labels D)) ∧
        idx' = S idx)).
Proof.
  unfold bda_step.
  intros ([[c0 cnt] key] & Hq%getitem_Ok & Hstep)%bind_Ok. simpl in Hstep.
  exists c0, cnt, key. split; [done|].
  destruct (D_hash_map D !! key) as [ns|] eqn:Hkey.
  - left. apply bind_Ok in Hstep as (node & Hnode & Hstep).
    destruct ns as [|node' ns]; simplify_eq/=.
    apply bind_Ok in Hstep as ([[c f] k] & Hn%getitem_Ok & Hstep). simpl in Hstep.
    apply bind_Ok in Hstep as (f' & Hbump & [= <- <-]).
    by exists node, ns, c, f, f', k.
  - right. apply bind_Ok in Hstep as (lab & Hlab%getitem_Ok & Hstep).
    apply bind_Ok in Hstep as (es & Hes%getitem_Ok & Hstep).
    apply bind_Ok in Hstep as ([d_edges vn] & Hloop & [= <- <-]).
    by exists lab, es, d_edges, vn.
Qed.

(** The edge list collected for a new node. *)
Lemma bda_child_loop vertices hm es d vn d' vn' :
  for_each (bda_child vertices hm) (d, vn) es = Ok (d', vn') →
  NoDup d → vn = list_to_set d →
  NoDup d' ∧ vn' = list_to_set d' ∧
  ∀ w, w ∈ d' → w ∈ d ∨ ∃ key ns, hm !! key = Some (w :: ns).
Proof.
  revert d vn. induction es as [|c es IH]; intros d vn; cbn [for_each].
  - intros [= <- <-] Hnd Hvn. split; [done|]. split; [done|]. intros w Hw. by left.
  - intros ([d1 vn1] & Hc & Hrest)%bind_Ok Hnd Hvn.
    unfold bda_child in Hc.
    apply bind_Ok in Hc as ([[cc cf] ck] & _ & Hc). simpl in Hc.
    destruct (hm !! ck) as [ns|] eqn:Hck.
    + apply bind_Ok in Hc as (node & Hnode & Hc).
      destruct ns as [|node' ns]; simplify_eq/=.
      destruct (decide (node ∈ list_to_set d)) as [Hin|Hnin]; simplify_eq/=.
      * by eapply IH.
      * destruct (IH _ _ Hrest) as (Hnd' & Hvn' & Hsrc).
        -- apply NoDup_app. split; [done|]. split; [|apply NoDup_singleton].
           intros x Hx Hx'%list_elem_of_singleton. subst x.
           apply Hnin. by apply elem_of_list_to_set.
        -- rewrite list_to_set_app_L. simpl. set_solver.
        -- split; [done|]. split; [done|]. intros w Hw.
           destruct (Hsrc w Hw) as [[?|Hw'%list_elem_of_singleton]%elem_of_app|?];
             [by left| |by right].
           subst w. right. by exists ck, ns.
    + simplify_eq/=. by eapply IH.
Qed.

Lemma big_wf_empty : big_wf (BigDag ∅ ∅ ∅ ∅).
Proof.
  split; [|split; [|split; [|split; [|split]]]]; simpl.
  - intros node. rewrite lookup_empty, map_size_empty. split; [by intros [? ?]|lia].
  - by rewrite !dom_empty_L.
  - by rewrite !dom_empty_L.
  - intros key ns. by rewrite lookup_empty.
  - intros node n. by rewrite lookup_empty.
  - intros node es. by rewrite lookup_empty.
Qed.

Lemma big_keeps_refl D : big_keeps D D.
Proof. split; [|done]. intros node [[c f] k] Hn. by exists f. Qed.

Lemma big_keeps_trans D1 D2 D3 : big_keeps D1 D2 → big_keeps D2 D3 → big_keeps D1 D3.
Proof.
  intros (Hv1 & ? & ? & ?) (Hv2 & ? & ? & ?). split; [|split; [|split]]; [|by etrans..].
  intros node n Hn. destruct (Hv1 node n Hn) as [f1 Hn1].
  destruct (Hv2 _ _ Hn1) as [f2 Hn2]. by exists f2.
Qed.

(** One step of the fold keeps the Big DAG well-formed, keeps what it had
    and registers the identity of [q]. *)
Lemma bda_step_big_wf mf nf vertices vhm v_ordered edges labels D idx q D' idx' :
  big_wf D → idx = size (D_vertices D) →
  bda_step mf nf (vertices, vhm, v_ordered, edges, labels) (D, idx) q = Ok (D', idx') →
  big_wf D' ∧ idx' = size (D_vertices D') ∧ big_keeps D D' ∧
  is_Some (D_hash_map D' !! id_of vertices q).
Proof.
  intros (Hdense & Hde & Hdl & Hhm & Hreg & Hedges) -> Hstep.
  apply bda_step_cases in Hstep as (c0 & cnt & key & Hq & Hcase).
  assert (id_of vertices q = key) as Hid by (unfold id_of; by rewrite Hq).
  destruct Hcase as [(node & ns & c & f & f' & k & Hkey & Hnode & Hbump & -> & ->)
                    |(lab & es & d_edges & vn & Hkey & Hlab & Hes & Hloop & -> & ->)].
  - assert (size (<[node := (c, f', k)]> (D_vertices D)) = size (D_vertices D)) as Hsize.
    { apply map_size_insert_Some. by eexists. }
    assert (dom (<[node := (c, f', k)]> (D_vertices D)) = dom (D_vertices D)) as Hdom.
    { rewrite dom_insert_L. apply elem_of_dom_2 in Hnode. set_solver. }
    split; [|split; [done|split]].
    + split; [|split; [|split; [|split; [|split]]]]; simpl.
      * intros x. rewrite Hsize, <- Hdense, <- !elem_of_dom. by rewrite Hdom.
      * by rewrite Hdom.
      * by rewrite Hdom.
      * intros key' ns' Hk'. destruct (Hhm _ _ Hk') as (x & cx & fx & -> & Hx).
        destruct (decide (x = node)) as [->|Hne].
        -- simplify_eq. exists node, c, f'. split; [done|]. apply lookup_insert_eq.
        -- exists x, cx, fx. split; [done|]. by rewrite lookup_insert_ne.
      * intros x n. rewrite lookup_insert_Some. intros [[<- <-]|[_ Hx]]; [|by apply Hreg].
        apply (Hreg _ _ Hnode).
      * done.
    + split; [|done]. simpl. intros x n Hx. destruct (decide (x = node)) as [->|Hne].
      * simplify_eq. exists f'. apply lookup_insert_eq.
      * destruct n as [[cx fx] kx]. exists fx. by rewrite lookup_insert_ne.
    + simpl. rewrite Hid, Hkey. by eexists.
  - set (idx := size (D_vertices D)) in *.
    assert (D_vertices D !! idx = None) as Hidx.
    { apply eq_None_not_Some. intros Hsome%Hdense. lia. }
    assert (D_edges D !! idx = None) as Hidxe.
    { apply not_elem_of_dom. rewrite Hde. by apply not_elem_of_dom. }
    assert (D_labels D !! idx = None) as Hidxl.
    { apply not_elem_of_dom. rewrite Hdl. by apply not_elem_of_dom. }
    match goal with |- context [<[idx := ?n]> (D_vertices D)] => set (new := n) end.
    assert (size (<[idx := new]> (D_vertices D)) = S idx) as Hsize.
    { by rewrite map_size_insert_None. }
    apply bda_child_loop in Hloop as (Hnd & _ & Hsrc); [|constructor|done].
    split; [|split; [done|split]].
    + split; [|split; [|split; [|split; [|split]]]]; simpl.
      * intros x. rewrite Hsize, lookup_insert_is_Some', Hdense. fold idx. lia.
      * by rewrite !dom_insert_L, Hde.
      * by rewrite !dom_insert_L, Hdl.
      * intros key' ns'. rewrite lookup_insert_Some. intros [[<- <-]|[_ Hk']].
        -- exists idx. eexists _, _. split; [done|]. apply lookup_insert_eq.
        -- destruct (Hhm _ _ Hk') as (x & cx & fx & -> & Hx).
           exists x, cx, fx. split; [done|]. rewrite lookup_insert_ne; [done|].
           intros <-. congruence.
      * intros x n. rewrite lookup_insert_Some. intros [[<- <-]|[Hne Hx]].
        -- simpl. apply lookup_insert_eq.
        -- rewrite lookup_insert_ne; [by apply Hreg|].
           intros Heq. apply Hreg in Hx. congruence.
      * intros x esx. rewrite lookup_insert_Some. intros [[<- <-]|[_ Hx]]; [|by apply Hedges].
        split; [done|]. intros w Hw.
        destruct (Hsrc w Hw) as [?%elem_of_nil|(key' & ns' & Hk')]; [done|].
        destruct (Hhm _ _ Hk') as (x & cx & fx & [= -> ->] & Hx).
        apply Hdense. by eexists.
    + split; [|split; [|split]]; simpl.
      * intros x [[cx fx] kx] Hx. exists fx. rewrite lookup_insert_ne; [done|].
        intros <-. congruence.
      * by apply insert_subseteq.
      * by apply insert_subseteq.
      * by apply insert_subseteq.
    + simpl. rewrite Hid, lookup_insert_eq. by eexists.
Qed.

Lemma bda_loop_big_wf mf nf vertices vhm v_ordered edges labels l D idx D' idx' :
  big_wf D → idx = size (D_vertices D) →
  for_each (bda_step mf nf (vertices, vhm, v_ordered, edges, labels)) (D, idx) l
    = Ok (D', idx') →
  big_wf D' ∧ idx' = size (D_vertices D') ∧ big_keeps D D' ∧
  ∀ q, q ∈ l → is_Some (D_hash_map D' !! id_of vertices q).
Proof.
  revert D idx. induction l as [|q l IH]; intros D idx Hwf Hidx; cbn [for_each].
  - intros [= <- <-]. split; [done|]. split; [done|]. split; [apply big_keeps_refl|].
    by intros q ?%elem_of_nil.
  - intros ([D1 idx1] & Hstep & Hrest)%bind_Ok.
    destruct (bda_step_big_wf _ _ _ _ _ _ _ _ _ _ _ _ Hwf Hidx Hstep)
      as (Hwf1 & Hidx1 & Hkeep1 & Hreg1).
    destruct (IH _ _ Hwf1 Hidx1 Hrest) as (Hwf' & Hidx' & Hkeep' & Hreg').
    split; [done|]. split; [done|]. split; [by eapply big_keeps_trans|].
    intros x [->|Hx]%elem_of_cons; [|by apply Hreg'].
    destruct Hreg1 as [ns Hns]. exists ns.
    destruct Hkeep' as (_ & Hsub & _). by eapply lookup_weaken.
Qed.

(** What [D_vertices[v][1].append(0)] does to every node. *)
Lemma append_zero_spec (Dv Dv0 : gmap nat bnode) :
  dict_mapM append_zero Dv = Ok Dv0 →
  dom Dv0 = dom Dv ∧
  (∀ node n, Dv !! node = Some n →
     ∃ l, n.1.2 = Vector l ∧ Dv0 !! node = Some (n.1.1, Vector (l ++ [0%Z]), n.2)) ∧
  (∀ node n0, Dv0 !! node = Some n0 →
     ∃ n l, Dv !! node = Some n ∧ n.1.2 = Vector l ∧
            n0 = (n.1.1, Vector (l ++ [0%Z]), n.2)).
Proof.
  intros Hmap. pose proof (dict_mapM_spec _ _ _ Hmap) as Hspec.
  assert (∀ node n, Dv !! node = Some n →
     ∃ l, n.1.2 = Vector l ∧ Dv0 !! node = Some (n.1.1, Vector (l ++ [0%Z]), n.2)) as Hfwd.
  { intros node [[c f] k] Hn. specialize (Hspec node). rewrite Hn in Hspec.
    destruct Hspec as (w & Hw & Hnode). destruct f as [a|l]; [done|].
    injection Hw as <-. by exists l. }
  split; [|split; [done|]].
  - apply set_eq. intros node. rewrite !elem_of_dom. specialize (Hspec node).
    destruct (Dv !! node) as [n|] eqn:Hn.
    + destruct Hspec as (w & _ & ->). split; by eexists.
    + rewrite Hspec. split; by intros [? ?].
  - intros node n0 Hn0. specialize (Hspec node).
    destruct (Dv !! node) as [n|] eqn:Hn; [|congruence].
    destruct (Hfwd node n Hn) as (l & Hl & Hnode). exists n, l.
    split; [done|]. split; [done|]. congruence.
Qed.

Lemma bda_init_big_wf big_dag mf D0 idx nf :
  (∀ D, big_dag = Some D → big_wf D) →
  bda_init big_dag mf = Ok (D0, idx, nf) →
  big_wf D0 ∧ idx = size (D_vertices D0) ∧ ∀ D, big_dag = Some D → big_keeps D D0.
Proof.
  intros Hwf. destruct big_dag as [D|]; simpl.
  - specialize (Hwf D eq_refl). destruct mf.
    + intros [= <- <- <-]. split; [done|]. split; [done|].
      intros ? [= <-]. apply big_keeps_refl.
    + intros (Dv0 & Hmap & [= <- <- <-])%bind_Ok.
      apply append_zero_spec in Hmap as (Hdom & Hfwd & Hbwd).
      destruct Hwf as (Hdense & Hde & Hdl & Hhm & Hreg & Hedges).
      assert (size Dv0 = size (D_vertices D)) as Hsize by (by rewrite <- !size_dom, Hdom).
      split; [|split; [done|]].
      * split; [|split; [|split; [|split; [|split]]]]; simpl.
        -- intros node. rewrite Hsize, <- Hdense, <- !elem_of_dom. by rewrite Hdom.
        -- by rewrite Hdom.
        -- by rewrite Hdom.
        -- intros key ns Hk. destruct (Hhm _ _ Hk) as (node & c & f & -> & Hn).
           destruct (Hfwd _ _ Hn) as (l & _ & Hn0). simpl in Hn0.
           by exists node, c, (Vector (l ++ [0%Z])).
        -- intros node n0 Hn0. destruct (Hbwd _ _ Hn0) as (n & l & Hn & _ & ->).
           simpl. by apply Hreg.
        -- done.
      * intros ? [= <-]. split; [|done]. simpl. intros node n Hn.
        destruct (Hfwd _ _ Hn) as (l & _ & Hn0). by eexists.
  - intros [= <- <- <-]. split; [apply big_wf_empty|]. split; [done|]. by intros D.
Qed.

Lemma big_dag_append_facts dag big_dag mf D' :
  (∀ D, big_dag = Some D → big_wf D) →
  big_dag_append dag big_dag mf = Ok D' →
  big_wf D' ∧ (∀ D, big_dag = Some D → big_keeps D D') ∧
  ∀ q, q ∈ dag.1.1.2 → is_Some (D_hash_map D' !! id_of dag.1.1.1.1 q).
Proof.
  destruct dag as [[[[vertices vhm] v_ordered] edges] labels].
  intros Hwf. unfold big_dag_append.
  intros ([[D0 idx] nf] & Hinit & Hloop)%bind_Ok. simpl in Hloop.
  apply bind_Ok in Hloop as ([D1 idx1] & Hloop & [= <-]).
  destruct (bda_init_big_wf _ _ _ _ _ Hwf Hinit) as (Hwf0 & Hidx & Hkeep0).
  destruct (bda_loop_big_wf _ _ _ _ _ _ _ _ _ _ _ _ Hwf0 Hidx Hloop)
    as (Hwf1 & _ & Hkeep1 & Hreg).
  split; [done|]. split; [|done].
  intros D HD. eapply big_keeps_trans; [by apply Hkeep0|done].
Qed.

Lemma big_wf_acyclic D : big_wf D → acyclic (D_edges D).
Proof.
  intros (Hdense & Hde & Hdl & Hhm & Hreg & Hedges).
  apply (level_monotone_acyclic
           (map_imap (λ node _, Some (- Z.of_nat node)%Z) (D_vertices D))).
  intros node es w Hnode Hw. destruct (Hedges node es Hnode) as [_ Hlt].
  specialize (Hlt w Hw).
  assert (is_Some (D_vertices D !! node)) as [n Hn].
  { apply elem_of_dom. rewrite <- Hde. by apply elem_of_dom. }
  assert (is_Some (D_vertices D !! w)) as [nw Hnw].
  { apply Hdense. assert (node < size (D_vertices D)); [|lia]. apply Hdense. by eexists. }
  exists (- Z.of_nat node)%Z, (- Z.of_nat w)%Z.
  rewrite !map_lookup_imap, Hn, Hnw. simpl. split; [done|]. split; [done|lia].
Qed.

(** Folding a dag into nothing or into a well-formed Big DAG, in either
    mode, gives a well-formed Big DAG: node indices [0 .. n-1], an edge list
    and a label for exactly the nodes, identities and nodes in one-to-one
    correspondence through the hash map, and edge lists without duplicates
    that lead to earlier nodes; hence the edges are acyclic. *)
Theorem big_dag_append_wf dag big_dag mf D' :
  from_option big_wf True big_dag →
  big_dag_append dag big_dag mf = Ok D' →
  big_wf D' ∧ acyclic (D_edges D').
Proof.
  intros Hwf Hfold.
  destruct (big_dag_append_facts dag big_dag mf D') as (Hwf' & _);
    [by intros D ->|done|].
  split; [done|by apply big_wf_acyclic].
Qed.

(** A fold never renumbers or rewrites what the Big DAG holds: every node
    keeps its index, first slot, identity, edge list and label, every
    identity keeps its bucket; and every vertex of the folded dag finds its
    identity registered afterwards. *)
Theorem big_dag_append_keeps dag D mf D' :
  big_wf D →
  big_dag_append dag (Some D) mf = Ok D' →
  big_keeps D D' ∧
  ∀ q, q ∈ dag.1.1.2 → is_Some (D_hash_map D' !! id_of dag.1.1.1.1 q).
Proof.
  intros Hwf Hfold.
  destruct (big_dag_append_facts dag (Some D) mf D') as (_ & Hkeep & Hreg);
    [by intros ? [= <-]|done|].
  split; [by apply Hkeep|done].
Qed.

(** ** [big_dag_append]: what the frequencies count *)

Lemma sumZ_perm l l' : l ≡ₚ l' → sumZ l = sumZ l'.
Proof.
  induction 1 as [|x l l' _ IH|x y l|l l' l'' _ IH1 _ IH2];
    rewrite ?sumZ_cons; [done|lia|lia|congruence].
Qed.

Lemma total_last_delete Dv node n :
  Dv !! node = Some n →
  total_last Dv = (freq_last n.1.2 + total_last (delete node Dv))%Z.
Proof.
  intros Hn. unfold total_last.
  rewrite <- (sumZ_perm _ _ (fmap_Permutation _ _ _ (map_to_list_delete Dv node n Hn))).
  by rewrite fmap_cons, sumZ_cons.
Qed.

Lemma total_last_insert_None Dv node n :
  Dv !! node = None →
  total_last (<[node := n]> Dv) = (freq_last n.1.2 + total_last Dv)%Z.
Proof.
  intros Hn. rewrite (total_last_delete (<[node := n]> Dv) node n)
    by apply lookup_insert_eq.
  by rewrite delete_insert_id.
Qed.

Lemma total_last_insert_Some Dv node old n :
  Dv !! node = Some old →
  total_last (<[node := n]> Dv) =
    (total_last Dv - freq_last old.1.2 + freq_last n.1.2)%Z.
Proof.
  intros Hn. rewrite (total_last_delete Dv node old Hn).
  rewrite <- insert_delete_eq, total_last_insert_None by apply lookup_delete_eq. lia.
Qed.

Lemma bump_last mf f c f' :
  bump mf f c = Ok f' → freq_last f' = (freq_last f + c)%Z.
Proof.
  unfold bump. destruct mf, f as [a|l]; try done.
  - by intros [= <-].
  - destruct (last l) as [a|] eqn:Hlast; [|done]. intros [= <-]. simpl.
    by rewrite last_snoc, Hlast.
Qed.

Lemma bda_step_count mf nf vertices vhm v_ordered edges labels D idx q D' idx' :
  D_vertices D !! idx = None →
  bda_step mf nf (vertices, vhm, v_ordered, edges, labels) (D, idx) q = Ok (D', idx') →
  total_last (D_vertices D') =
    (total_last (D_vertices D) + total_count vertices [q])%Z.
Proof.
  intros Hidx Hstep.
  apply bda_step_cases in Hstep as (c0 & cnt & key & Hq & Hcase).
  assert (total_count vertices [q] = cnt) as ->.
  { unfold total_count. simpl. rewrite Hq. unfold sumZ. simpl. lia. }
  destruct Hcase as [(node & ns & c & f & f' & k & Hkey & Hnode & Hbump & -> & ->)
                    |(lab & es & d_edges & vn & Hkey & Hlab & Hes & Hloop & -> & ->)];
    simpl.
  - rewrite (total_last_insert_Some _ _ _ _ Hnode). simpl.
    rewrite (bump_last _ _ _ _ Hbump). lia.
  - rewrite total_last_insert_None by done. simpl.
    destruct mf; simpl; [lia|]. rewrite last_snoc. simpl. lia.
Qed.

Lemma total_count_cons vertices q l :
  total_count vertices (q :: l) =
    (total_count vertices [q] + total_count vertices l)%Z.
Proof. unfold total_count. rewrite !fmap_cons, !sumZ_cons. unfold sumZ. simpl. lia. Qed.

Lemma bda_loop_count mf nf vertices vhm v_ordered edges labels l D idx D' idx' :
  big_wf D → idx = size (D_vertices D) →
  for_each (bda_step mf nf (vertices, vhm, v_ordered, edges, labels)) (D, idx) l
    = Ok (D', idx') →
  total_last (D_vertices D') = (total_last (D_vertices D) + total_count vertices l)%Z.
Proof.
  revert D idx. induction l as [|q l IH]; intros D idx Hwf Hidx; cbn [for_each].
  - intros [= <- <-]. unfold total_count, sumZ. simpl. lia.
  - intros ([D1 idx1] & Hstep & Hrest)%bind_Ok.
    destruct (bda_step_big_wf _ _ _ _ _ _ _ _ _ _ _ _ Hwf Hidx Hstep)
      as (Hwf1 & Hidx1 & _).
    rewrite (IH _ _ Hwf1 Hidx1 Hrest), total_count_cons.
    assert (D_vertices D !! idx = None) as Hnone.
    { apply eq_None_not_Some. destruct Hwf as (Hdense & _). intros Hsome%Hdense. lia. }
    rewrite (bda_step_count _ _ _ _ _ _ _ _ _ _ _ _ Hnone Hstep). lia.
Qed.

(** The counts that a fold adds up: over the nodes of the new Big DAG, the
    integer frequencies (merge mode) or the last entries of the frequency
    vectors (vector mode) sum to the occurrence counts of the vertices of
    the folded dag, plus, in merge mode, the sum held before. *)
Theorem big_dag_append_counts dag big_dag mf D' :
  from_option big_wf True big_dag →
  big_dag_append dag big_dag mf = Ok D' →
  total_last (D_vertices D') =
    ((match big_dag with
      | Some D => if mf then total_last (D_vertices D) else 0
      | None => 0
      end) + total_count dag.1.1.1.1 dag.1.1.2)%Z.
Proof.
  destruct dag as [[[[vertices vhm] v_ordered] edges] labels].
  intros Hwf'. assert (∀ D, big_dag = Some D → big_wf D) as Hwf by (by intros D ->).
  clear Hwf'. unfold big_dag_append.
  intros ([[D0 idx] nf] & Hinit & Hloop)%bind_Ok. simpl in Hloop.
  apply bind_Ok in Hloop as ([D1 idx1] & Hloop & [= <-]).
  destruct (bda_init_big_wf _ _ _ _ _ Hwf Hinit) as (Hwf0 & Hidx & _).
  rewrite (bda_loop_count _ _ _ _ _ _ _ _ _ _ _ _ Hwf0 Hidx Hloop). simpl. f_equal.
  destruct big_dag as [D|]; simpl in Hinit.
  - destruct mf.
    + by injection Hinit as <- <- <-.
    + apply bind_Ok in Hinit as (Dv0 & Hmap & [= <- <- <-]). simpl.
      apply append_zero_spec in Hmap as (_ & _ & Hbwd).
      unfold total_last.
      assert (Forall (λ kv : nat * bnode, freq_last kv.2.1.2 = 0%Z) (map_to_list Dv0))
        as Hall.
      { apply Forall_forall. intros [node n0] Hn0%elem_of_map_to_list.
        destruct (Hbwd _ _ Hn0) as (n & l & _ & _ & ->). simpl. by rewrite last_snoc. }
      induction Hall as [|kv l Hkv _ IH]; [done|].
      rewrite fmap_cons, sumZ_cons. lia.
  - by injection Hinit as <- <- <-.
Qed.

(** ** [big_dag_append]: the frequency vectors *)

Lemma bda_step_vectors nf vertices vhm v_ordered edges labels D idx q D' idx' :
  0 < nf → vectors_of nf (D_vertices D) →
  bda_step false nf (vertices, vhm, v_ordered, edges, labels) (D, idx) q = Ok (D', idx') →
  vectors_of nf (D_vertices D').
Proof.
  intros Hnf Hvec Hstep.
  apply bda_step_cases in Hstep as (c0 & cnt & key & Hq & Hcase).
  destruct Hcase as [(node & ns & c & f & f' & k & Hkey & Hnode & Hbump & -> & ->)
                    |(lab & es & d_edges & vn & Hkey & Hlab & Hes & Hloop & -> & ->)];
    simpl; intros x n; rewrite lookup_insert_Some; (intros [[<- <-]|[_ Hx]];
      [|by eapply Hvec]); simpl.
  - apply bump_vector_length in Hbump as (l & l' & -> & -> & Hlen).
    destruct (Hvec _ _ Hnode) as (l0 & [= <-] & Hl0). exists l'. split; [done|lia].
  - eexists. split; [done|]. rewrite length_app, length_replicate. simpl. lia.
Qed.

Lemma bda_loop_vectors nf vertices vhm v_ordered edges labels l D idx D' idx' :
  0 < nf → vectors_of nf (D_vertices D) →
  for_each (bda_step false nf (vertices, vhm, v_ordered, edges, labels)) (D, idx) l
    = Ok (D', idx') →
  vectors_of nf (D_vertices D').
Proof.
  intros Hnf. revert D idx. induction l as [|q l IH]; intros D idx Hvec; cbn [for_each].
  - by intros [= <- <-].
  - intros ([D1 idx1] & Hstep & Hrest)%bind_Ok.
    eapply IH; [|done]. by eapply bda_step_vectors.
Qed.

Lemma bda_init_vectors big_dag k D0 idx nf :
  match big_dag with
  | None => k = 0
  | Some D => vectors_of k (D_vertices D) ∧ (D_vertices D = ∅ → k = 0)
  end →
  bda_init big_dag false = Ok (D0, idx, nf) →
  nf = S k ∧ vectors_of (S k) (D_vertices D0).
Proof.
  intros Hk Hinit. destruct big_dag as [D|]; simpl in Hinit.
  - destruct Hk as [Hvec Hempty].
    apply bind_Ok in Hinit as (Dv0 & Hmap & [= <- <- <-]). simpl.
    apply append_zero_spec in Hmap as (Hdom & Hfwd & Hbwd).
    assert (vectors_of (S k) Dv0) as Hvec0.
    { intros node n0 Hn0. destruct (Hbwd _ _ Hn0) as (n & l & Hn & Hl & ->).
      destruct (Hvec _ _ Hn) as (l' & Hl' & Hlen). exists (l ++ [0%Z]).
      split; [done|]. rewrite length_app. simpl.
      assert (l = l') as -> by congruence. lia. }
    split; [|done].
    destruct (dict_keys Dv0) as [|v ks] eqn:Hkeys.
    + rewrite Hempty; [done|]. apply dom_empty_iff_L. rewrite <- Hdom.
      apply set_eq. intros x. rewrite <- elem_of_dict_keys, Hkeys. set_solver.
    + assert (v ∈ dom Dv0) as [n0 Hn0]%elem_of_dom.
      { apply elem_of_dict_keys. rewrite Hkeys. by left. }
      rewrite Hn0. simpl. destruct (Hvec0 _ _ Hn0) as (l & Hl & Hlen).
      destruct n0 as [[c f] key]. simpl in *. by subst f.
  - injection Hinit as <- <- <-. subst k. split; [done|].
    intros node n. simpl. by rewrite lookup_empty.
Qed.

(** In vector mode every fold adds one slot: folding into nothing gives
    vectors of length 1, and folding into a non-empty Big DAG whose vectors
    all have length [k] gives vectors of length [k+1], for old and new
    nodes alike. *)
Theorem big_dag_append_vectors dag big_dag k D' :
  match big_dag with
  | None => k = 0
  | Some D => vectors_of k (D_vertices D) ∧ (D_vertices D = ∅ → k = 0)
  end →
  big_dag_append dag big_dag false = Ok D' →
  vectors_of (S k) (D_vertices D').
Proof.
  destruct dag as [[[[vertices vhm] v_ordered] edges] labels].
  intros Hk. unfold big_dag_append.
  intros ([[D0 idx] nf] & Hinit & Hloop)%bind_Ok. simpl in Hloop.
  apply bind_Ok in Hloop as ([D1 idx1] & Hloop & [= <-]).
  destruct (bda_init_vectors _ _ _ _ _ Hk Hinit) as [-> Hvec0].
  eapply bda_loop_vectors; [|done|done]. lia.
Qed.

Lemma ab_big_wf : big_wf ab_big.
Proof.
  apply (big_dag_append_facts ab_dag None true ab_big); [done|].
  vm_compute. reflexivity.
Qed.

Lemma big_dag_append_wf_witness :
  big_wf (BigDag (double_freq <$> D_vertices ab_big) (D_hash_map ab_big)
                 (D_edges ab_big) (D_labels ab_big)).
Proof.
  apply (big_dag_append_wf ab_dag (Some ab_big) true).
  - exact ab_big_wf.
  - vm_compute. reflexivity.
Defined.

Lemma big_dag_append_keeps_witness :
  big_keeps ab_big (BigDag (double_freq <$> D_vertices ab_big) (D_hash_map ab_big)
                           (D_edges ab_big) (D_labels ab_big)).
Proof.
  apply (big_dag_append_keeps ab_dag ab_big true).
  - exact ab_big_wf.
  - vm_compute. reflexivity.
Defined.

Lemma big_dag_append_counts_witness :
  total_last (double_freq <$> D_vertices ab_big) =
    (total_last (D_vertices ab_big) + total_count ab_hashed [1%nat; 0%nat])%Z.
Proof.
  assert (big_dag_append ab_dag (Some ab_big) true =
            Ok (BigDag (double_freq <$> D_vertices ab_big) (D_hash_map ab_big)
                       (D_edges ab_big) (D_labels ab_big))) as Hfold.
  { vm_compute. reflexivity. }
  exact (big_dag_append_counts ab_dag (Some ab_big) true _ ab_big_wf Hfold).
Defined.

Lemma big_dag_append_vectors_witness :
  ∃ D', big_dag_append ab_dag None false = Ok D' ∧ vectors_of 1 (D_vertices D').
Proof.
  eexists. split; [vm_compute; reflexivity|].
  apply (big_dag_append_vectors ab_dag None 0); [reflexivity|].
  vm_compute. reflexivity.
Defined.

(** ** The kernel matrix: shape, entries, edge cases *)

Lemma shape_madd r c A B : shape r c A → shape r c B → shape r c (madd A B).
Proof.
  intros [HlenA HrowsA] [HlenB HrowsB]. unfold madd. split.
  - rewrite length_zip_with. lia.
  - apply Forall_lookup. intros i row. rewrite lookup_zip_with_Some.
    intros (a & b & -> & Ha & Hb). rewrite length_zip_with.
    rewrite (Forall_lookup_1 _ _ _ _ HrowsA Ha), (Forall_lookup_1 _ _ _ _ HrowsB Hb). lia.
Qed.

(** The matrix returned by [odd_sth_matrix] has one row per graph of the
    second collection (of the first, in self-comparison mode) and one
    column per graph of the first collection. *)
Theorem odd_sth_matrix_shape Gx Gy h K :
  odd_sth_matrix Gx Gy h = Ok K →
  shape (from_option length (length Gx) Gy) (length Gx) K.
Proof.
  unfold odd_sth_matrix. destruct Gy as [Gy|]; simpl.
  - intros (big2Dag & _ & HK)%bind_Ok. destruct big2Dag as [D|]; [|done].
    apply bind_Ok in HK as (K0 & Hfill & [= <-]).
    eapply kernel_fill_shape; [done|apply shape_zeros].
  - intros (big2Dag & _ & HK)%bind_Ok. destruct big2Dag as [D|]; [|done].
    apply bind_Ok in HK as (K0 & Hfill & [= <-]).
    assert (shape (length Gx) (length Gx) K0) as HK0.
    { eapply kernel_fill_shape; [done|apply shape_zeros]. }
    apply shape_madd; [by apply shape_triu|by apply shape_transpose, shape_triu].
Qed.



(** Empty input is not handled: a graph without vertices makes
    [make_big_dag] subscript [None], and so does an empty collection of
    graphs in [odd_sth_matrix]; both raise [TypeError], and the matrix
    function passes the error of the first graph on. *)
Theorem empty_input_type_error g Gx Gy h :
  (get_vertices g = [] → make_big_dag g h = Raise TypeError) ∧
  odd_sth_matrix [] None h = Raise TypeError ∧
  odd_sth_matrix [] (Some []) h = Raise TypeError ∧
  (get_vertices g = [] → odd_sth_matrix (g :: Gx) Gy h = Raise TypeError).
Proof.
  assert (get_vertices g = [] → make_big_dag g h = Raise TypeError) as Hbig.
  { intros Hg. unfold make_big_dag. by rewrite Hg. }
  split; [done|]. split; [done|]. split; [done|]. intros Hg.
  assert (fold_graph h None g = Raise TypeError) as Hfold.
  { unfold fold_graph. by rewrite (Hbig Hg). }
  unfold odd_sth_matrix. destruct Gy as [Gy|]; cbn [for_each app]; by rewrite Hfold.
Qed.

Lemma odd_sth_matrix_shape_witness : shape 1 1 [[1%Z]].
Proof.
  apply (odd_sth_matrix_shape [one_vertex] (Some [one_vertex]) None).
  vm_compute. reflexivity.
Defined.


(** ** Complete runs: [big_dag_append] *)

Lemma for_each_Ok_inv {A S} (body : S → A → result S) s l s' x :
  for_each body s l = Ok s' → x ∈ l → ∃ s1 s2, body s1 x = Ok s2.
Proof.
  revert s. induction l as [|y l IH]; intros s; cbn [for_each].
  - by intros _ ?%elem_of_nil.
  - intros (s1 & Hy & Hrest)%bind_Ok [->|Hx]%elem_of_cons; [by exists s, s1|].
    by eapply IH.
Qed.

Lemma bda_child_Ok vertices hm st c :
  is_Some (vertices !! c) →
  (∀ key ns, hm !! key = Some ns → ns ≠ []) →
  ∃ r, bda_child vertices hm st c = Ok r.
Proof.
  intros [[[cc cf] ck] Hc] Hhm. destruct st as [d vn].
  unfold bda_child, getitem. rewrite Hc. cbn [mbind result_bind].
  destruct (hm !! ck) as [ns|] eqn:Hck; [|by eexists].
  destruct ns as [|node ns]; [by destruct (Hhm _ _ Hck)|]. cbn.
  case_decide; by eexists.
Qed.

Lemma bda_child_total vertices hm es st :
  (∀ c, c ∈ es → is_Some (vertices !! c)) →
  (∀ key ns, hm !! key = Some ns → ns ≠ []) →
  ∃ r, for_each (bda_child vertices hm) st es = Ok r.
Proof.
  intros Hes Hhm. revert st. induction es as [|c es IH]; intros st; cbn [for_each].
  - by eexists.
  - destruct (bda_child_Ok vertices hm st c) as [st1 Hc]; [apply Hes; by left|done|].
    rewrite Hc. cbn [mbind result_bind]. apply IH. intros; apply Hes; by right.
Qed.

Lemma bda_step_total mf nf vertices vhm v_ordered edges labels D idx q :
  big_wf D → freq_ok mf nf (D_vertices D) →
  is_Some (vertices !! q) → is_Some (labels !! q) →
  (∃ es, edges !! q = Some es ∧ ∀ c, c ∈ es → is_Some (vertices !! c)) →
  ∃ r, bda_step mf nf (vertices, vhm, v_ordered, edges, labels) (D, idx) q = Ok r.
Proof.
  intros (Hdense & Hde & Hdl & Hhm & Hreg & Hedges) Hfreq
         [[[c0 cnt] key] Hq] [lab Hlab] (es & Hes & Hkids).
  unfold bda_step, getitem. rewrite Hq. cbn [mbind result_bind].
  destruct (D_hash_map D !! key) as [ns|] eqn:Hkey.
  - destruct (Hhm _ _ Hkey) as (node & c & f & -> & Hnode). cbn. rewrite Hnode. cbn.
    assert (∃ f', bump mf f cnt = Ok f') as [f' ->]; [|by eexists].
    unfold freq_ok in Hfreq. destruct mf; simpl.
    + destruct (Hfreq _ _ Hnode) as [a Ha]. simpl in Ha. subst f. by eexists.
    + destruct Hfreq as [Hnf Hvec]. destruct (Hvec _ _ Hnode) as (l & Hl & Hlen).
      simpl in Hl. subst f. destruct l as [|x l] using rev_ind; [simpl in Hlen; lia|].
      rewrite last_snoc. by eexists.
  - rewrite Hlab, Hes. cbn [mbind result_bind].
    destruct (bda_child_total vertices (D_hash_map D) es ([], ∅)) as [[d vn] Hloop];
      [done| |].
    + intros k ns Hk. by destruct (Hhm _ _ Hk) as (? & ? & ? & -> & _).
    + rewrite Hloop. by eexists.
Qed.

Lemma bda_step_freq_ok mf nf vertices vhm v_ordered edges labels D idx q D' idx' :
  freq_ok mf nf (D_vertices D) →
  bda_step mf nf (vertices, vhm, v_ordered, edges, labels) (D, idx) q = Ok (D', idx') →
  freq_ok mf nf (D_vertices D').
Proof.
  unfold freq_ok. destruct mf.
  - intros Hsc Hstep.
    apply bda_step_cases in Hstep as (c0 & cnt & key & Hq & Hcase).
    destruct Hcase as [(node & ns & c & f & f' & k & Hkey & Hnode & Hbump & -> & ->)
                      |(lab & es & d_edges & vn & Hkey & Hlab & Hes & Hloop & -> & ->)];
      simpl; intros x n; rewrite lookup_insert_Some; (intros [[<- <-]|[_ Hx]];
        [|by eapply Hsc]); simpl; [|by eexists].
    destruct f as [a|l]; [|done]. injection Hbump as <-. by eexists.
  - intros [Hnf Hvec] Hstep. split; [done|]. by eapply bda_step_vectors.
Qed.

Lemma bda_loop_total mf nf vertices vhm v_ordered edges labels l D idx :
  big_wf D → idx = size (D_vertices D) → freq_ok mf nf (D_vertices D) →
  (∀ q, q ∈ l →
     is_Some (vertices !! q) ∧ is_Some (labels !! q) ∧
     ∃ es, edges !! q = Some es ∧ ∀ c, c ∈ es → is_Some (vertices !! c)) →
  ∃ D' idx',
    for_each (bda_step mf nf (vertices, vhm, v_ordered, edges, labels)) (D, idx) l
      = Ok (D', idx') ∧
    freq_ok mf nf (D_vertices D').
Proof.
  revert D idx. induction l as [|q l IH]; intros D idx Hwf Hidx Hfreq Hready;
    cbn [for_each].
  - by exists D, idx.
  - destruct (Hready q) as (Hq & Hlab & Hes); [by left|].
    destruct (bda_step_total mf nf vertices vhm v_ordered edges labels D idx q)
      as [[D1 idx1] Hstep]; [done..|].
    rewrite Hstep. cbn [mbind result_bind].
    destruct (bda_step_big_wf _ _ _ _ _ _ _ _ _ _ _ _ Hwf Hidx Hstep)
      as (Hwf1 & Hidx1 & _).
    apply IH; [done|done|by eapply bda_step_freq_ok|].
    intros; apply Hready; by right.
Qed.

Lemma bda_init_vector_total D k :
  vectors_of k (D_vertices D) → ∃ r, bda_init (Some D) false = Ok r.
Proof.
  intros Hvec. simpl.
  destruct (dict_mapM_total append_zero (D_vertices D)) as [Dv0 ->]; [|by eexists].
  intros node [[c f] key] Hn. destruct (Hvec _ _ Hn) as (l & Hl & _).
  simpl in Hl. subst f. by eexists.
Qed.

(** A fold in merge mode of a ready dag runs to completion. *)
Lemma big_dag_append_merge_total dag big_dag :
  from_option (λ D, big_wf D ∧ freq_ok true 0 (D_vertices D)) True big_dag →
  dag_ready dag →
  ∃ D', big_dag_append dag big_dag true = Ok D' ∧
        big_wf D' ∧ freq_ok true 0 (D_vertices D').
Proof.
  destruct dag as [[[[vertices vhm] v_ordered] edges] labels].
  intros Hpre Hready. unfold big_dag_append.
  assert (∃ D0 idx, bda_init big_dag true = Ok (D0, idx, 1) ∧ big_wf D0 ∧
            idx = size (D_vertices D0) ∧ freq_ok true 1 (D_vertices D0))
    as (D0 & idx & -> & Hwf0 & Hidx & Hfreq0).
  { destruct big_dag as [D|]; simpl in *.
    - exists D, (size (D_vertices D)). by destruct Hpre.
    - exists (BigDag ∅ ∅ ∅ ∅), 0. split; [done|]. split; [apply big_wf_empty|].
      split; [done|]. intros node n. simpl. by rewrite lookup_empty. }
  cbn [mbind result_bind fst snd].
  destruct (bda_loop_total true 1 vertices vhm v_ordered edges labels v_ordered D0 idx)
    as (D' & idx' & Hloop & Hfreq'); [done..|].
  rewrite Hloop. cbn. exists D'. split; [done|]. split; [|done].
  by destruct (bda_loop_big_wf _ _ _ _ _ _ _ _ _ _ _ _ Hwf0 Hidx Hloop).
Qed.

(** A fold in vector mode of a ready dag runs to completion. *)
Lemma big_dag_append_vector_total dag big_dag k :
  match big_dag with
  | None => k = 0
  | Some D => big_wf D ∧ vectors_of k (D_vertices D) ∧ (D_vertices D = ∅ → k = 0)
  end →
  dag_ready dag →
  ∃ D', big_dag_append dag big_dag false = Ok D' ∧
        big_wf D' ∧ vectors_of (S k) (D_vertices D').
Proof.
  destruct dag as [[[[vertices vhm] v_ordered] edges] labels].
  intros Hpre Hready. unfold big_dag_append.
  assert (∃ r, bda_init big_dag false = Ok r) as [[[D0 idx] nf] Hinit].
  { destruct big_dag as [D|]; [|by eexists].
    destruct Hpre as (_ & Hvec & _). by eapply bda_init_vector_total. }
  rewrite Hinit. cbn [mbind result_bind fst snd].
  destruct (bda_init_big_wf big_dag false D0 idx nf) as (Hwf0 & Hidx & _); [|done|].
  { intros D ->. by destruct Hpre. }
  destruct (bda_init_vectors big_dag k D0 idx nf) as [-> Hvec0]; [|done|].
  { destruct big_dag as [D|]; [|done]. by destruct Hpre as (_ & ? & ?). }
  destruct (bda_loop_total false (S k) vertices vhm v_ordered edges labels v_ordered
              D0 idx) as (D' & idx' & Hloop & Hfreq'); [done|done| |done|].
  { split; [lia|done]. }
  rewrite Hloop. cbn. exists D'. split; [done|]. split; [|by destruct Hfreq'].
  by destruct (bda_loop_big_wf _ _ _ _ _ _ _ _ _ _ _ _ Hwf0 Hidx Hloop).
Qed.

Lemma big_dag_append_nonempty dag big_dag mf D' :
  from_option big_wf True big_dag →
  big_dag_append dag big_dag mf = Ok D' →
  dag.1.1.2 ≠ [] → D_vertices D' ≠ ∅.
Proof.
  intros Hwf Hfold Hne.
  destruct (big_dag_append_facts dag big_dag mf D') as (Hwf' & _ & Hreg);
    [by intros D ->|done|].
  destruct (dag.1.1.2) as [|q l]; [done|].
  destruct (Hreg q) as [ns Hns]; [by left|].
  destruct Hwf' as (_ & _ & _ & Hhm & _).
  destruct (Hhm _ _ Hns) as (node & c & f & _ & Hnode).
  intros Hempty. by rewrite Hempty, lookup_empty in Hnode.
Qed.

(** ** Complete runs: from [make_dag_odd] to [make_big_dag] *)

(** [hash_trees] runs to completion on what [odd] returns for a closed
    edge map. *)
Lemma odd_then_hash {V} (vertices : vcoll V) edges labels t :
  odd vertices edges labels = Ok t →
  (∀ u es w, edges !! u = Some es → w ∈ es → in_vcoll w vertices) →
  ∃ hashed hm v_ordered, hash_trees t = Ok (hashed, hm, v_ordered).
Proof.
  intros Hodd Hclosed.
  destruct (odd_spec _ _ _ _ Hodd) as
    (edges' & ordering & -> & Hrank & Hlab & Hranked & Hedges).
  assert (∃ l, vcoll_list vertices = Ok l) as [l Hl].
  { destruct vertices; simpl; [by eexists..|]. by discriminate Hodd. }
  destruct (vcoll_list_spec _ _ Hl) as [Hnd Hin].
  destruct (py_sorted_total rank_le (rank_key ordering labels) l) as [v_ordered Hsort].
  { intros x Hx%Hin. destruct (Hranked x Hx) as [o Ho].
    destruct (Hlab x) as [lb Hlb]; [by eexists|]. exists (o, lb). by apply rank_key_Ok. }
  pose proof (py_sorted_perm _ _ _ _ Hsort) as Hperm.
  assert (∀ u es w, in_vcoll u vertices → edges' !! u = Some es → w ∈ es →
                    before w u v_ordered) as Hbefore.
  { intros u es' w Hu Hes' Hw. specialize (Hedges u).
    destruct (edges !! u) as [es|] eqn:Hes; [|congruence].
    destruct Hedges as (es'' & Hes'' & Hp & Htgt). simplify_eq.
    rewrite Hp in Hw.
    destruct (Hrank u es w Hes Hw (Htgt w Hw)) as (ou & ow & Hou & How & Hlt).
    eapply rank_sorted_before; [done|apply Hin..|done|done|done].
    - by eapply Hclosed.
    - done. }
  assert (∃ r, for_each (hash_step edges' labels) (∅, ∅) v_ordered = Ok r)
    as [[hashed hm] Hloop].
  { apply hash_loop_total.
    - by rewrite Hperm.
    - intros v _. apply lookup_empty.
    - intros v Hv. apply Hlab, Hranked, Hin. by rewrite <- Hperm.
    - intros l1 u l2 w Hsplit Hw. right.
      destruct (edges' !! u) as [es|] eqn:Hes; [|by apply elem_of_nil in Hw].
      eapply before_prefix; [|eapply (Hbefore u es w); [|done..]|done].
      + by rewrite Hperm.
      + apply Hin. rewrite <- Hperm, Hsplit. apply elem_of_app. right. by left. }
  exists hashed, hm, v_ordered.
  unfold hash_trees. rewrite Hl. simpl. rewrite Hsort. simpl. by rewrite Hloop.
Qed.

Lemma hash_trees_facts {V} (vertex : vcoll V) edge ordering labels
    vertices hm v_ordered :
  hash_trees (vertex, edge, ordering, labels) = Ok (vertices, hm, v_ordered) →
  NoDup v_ordered ∧ (∀ v, v ∈ v_ordered ↔ in_vcoll v vertex) ∧
  (∀ v, is_Some (vertices !! v) ↔ v ∈ v_ordered) ∧
  (∀ v n, vertices !! v = Some n → n.1.2 = 1%Z).
Proof.
  unfold hash_trees. intros (l & Hl & Hrest)%bind_Ok.
  apply bind_Ok in Hrest as (vo & Hsort & Hrest).
  apply bind_Ok in Hrest as ([vs hm'] & Hloop & [= <- <- <-]).
  apply vcoll_list_spec in Hl as [Hnd Hin].
  pose proof (py_sorted_perm _ _ _ _ Hsort) as Hperm.
  apply hash_loop_spec in Hloop as (_ & Hdom & Hok); [|by rewrite Hperm|done].
  assert (∀ v, is_Some (vs !! v) ↔ v ∈ vo) as Hkeys.
  { intros v. rewrite <- elem_of_dom, Hdom. set_solver. }
  split; [by rewrite Hperm|]. split; [intros v; by rewrite Hperm|]. split; [done|].
  intros v n Hv. destruct (Hok v) as (lab & _ & Hnode); [apply Hkeys; by eexists|].
  destruct (is_leaf edge v); [|destruct Hnode as [_ Hnode]]; by simplify_eq.
Qed.

(** One root of [make_big_dag]: on a labelled graph the dag is extracted,
    ordered and hashed, and the result is ready to be folded. *)
Lemma make_dag_odd_hashed v g h :
  (∀ k n, walk g k v n → is_Some (get_labels g !! n)) →
  ∃ dag_odd vertices hm v_ordered,
    make_dag_odd v g h = Ok dag_odd ∧
    hash_trees dag_odd = Ok (vertices, hm, v_ordered) ∧
    dag_ready (vertices, hm, v_ordered, dag_odd.1.1.2, dag_odd.2) ∧
    v_ordered ≠ [] ∧
    (∀ q n, vertices !! q = Some n → n.1.2 = 1%Z).
Proof.
  intros Hlab. unfold make_dag_odd.
  destruct (dag_returns v g None (-1)%Z eq_refl) as (vs & es & Hdag).
  rewrite Hdag. cbn [mbind result_bind].
  destruct (dag_odd_ready v g vs es (get_labels g) Hdag) as [Hvs Hready].
  assert (odd_ready (V := bnode) (VSet vs) es (get_labels g)) as Hodd_ready.
  { apply Hready. intros n [k Hwalk]%Hvs. by eapply Hlab. }
  destruct (odd_sufficient _ _ _ Hodd_ready) as [t Hodd].
  pose proof (dag_closed _ _ _ _ _ Hdag) as Hclosed.
  destruct (odd_then_hash _ _ _ _ Hodd) as (vertices & hm & v_ordered & Hhash).
  { intros u l w Hu Hw. simpl. by eapply Hclosed. }
  exists t, vertices, hm, v_ordered. split; [done|]. split; [done|].
  destruct (odd_spec _ _ _ _ Hodd) as (edges' & ordering & -> & _ & _ & _ & Hedges).
  destruct (hash_trees_facts _ _ _ _ _ _ _ Hhash) as (_ & Hin & Hkeys & Hcount).
  destruct Hodd_ready as (_ & _ & Hentries & _).
  split; [|split; [|done]].
  - simpl. intros q Hq. pose proof (proj1 (Hin q) Hq) as Hqvs. simpl in Hqvs.
    destruct (Hentries q) as [Hlabq [esq Hesq]]; [by left|].
    split; [by apply Hkeys|]. split; [done|].
    specialize (Hedges q). rewrite Hesq in Hedges.
    destruct Hedges as (es' & Hes' & Hperm & _). exists es'. split; [done|].
    intros c Hc. apply Hkeys, Hin. simpl. rewrite Hperm in Hc. by eapply Hclosed.
  - assert (v ∈ v_ordered) as Hv; [|by intros ->; apply elem_of_nil in Hv].
    apply Hin. simpl. apply Hvs. exists 0. constructor.
Qed.

Lemma make_dag_odd_labelled v g h t :
  make_dag_odd v g h = Ok t →
  ∀ k n, walk g k v n → is_Some (get_labels g !! n).
Proof.
  unfold make_dag_odd. intros ([vs es] & Hdag & Hodd%odd_necessary)%bind_Ok k n Hwalk.
  destruct (dag_odd_ready v g vs es (get_labels g) Hdag) as [Hvs Hready].
  apply (proj1 Hready Hodd), Hvs. by exists k.
Qed.

Lemma bda_loop_first_slot mf nf vertices vhm v_ordered edges labels l D idx D' idx' c1 :
  (∀ q n, vertices !! q = Some n → n.1.2 = c1) →
  (∀ node n, D_vertices D !! node = Some n → n.1.1 = c1) →
  for_each (bda_step mf nf (vertices, vhm, v_ordered, edges, labels)) (D, idx) l
    = Ok (D', idx') →
  ∀ node n, D_vertices D' !! node = Some n → n.1.1 = c1.
Proof.
  intros Hcnt. revert D idx. induction l as [|q l IH]; intros D idx Hone; cbn [for_each].
  - by intros [= <- <-].
  - intros ([D1 idx1] & Hstep & Hrest)%bind_Ok. eapply IH; [|done].
    apply bda_step_cases in Hstep as (c0 & cnt & key & Hq & Hcase).
    destruct Hcase as [(node & ns & c & f & f' & k & Hkey & Hnode & Hbump & -> & ->)
                      |(lab & es & d_edges & vn & Hkey & Hlab & Hes & Hloop & -> & ->)];
      simpl; intros x n; rewrite lookup_insert_Some; (intros [[<- <-]|[_ Hx]];
        [|by eapply Hone]); simpl.
    + apply (Hone _ _ Hnode).
    + apply (Hcnt _ _ Hq).
Qed.

Lemma big_dag_append_first_slot dag big_dag D' c1 :
  (∀ q n, dag.1.1.1.1 !! q = Some n → n.1.2 = c1) →
  from_option (λ D, ∀ node n, D_vertices D !! node = Some n → n.1.1 = c1) True big_dag →
  big_dag_append dag big_dag true = Ok D' →
  ∀ node n, D_vertices D' !! node = Some n → n.1.1 = c1.
Proof.
  destruct dag as [[[[vertices vhm] v_ordered] edges] labels].
  intros Hcnt Hone. unfold big_dag_append.
  intros ([[D0 idx] nf] & Hinit & Hloop)%bind_Ok. simpl in Hloop.
  apply bind_Ok in Hloop as ([D1 idx1] & Hloop & [= <-]).
  eapply bda_loop_first_slot; [done| |done].
  destruct big_dag as [D|]; simpl in Hinit; injection Hinit as <- <- <-; [done|].
  intros node n. simpl. by rewrite lookup_empty.
Qed.

Lemma mbd_step_total g h o v :
  (∀ k n, walk g k v n → is_Some (get_labels g !! n)) →
  merged_ok o →
  ∃ D, mbd_step g h o v = Ok (Some D) ∧ merged_ok (Some D).
Proof.
  intros Hlab Hinv. unfold mbd_step.
  destruct (make_dag_odd_hashed v g h Hlab)
    as (dag_odd & vertices & hm & v_ordered & -> & Hhash & Hready & Hne & Hcnt).
  cbn [mbind result_bind]. rewrite Hhash. cbn [mbind result_bind].
  destruct (big_dag_append_merge_total
              (vertices, hm, v_ordered, dag_odd.1.1.2, dag_odd.2) o)
    as (D' & Hfold & Hwf' & Hfreq'); [|done|].
  { destruct o as [D|]; [|done]. by destruct Hinv as (? & ? & _). }
  rewrite Hfold. cbn. exists D'. split; [done|].
  unfold merged_ok. simpl. split; [done|]. split; [done|]. split.
  - eapply (big_dag_append_nonempty _ o true); [|done|done].
    destruct o as [D|]; [|done]. by destruct Hinv.
  - eapply (big_dag_append_first_slot
              (vertices, hm, v_ordered, dag_odd.1.1.2, dag_odd.2) o _ 1%Z);
      [exact Hcnt| |exact Hfold].
    destruct o as [D|]; [|done]. by destruct Hinv as (_ & _ & _ & ?).
Qed.

Lemma mbd_loop_total g h l o :
  (∀ v, v ∈ l → ∀ k n, walk g k v n → is_Some (get_labels g !! n)) →
  merged_ok o →
  ∃ o', for_each (mbd_step g h) o l = Ok o' ∧ merged_ok o' ∧
        (l ≠ [] → is_Some o').
Proof.
  revert o. induction l as [|v l IH]; intros o Hlab Hinv; cbn [for_each].
  - by exists o.
  - destruct (mbd_step_total g h o v) as (D & -> & HinvD); [apply Hlab; by left|done|].
    cbn [mbind result_bind].
    destruct (IH (Some D)) as (o' & Hloop & Hinv' & Hsome);
      [intros w Hw; apply Hlab; by right|done|].
    exists o'. split; [done|]. split; [done|]. intros _.
    destruct l as [|w l]; [|by apply Hsome].
    cbn [for_each] in Hloop. injection Hloop as <-. by eexists.
Qed.

(** The Big DAG that the loop of [make_big_dag] has built is ready for
    [odd]. *)
Lemma big_wf_odd_ready D :
  big_wf D → odd_ready (VDict (D_vertices D)) (D_edges D) (D_labels D).
Proof.
  intros Hwf. pose proof (big_wf_acyclic D Hwf) as Hacyclic.
  destruct Hwf as (Hdense & Hde & Hdl & Hhm & Hreg & Hedges).
  assert (∀ x, x ∈ edge_targets (D_edges D) → x ∈ dom (D_vertices D)) as Htgt.
  { intros x (node & es & Hnode & Hx)%elem_of_edge_targets.
    destruct (Hedges node es Hnode) as [_ Hlt]. specialize (Hlt x Hx).
    apply elem_of_dom, Hdense.
    assert (node < size (D_vertices D)); [|lia].
    apply Hdense, elem_of_dom. rewrite <- Hde. by apply elem_of_dom. }
  split; [done|]. split; [done|]. split.
  - intros x Hx. assert (x ∈ dom (D_vertices D)) as Hdom.
    { destruct Hx as [Hx|Hx]; [done|by apply Htgt]. }
    split; apply elem_of_dom; by rewrite ?Hde, ?Hdl.
  - intros k es Hk _. left. simpl. rewrite <- Hde. by apply elem_of_dom.
Qed.

(** The end of [make_big_dag], after the loop. *)
Lemma make_big_dag_finish D :
  merged_ok (Some D) →
  ∃ t v_ordered vertices,
    odd (VDict (D_vertices D)) (D_edges D) (D_labels D) = Ok t ∧
    py_sorted rank_le (rank_key t.1.2 (D_labels D)) (dict_keys (D_vertices D))
      = Ok v_ordered ∧
    dict_mapM as_dnode (D_vertices D) = Ok vertices ∧
    dag_ready (vertices, D_hash_map D, v_ordered, t.1.1.2, D_labels D) ∧
    v_ordered ≠ [] ∧
    (∀ v, v ∈ v_ordered ↔ v ∈ dom (D_vertices D)) ∧
    (∀ q n, vertices !! q = Some n →
       n.1.1 = 1%Z ∧ ∃ f, D_vertices D !! q = Some (1%Z, Scalar f, n.2) ∧ n.1.2 = f).
Proof.
  intros (Hwf & Hfreq & Hne & Hone).
  destruct (odd_sufficient _ _ _ (big_wf_odd_ready D Hwf)) as [t Hodd].
  destruct (odd_spec _ _ _ _ Hodd) as (edges' & ordering & -> & _ & Hlab & Hranked & Hedges).
  destruct (py_sorted_total rank_le (rank_key ordering (D_labels D))
              (dict_keys (D_vertices D))) as [v_ordered Hsort].
  { intros x Hx%elem_of_dict_keys. destruct (Hranked x Hx) as [o Ho].
    destruct (Hlab x) as [lb Hlb]; [by eexists|]. exists (o, lb). by apply rank_key_Ok. }
  destruct (dict_mapM_total as_dnode (D_vertices D)) as [vertices Hmap].
  { intros k [[c f] key] Hk. destruct (Hfreq _ _ Hk) as [a Ha]. simpl in Ha. subst f.
    by eexists. }
  exists (VDict (D_vertices D), edges', ordering, D_labels D), v_ordered, vertices.
  split; [done|]. split; [done|]. split; [done|].
  pose proof (py_sorted_perm _ _ _ _ Hsort) as Hperm.
  pose proof (dict_mapM_spec _ _ _ Hmap) as Hspec.
  assert (∀ v, v ∈ v_ordered ↔ v ∈ dom (D_vertices D)) as Hin.
  { intros v. by rewrite Hperm, elem_of_dict_keys. }
  assert (∀ q, q ∈ dom (D_vertices D) → is_Some (vertices !! q)) as Hkeys.
  { intros q [n Hn]%elem_of_dom. specialize (Hspec q). rewrite Hn in Hspec.
    destruct Hspec as (w & _ & ->). by eexists. }
  destruct Hwf as (Hdense & Hde & Hdl & Hhm & Hreg & Hedges').
  split; [|split; [|split; [done|]]].
  - simpl. intros q Hq%Hin. split; [by apply Hkeys|].
    split; [apply elem_of_dom; by rewrite Hdl|].
    assert (is_Some (D_edges D !! q)) as [es Hes].
    { apply elem_of_dom. by rewrite Hde. }
    specialize (Hedges q). rewrite Hes in Hedges.
    destruct Hedges as (es' & Hes' & Hp & _). exists es'. split; [done|].
    intros c Hc. rewrite Hp in Hc. apply Hkeys, elem_of_dom, Hdense.
    destruct (Hedges' q es Hes) as [_ Hlt]. specialize (Hlt c Hc).
    assert (q < size (D_vertices D)); [|lia]. by apply Hdense, elem_of_dom.
  - intros ->. apply Hne. apply map_empty. intros i. apply eq_None_not_Some.
    intros Hi%elem_of_dom%Hin. by apply elem_of_nil in Hi.
  - intros q n Hq. specialize (Hspec q).
    destruct (D_vertices D !! q) as [[[c f] key]|] eqn:Hn; [|congruence].
    destruct Hspec as (w & Hw & Hq'). assert (w = n) as -> by congruence.
    destruct (Hfreq _ _ Hn) as [a Ha]. simpl in Ha. subst f. injection Hw as <-.
    pose proof (Hone _ _ Hn) as Hc. simpl in Hc. subst c. split; [done|]. by exists a.
Qed.

(** [make_big_dag] on a graph that is in order. *)
Lemma make_big_dag_total g h :
  graph_ok g →
  ∃ vertices hm v_ordered edges labels,
    make_big_dag g h = Ok (vertices, hm, v_ordered, edges, labels) ∧
    dag_ready (vertices, hm, v_ordered, edges, labels) ∧
    v_ordered ≠ [] ∧ NoDup v_ordered ∧
    (∀ q, q ∈ v_ordered ↔ is_Some (vertices !! q)) ∧
    (∀ q n, vertices !! q = Some n → n.1.1 = 1%Z ∧ hm !! n.2 = Some [q]).
Proof.
  intros [Hne Hlab]. unfold make_big_dag.
  destruct (mbd_loop_total g h (get_vertices g) None Hlab I) as (o & -> & Hinv & Hsome).
  destruct (Hsome Hne) as [D ->]. cbn [mbind result_bind].
  destruct (make_big_dag_finish D Hinv)
    as (t & v_ordered & vertices & Hodd & Hsort & Hmap & Hready & Hvo & Hin & Hvs).
  rewrite Hodd. destruct t as [[[tv te] to] tl]. cbn [mbind result_bind].
  simpl in Hsort. rewrite Hsort. cbn [mbind result_bind]. rewrite Hmap. cbn.
  exists vertices, (D_hash_map D), v_ordered, te, (D_labels D).
  split; [done|]. split; [done|]. split; [done|].
  pose proof (py_sorted_perm _ _ _ _ Hsort) as Hperm.
  pose proof (dict_mapM_spec _ _ _ Hmap) as Hspec.
  split; [rewrite Hperm; apply NoDup_dict_keys|]. split.
  - intros q. rewrite Hin, elem_of_dom. specialize (Hspec q).
    destruct (D_vertices D !! q) as [n|].
    + destruct Hspec as (w & _ & ->). split; by eexists.
    + rewrite Hspec. split; by intros [? ?].
  - intros q n Hq. destruct (Hvs q n Hq) as [Hone (f & Hn & _)]. split; [done|].
    destruct Hinv as ((_ & _ & _ & _ & Hreg & _) & _). apply (Hreg _ _ Hn).
Qed.

Lemma make_big_dag_needs g h r : make_big_dag g h = Ok r → graph_ok g.
Proof.
  unfold make_big_dag. intros (o & Hloop & Hrest)%bind_Ok. split.
  - intros Hg. rewrite Hg in Hloop. cbn in Hloop. by injection Hloop as <-.
  - intros v Hv.
    destruct (for_each_Ok_inv _ _ _ _ v Hloop Hv) as (o1 & o2 & Hstep).
    unfold mbd_step in Hstep. apply bind_Ok in Hstep as (t & Hdag & _).
    by eapply make_dag_odd_labelled.
Qed.

(** [make_big_dag] returns if and only if the graph has a vertex and every
    vertex that a walk from a listed vertex reaches has a label. *)
Theorem make_big_dag_returns_iff g h :
  (∃ r, make_big_dag g h = Ok r) ↔ graph_ok g.
Proof.
  split; [intros [r Hr]; by eapply make_big_dag_needs|].
  intros (vertices & hm & v_ordered & edges & labels & Hrun & _)%(make_big_dag_total g h).
  by eexists.
Qed.

(** The dag returned by [make_big_dag]: [v_ordered] lists its nodes once
    each, every node has a label and an edge list whose targets are nodes,
    every identity belongs to exactly one node, and the first slot of
    every node is [1]: the depth-weights computed by [hash_trees] are not
    carried over. *)
Theorem make_big_dag_result g h vertices hm v_ordered edges labels :
  make_big_dag g h = Ok (vertices, hm, v_ordered, edges, labels) →
  dag_ready (vertices, hm, v_ordered, edges, labels) ∧
  v_ordered ≠ [] ∧ NoDup v_ordered ∧
  (∀ q, q ∈ v_ordered ↔ is_Some (vertices !! q)) ∧
  (∀ q n, vertices !! q = Some n → n.1.1 = 1%Z ∧ hm !! n.2 = Some [q]).
Proof.
  intros Hrun.
  destruct (make_big_dag_total g h (make_big_dag_needs _ _ _ Hrun))
    as (vertices' & hm' & v_ordered' & edges' & labels' & Hrun' & Hfacts).
  rewrite Hrun in Hrun'. by injection Hrun' as <- <- <- <- <-.
Qed.

(** ** Complete runs: [odd_sth_matrix] *)

(** The Big DAG of the first [k] graphs. *)
Lemma fold_graph_total h o g k :
  graph_ok g →
  match o with
  | None => k = 0
  | Some D => big_wf D ∧ vectors_of k (D_vertices D) ∧ D_vertices D ≠ ∅
  end →
  ∃ D', fold_graph h o g = Ok (Some D') ∧
        big_wf D' ∧ vectors_of (S k) (D_vertices D') ∧ D_vertices D' ≠ ∅.
Proof.
  intros Hg Hinv. unfold fold_graph.
  destruct (make_big_dag_total g h Hg)
    as (vertices & hm & v_ordered & edges & labels & -> & Hready & Hne & _).
  cbn [mbind result_bind].
  destruct (big_dag_append_vector_total (vertices, hm, v_ordered, edges, labels) o k)
    as (D' & Hfold & Hwf' & Hvec'); [|done|].
  { destruct o as [D|]; [|done]. destruct Hinv as (? & ? & ?). done. }
  rewrite Hfold. cbn. exists D'. split; [done|]. split; [done|]. split; [done|].
  eapply (big_dag_append_nonempty _ o false); [|done|done].
  destruct o as [D|]; [|done]. by destruct Hinv.
Qed.

Lemma fold_loop_total h l o k :
  Forall graph_ok l →
  match o with
  | None => k = 0
  | Some D => big_wf D ∧ vectors_of k (D_vertices D) ∧ D_vertices D ≠ ∅
  end →
  ∃ o', for_each (fold_graph h) o l = Ok o' ∧
    match o' with
    | None => k = 0 ∧ l = []
    | Some D => big_wf D ∧ vectors_of (k + length l) (D_vertices D)
    end.
Proof.
  intros Hl. revert o k. induction Hl as [|g l Hg _ IH]; intros o k Hinv; cbn [for_each].
  - exists o. split; [done|]. destruct o as [D|]; [|done].
    rewrite Nat.add_0_r. by destruct Hinv as (? & ? & _).
  - destruct (fold_graph_total h o g k Hg Hinv) as (D1 & -> & Hinv1).
    cbn [mbind result_bind].
    destruct (IH (Some D1) (S k) Hinv1) as (o' & Hloop & Hinv').
    exists o'. split; [done|]. destruct o' as [D'|]; [|by destruct Hinv'].
    simpl. replace (k + S (length l)) with (S k + length l) by lia. done.
Qed.

Lemma kernel_sum_total D ng i j :
  vectors_of ng (D_vertices D) → i < ng → j < ng →
  ∃ k, kernel_sum (D_vertices D) (weights D) i j = Ok k.
Proof.
  intros Hvec Hi Hj. unfold kernel_sum.
  assert (∀ v, v ∈ dict_keys (weights D) → is_Some (D_vertices D !! v)) as Hkeys.
  { intros v Hv%elem_of_dict_keys. apply elem_of_dom. unfold weights in Hv.
    by rewrite dom_fmap_L in Hv. }
  generalize 0%Z. induction (dict_keys (weights D)) as [|v l IH]; intros k0;
    cbn [for_each]; [by eexists|].
  destruct (Hkeys v) as [[[c f] key] Hv]; [by left|].
  assert (kernel_term (D_vertices D) (weights D) i j k0 v
          = Ok (k0 + node_term (D_vertices D) (weights D) i j v)%Z) as ->.
  { unfold kernel_term, getitem. rewrite Hv. cbn [mbind result_bind].
    destruct (Hvec _ _ Hv) as (lv & Hlv & Hlen). simpl in Hlv. subst f.
    destruct (lookup_lt_is_Some_2 lv i) as [a Ha]; [lia|].
    destruct (lookup_lt_is_Some_2 lv j) as [b Hb]; [lia|].
    unfold freq_item. rewrite Ha, Hb. cbn [mbind result_bind].
    unfold weights, node_term. rewrite lookup_fmap, Hv. simpl. by rewrite Ha, Hb. }
  cbn [mbind result_bind]. apply IH. intros; apply Hkeys; by right.
Qed.

Lemma kernel_fill_total D ng offset K0 pairs :
  vectors_of ng (D_vertices D) →
  (∀ p, p ∈ pairs → p.1 < ng ∧ p.2 < ng) →
  ∃ K, for_each (kernel_fill (D_vertices D) (weights D) offset) K0 pairs = Ok K.
Proof.
  intros Hvec. revert K0. induction pairs as [|p pairs IH]; intros K0 Hp; cbn [for_each].
  - by eexists.
  - destruct (Hp p) as [Hi Hj]; [by left|].
    destruct (kernel_sum_total D ng p.1 p.2 Hvec Hi Hj) as [k Hk].
    assert (kernel_fill (D_vertices D) (weights D) offset K0 p
            = Ok (mset K0 (p.1 - offset) p.2 k)) as ->.
    { unfold kernel_fill. by rewrite Hk. }
    cbn [mbind result_bind]. apply IH. intros; apply Hp; by right.
Qed.

(** When the matrix function runs to completion. *)
Lemma odd_sth_matrix_runs Gx Gy h :
  (∃ K, odd_sth_matrix Gx Gy h = Ok K) ↔
  Gx ++ default [] Gy ≠ [] ∧ Forall graph_ok (Gx ++ default [] Gy).
Proof.
  unfold odd_sth_matrix.
  assert (∀ l, (∃ D, for_each (fold_graph h) None l = Ok (Some D)) →
               l ≠ [] ∧ Forall graph_ok l) as Hneeds.
  { intros l [D Hloop]. split.
    - intros ->. by cbn in Hloop.
    - apply Forall_forall. intros g Hg.
      destruct (for_each_Ok_inv _ _ _ _ g Hloop Hg) as (o1 & o2 & Hstep).
      unfold fold_graph in Hstep. apply bind_Ok in Hstep as (r & Hr & _).
      by eapply make_big_dag_needs. }
  assert (∀ l, l ≠ [] → Forall graph_ok l →
               ∃ D, for_each (fold_graph h) None l = Ok (Some D) ∧
                    vectors_of (length l) (D_vertices D)) as Hgives.
  { intros l Hne Hl. destruct (fold_loop_total h l None 0 Hl eq_refl) as (o & Hloop & Ho).
    destruct o as [D|]; [|by destruct Ho]. exists D. split; [done|]. by destruct Ho. }
  destruct Gy as [Gy|]; simpl.
  - split.
    + intros [K (o & Hloop & HK)%bind_Ok]. destruct o as [D|]; [|done].
      apply Hneeds. by exists D.
    + intros [Hne Hl]. destruct (Hgives _ Hne Hl) as (D & -> & Hvec).
      cbn [mbind result_bind].
      destruct (kernel_fill_total D (length (Gx ++ Gy)) (length Gx)
                  (zeros (length Gy) (length Gx)) (cross_pairs (length Gx) (length Gy)))
        as [K ->]; [done| |by eexists].
      intros [i j] Hp%elem_of_cross_pairs. rewrite length_app. simpl. lia.
  - rewrite app_nil_r. split.
    + intros [K (o & Hloop & HK)%bind_Ok]. destruct o as [D|]; [|done].
      apply Hneeds. by exists D.
    + intros [Hne Hl]. destruct (Hgives _ Hne Hl) as (D & -> & Hvec).
      cbn [mbind result_bind].
      destruct (kernel_fill_total D (length Gx) 0
                  (zeros (length Gx) (length Gx)) (self_pairs (length Gx)))
        as [K ->]; [done| |by eexists].
      intros [i j] Hp%elem_of_self_pairs. simpl. lia.
Qed.

(** [odd_sth_matrix] returns a matrix if and only if there is at least one
    graph and each graph has a vertex and a label for every vertex that a
    walk from a listed vertex reaches; [odd_sth] returns if and only if
    this holds for its two graphs.  On every other input they raise. *)
Theorem odd_sth_matrix_returns_iff Gx Gy X Y h :
  ((∃ K, odd_sth_matrix Gx Gy h = Ok K) ↔
     Gx ++ default [] Gy ≠ [] ∧ Forall graph_ok (Gx ++ default [] Gy)) ∧
  ((∃ k, odd_sth X Y h = Ok k) ↔ graph_ok X ∧ graph_ok Y).
Proof.
  split; [apply odd_sth_matrix_runs|].
  unfold odd_sth. split.
  - intros [k (K & HK & _)%bind_Ok].
    destruct (proj1 (odd_sth_matrix_runs [X] (Some [Y]) None)) as [_ Hok];
      [by eexists|].
    simpl in Hok. apply Forall_cons in Hok as [HX Hok].
    by apply Forall_cons in Hok as [HY _].
  - intros [HX HY].
    destruct (proj2 (odd_sth_matrix_runs [X] (Some [Y]) None)) as [K ->];
      [|by eexists].
    split; [done|]. simpl. constructor; [done|]. constructor; [done|]. constructor.
Qed.

Lemma make_big_dag_result_witness :
  (1 = 1)%Z ∧
  ({["a"%string := [0]]} : gmap string (list nat)) !! "a"%string = Some [0].
Proof.
  destruct (make_big_dag_result one_vertex None
              {[0 := (1%Z, 1%Z, "a"%string)]} {["a"%string := [0]]} [0]
              {[0 := []]} {[0 := "a"%string]}) as (_ & _ & _ & _ & Hnodes);
    [vm_compute; reflexivity|].
  apply (Hnodes 0 (1%Z, 1%Z, "a"%string)). vm_compute. reflexivity.
Defined.

(** ** [big_dag_append]: the count of every node *)

Lemma count_of_nil vertices key : count_of vertices [] key = 0%Z.
Proof. reflexivity. Qed.

Lemma sumZ_app l1 l2 : sumZ (l1 ++ l2) = (sumZ l1 + sumZ l2)%Z.
Proof.
  induction l1 as [|x l1 IH]; [done|].
  change ((x :: l1) ++ l2) with (x :: (l1 ++ l2)). rewrite !sumZ_cons, IH. lia.
Qed.

Lemma count_of_snoc vertices l q key c0 cnt kq :
  vertices !! q = Some (c0, cnt, kq) →
  count_of vertices (l ++ [q]) key =
    (count_of vertices l key + if decide (kq = key) then cnt else 0)%Z.
Proof.
  intros Hq. unfold count_of, total_count.
  rewrite filter_app, fmap_app. rewrite filter_cons, filter_nil.
  assert (id_of vertices q = kq) as Hid by (unfold id_of; by rewrite Hq).
  rewrite sumZ_app. f_equal. rewrite Hid. case_decide; simpl; [|done].
  rewrite Hq. unfold sumZ. simpl. lia.
Qed.

Lemma count_of_unregistered vertices l key :
  (∀ q, q ∈ l → id_of vertices q ≠ key) → count_of vertices l key = 0%Z.
Proof.
  intros Hl. unfold count_of.
  assert (filter (λ q, id_of vertices q = key) l = []) as ->; [|done].
  induction l as [|q l IH]; [done|].
  rewrite filter_cons, decide_False by (apply Hl; by left).
  apply IH. intros; apply Hl; by right.
Qed.

(** One step of the fold, seen from every node. *)
Lemma bda_step_node_counts mf nf vertices vhm v_ordered edges labels
    (base : nat → Z) pre D idx q D' idx' :
  big_wf D → idx = size (D_vertices D) →
  (∀ node n, D_vertices D !! node = Some n →
     freq_last n.1.2 = (base node + count_of vertices pre n.2)%Z) →
  (∀ node, D_vertices D !! node = None → base node = 0%Z) →
  (∀ q', q' ∈ pre → is_Some (D_hash_map D !! id_of vertices q')) →
  bda_step mf nf (vertices, vhm, v_ordered, edges, labels) (D, idx) q = Ok (D', idx') →
  ∀ node n, D_vertices D' !! node = Some n →
    freq_last n.1.2 = (base node + count_of vertices (pre ++ [q]) n.2)%Z.
Proof.
  intros (Hdense & Hde & Hdl & Hhm & Hreg & Hedges) -> Hcount Hbase Hpre Hstep.
  apply bda_step_cases in Hstep as (c0 & cnt & key & Hq & Hcase).
  destruct Hcase as [(node0 & ns & c & f & f' & k & Hkey & Hnode & Hbump & -> & ->)
                    |(lab & es & d_edges & vn & Hkey & Hlab & Hes & Hloop & -> & ->)];
    simpl; intros node n; rewrite lookup_insert_Some; intros [[<- <-]|[Hne Hn]]; simpl.
  - destruct (Hhm _ _ Hkey) as (x & cx & fx & [= <- ->] & Hx).
    assert (k = key) as -> by congruence.
    rewrite (count_of_snoc _ _ _ _ _ _ _ Hq), decide_True by done.
    rewrite (bump_last _ _ _ _ Hbump). specialize (Hcount _ _ Hnode). simpl in Hcount.
    lia.
  - rewrite (count_of_snoc _ _ _ _ _ _ _ Hq), decide_False; [rewrite (Hcount _ _ Hn); lia|].
    intros Heq. apply Hreg in Hn. rewrite <- Heq, Hkey in Hn. by injection Hn.
  - rewrite (count_of_snoc _ _ _ _ _ _ _ Hq), decide_True by done.
    rewrite Hbase by (apply eq_None_not_Some; intros ?%Hdense; lia).
    rewrite count_of_unregistered.
    + destruct mf; simpl; [lia|]. rewrite last_snoc. simpl. lia.
    + intros q' Hq' Heq. destruct (Hpre q' Hq') as [? Hsome]. congruence.
  - rewrite (count_of_snoc _ _ _ _ _ _ _ Hq), decide_False; [rewrite (Hcount _ _ Hn); lia|].
    intros Heq. apply Hreg in Hn. rewrite <- Heq in Hn. congruence.
Qed.

Lemma bda_loop_node_counts mf nf vertices vhm v_ordered edges labels
    (base : nat → Z) l pre D idx D' idx' :
  big_wf D → idx = size (D_vertices D) →
  (∀ node n, D_vertices D !! node = Some n →
     freq_last n.1.2 = (base node + count_of vertices pre n.2)%Z) →
  (∀ node, D_vertices D !! node = None → base node = 0%Z) →
  (∀ q', q' ∈ pre → is_Some (D_hash_map D !! id_of vertices q')) →
  for_each (bda_step mf nf (vertices, vhm, v_ordered, edges, labels)) (D, idx) l
    = Ok (D', idx') →
  ∀ node n, D_vertices D' !! node = Some n →
    freq_last n.1.2 = (base node + count_of vertices (pre ++ l) n.2)%Z.
Proof.
  revert pre D idx. induction l as [|q l IH]; intros pre D idx Hwf Hidx Hcount Hbase Hpre;
    cbn [for_each].
  - intros [= <- <-]. by rewrite app_nil_r.
  - intros ([D1 idx1] & Hstep & Hrest)%bind_Ok.
    destruct (bda_step_big_wf _ _ _ _ _ _ _ _ _ _ _ _ Hwf Hidx Hstep)
      as (Hwf1 & Hidx1 & Hkeep1 & Hreg1).
    rewrite (assoc_L (++) pre [q] l : pre ++ q :: l = (pre ++ [q]) ++ l).
    eapply (IH (pre ++ [q]) D1 idx1); [done|done| | | |done].
    + exact (bda_step_node_counts _ _ _ _ _ _ _ _ _ _ _ _ _ _
               Hwf Hidx Hcount Hbase Hpre Hstep).
    + intros node Hnone. apply Hbase. destruct (D_vertices D !! node) as [n|] eqn:Hn; [|done].
      destruct Hkeep1 as (Hv & _). destruct (Hv _ _ Hn) as [f' Hn']. congruence.
    + intros q' [Hq'|Hq'%list_elem_of_singleton]%elem_of_app.
      * destruct (Hpre q' Hq') as [ns Hns]. exists ns.
        destruct Hkeep1 as (_ & Hsub & _). by eapply lookup_weaken.
      * by subst q'.
Qed.

Lemma big_dag_append_node_last dag big_dag mf D' :
  (∀ D, big_dag = Some D → big_wf D) →
  big_dag_append dag big_dag mf = Ok D' →
  ∀ node n, D_vertices D' !! node = Some n →
    freq_last n.1.2 =
      ((if mf then from_option (λ D, node_last (D_vertices D) node) 0 big_dag else 0)
       + count_of dag.1.1.1.1 dag.1.1.2 n.2)%Z.
Proof.
  destruct dag as [[[[vertices vhm] v_ordered] edges] labels].
  intros Hwf. unfold big_dag_append.
  intros ([[D0 idx] nf] & Hinit & Hloop)%bind_Ok. simpl in Hloop.
  apply bind_Ok in Hloop as ([D1 idx1] & Hloop & [= <-]).
  destruct (bda_init_big_wf _ _ _ _ _ Hwf Hinit) as (Hwf0 & Hidx & Hkeep0).
  simpl.
  apply (bda_loop_node_counts mf nf vertices vhm v_ordered edges labels _ v_ordered []
           D0 idx D1 idx1 Hwf0 Hidx); [| |by intros q ?%elem_of_nil|done].
  - intros node n Hn. rewrite count_of_nil, Z.add_0_r.
    destruct big_dag as [D|]; simpl in Hinit.
    + destruct mf.
      * injection Hinit as <- <- <-. simpl. unfold node_last. by rewrite Hn.
      * apply bind_Ok in Hinit as (Dv0 & Hmap & [= <- <- <-]). simpl in Hn.
        apply append_zero_spec in Hmap as (_ & _ & Hbwd).
        destruct (Hbwd _ _ Hn) as (n0 & l & _ & _ & ->). simpl. by rewrite last_snoc.
    + injection Hinit as <- <- <-. simpl in Hn. by rewrite lookup_empty in Hn.
  - intros node Hnone. destruct mf; [|done].
    destruct big_dag as [D|]; simpl in *; [|done].
    injection Hinit as <- <- <-. unfold node_last. by rewrite Hnone.
Qed.

(** The count of every node after a fold: the integer frequency (merge
    mode) or the last entry of the frequency vector (vector mode) of a node
    is the sum of the occurrence counts of the vertices of the folded dag
    that carry the identity of the node, plus, in merge mode, the frequency
    the node had before. *)
Theorem big_dag_append_node_counts dag big_dag mf D' node n :
  from_option big_wf True big_dag →
  big_dag_append dag big_dag mf = Ok D' →
  D_vertices D' !! node = Some n →
  freq_last n.1.2 =
    ((if mf then from_option (λ D, node_last (D_vertices D) node) 0 big_dag else 0)
     + count_of dag.1.1.1.1 dag.1.1.2 n.2)%Z.
Proof.
  intros Hwf Hfold Hn.
  assert (∀ D, big_dag = Some D → big_wf D) as Hwf' by (by intros D ->).
  exact (big_dag_append_node_last dag big_dag mf D' Hwf' Hfold node n Hn).
Qed.

(** ** [big_dag_append]: the slots of the frequency vectors *)

Lemma bda_step_init nf vertices vhm v_ordered edges labels D idx q D' idx' :
  big_wf D → idx = size (D_vertices D) →
  bda_step false nf (vertices, vhm, v_ordered, edges, labels) (D, idx) q = Ok (D', idx') →
  ∀ node n', D_vertices D' !! node = Some n' →
    freq_init n'.1.2 =
      from_option (λ n : bnode, freq_init n.1.2) (replicate (nf - 1) 0%Z)
                  (D_vertices D !! node).
Proof.
  intros (Hdense & _) -> Hstep.
  apply bda_step_cases in Hstep as (c0 & cnt & key & Hq & Hcase).
  destruct Hcase as [(node0 & ns & c & f & f' & k & Hkey & Hnode & Hbump & -> & ->)
                    |(lab & es & d_edges & vn & Hkey & Hlab & Hes & Hloop & -> & ->)];
    simpl; intros node n; rewrite lookup_insert_Some; intros [[<- <-]|[Hne Hn]]; simpl.
  - rewrite Hnode. simpl. unfold bump in Hbump. destruct f as [a|l]; [done|].
    destruct (last l) as [a|]; [|done]. injection Hbump as <-. simpl.
    by rewrite removelast_last.
  - by rewrite Hn.
  - assert (D_vertices D !! size (D_vertices D) = None) as ->.
    { apply eq_None_not_Some. intros ?%Hdense. lia. }
    simpl. by rewrite removelast_last.
  - by rewrite Hn.
Qed.

Lemma bda_loop_init nf vertices vhm v_ordered edges labels l D idx D' idx' :
  big_wf D → idx = size (D_vertices D) →
  for_each (bda_step false nf (vertices, vhm, v_ordered, edges, labels)) (D, idx) l
    = Ok (D', idx') →
  ∀ node n', D_vertices D' !! node = Some n' →
    freq_init n'.1.2 =
      from_option (λ n : bnode, freq_init n.1.2) (replicate (nf - 1) 0%Z)
                  (D_vertices D !! node).
Proof.
  revert D idx. induction l as [|q l IH]; intros D idx Hwf Hidx; cbn [for_each].
  - intros [= <- <-] node n' Hn. by rewrite Hn.
  - intros ([D1 idx1] & Hstep & Hrest)%bind_Ok node n' Hn'.
    destruct (bda_step_big_wf _ _ _ _ _ _ _ _ _ _ _ _ Hwf Hidx Hstep)
      as (Hwf1 & Hidx1 & Hkeep1 & _).
    rewrite (IH _ _ Hwf1 Hidx1 Hrest node n' Hn').
    destruct (D_vertices D1 !! node) as [n1|] eqn:Hn1; simpl.
    + by apply (bda_step_init _ _ _ _ _ _ _ _ _ _ _ Hwf Hidx Hstep).
    + destruct (D_vertices D !! node) as [n|] eqn:Hn; [|done].
      destruct Hkeep1 as (Hv & _). destruct (Hv _ _ Hn) as [f' Hn1']. congruence.
Qed.

Lemma big_dag_append_init dag big_dag k D' :
  match big_dag with
  | None => k = 0
  | Some D => big_wf D ∧ vectors_of k (D_vertices D) ∧ (D_vertices D = ∅ → k = 0)
  end →
  big_dag_append dag big_dag false = Ok D' →
  ∀ node n, D_vertices D' !! node = Some n →
    ∃ l, n.1.2 = Vector l ∧ length l = S k ∧ removelast l = old_slots big_dag k node.
Proof.
  destruct dag as [[[[vertices vhm] v_ordered] edges] labels].
  intros Hpre Hfold node n Hn. unfold big_dag_append in Hfold.
  apply bind_Ok in Hfold as ([[D0 idx] nf] & Hinit & Hloop). simpl in Hloop.
  apply bind_Ok in Hloop as ([D1 idx1] & Hloop & [= <-]).
  destruct (bda_init_big_wf big_dag false D0 idx nf) as (Hwf0 & Hidx & _); [|done|].
  { intros D ->. by destruct Hpre. }
  destruct (bda_init_vectors big_dag k D0 idx nf) as [-> Hvec0]; [|done|].
  { destruct big_dag as [D|]; [|done]. by destruct Hpre as (_ & ? & ?). }
  pose proof (bda_loop_init _ _ _ _ _ _ _ _ _ _ _ Hwf0 Hidx Hloop node n Hn) as Hprefix.
  destruct (bda_loop_vectors (S k) _ _ _ _ _ _ _ _ _ _ ltac:(lia) Hvec0 Hloop node n Hn)
    as (l & Hl & Hlen).
  exists l. split; [done|]. split; [done|].
  rewrite Hl in Hprefix. simpl in Hprefix. rewrite Hprefix, Nat.sub_0_r.
  unfold old_slots. destruct big_dag as [D|]; simpl in Hinit |- *.
  - apply bind_Ok in Hinit as (Dv0 & Hmap & [= <- <- _]). simpl.
    apply append_zero_spec in Hmap as (Hdom & Hfwd & Hbwd).
    destruct (D_vertices D !! node) as [[[c f] key]|] eqn:HnD.
    + destruct (Hfwd _ _ HnD) as (l0 & Hl0 & ->). simpl in Hl0 |- *. subst f.
      apply removelast_last.
    + assert (Dv0 !! node = None) as ->; [|done].
      apply not_elem_of_dom. rewrite Hdom. by apply not_elem_of_dom.
  - injection Hinit as <- <- _. simpl. by rewrite lookup_empty.
Qed.

Lemma big_dag_append_slots dag big_dag k D' :
  match big_dag with
  | None => k = 0
  | Some D => big_wf D ∧ vectors_of k (D_vertices D) ∧ (D_vertices D = ∅ → k = 0)
  end →
  big_dag_append dag big_dag false = Ok D' →
  ∀ node n, D_vertices D' !! node = Some n →
    n.1.2 = Vector (old_slots big_dag k node ++ [count_of dag.1.1.1.1 dag.1.1.2 n.2]).
Proof.
  intros Hpre Hfold node n Hn.
  destruct (big_dag_append_init dag big_dag k D' Hpre Hfold node n Hn)
    as (l & Hl & Hlen & Hinit).
  assert (∀ D, big_dag = Some D → big_wf D) as Hwf.
  { intros D ->. by destruct Hpre. }
  pose proof (big_dag_append_node_last dag big_dag false D' Hwf Hfold node n Hn) as Hlast.
  rewrite Hl in Hlast |- *. simpl in Hlast.
  destruct l as [|x l] using rev_ind; [simpl in Hlen; lia|]. clear IHl.
  rewrite last_snoc in Hlast. simpl in Hlast. rewrite removelast_last in Hinit.
  by rewrite Hinit, Hlast.
Qed.

(** In vector mode a fold appends one slot to every vector: a node keeps
    the slots it had, a node that the fold creates starts with [k] zeros,
    and the new last slot holds the sum of the occurrence counts of the
    vertices of the folded dag that carry the identity of the node. *)
Theorem big_dag_append_vector_slots dag big_dag k D' node n :
  from_option (λ D, big_wf D ∧ vectors_of k (D_vertices D) ∧
                    (D_vertices D = ∅ → k = 0)) (k = 0) big_dag →
  big_dag_append dag big_dag false = Ok D' →
  D_vertices D' !! node = Some n →
  n.1.2 = Vector (old_slots big_dag k node ++ [count_of dag.1.1.1.1 dag.1.1.2 n.2]) ∧
  length (old_slots big_dag k node) = k.
Proof.
  intros Hpre Hfold Hn.
  assert (match big_dag with
          | None => k = 0
          | Some D => big_wf D ∧ vectors_of k (D_vertices D) ∧ (D_vertices D = ∅ → k = 0)
          end) as Hpre' by (by destruct big_dag).
  pose proof (big_dag_append_slots dag big_dag k D' Hpre' Hfold node n Hn) as Hslots.
  split; [done|].
  destruct (big_dag_append_init dag big_dag k D' Hpre' Hfold node n Hn)
    as (l & Hl & Hlen & <-).
  destruct l as [|x l] using rev_ind; [simpl in Hlen; lia|].
  rewrite removelast_last. rewrite length_app in Hlen. simpl in Hlen. lia.
Qed.

(** A node that a fold creates comes from a vertex of the folded dag: it
    carries the identity of the vertex, and its first slot is the occurrence
    count of the vertex. *)
Lemma bda_loop_new_nodes mf nf vertices vhm v_ordered edges labels l D idx D' idx' :
  big_wf D → idx = size (D_vertices D) →
  for_each (bda_step mf nf (vertices, vhm, v_ordered, edges, labels)) (D, idx) l
    = Ok (D', idx') →
  ∀ node n, D_vertices D' !! node = Some n →
    is_Some (D_vertices D !! node) ∨
    ∃ q nq, q ∈ l ∧ vertices !! q = Some nq ∧ nq.2 = n.2 ∧ n.1.1 = nq.1.2.
Proof.
  revert D idx. induction l as [|q l IH]; intros D idx Hwf Hidx; cbn [for_each].
  - intros [= <- <-] node n Hn. left. by eexists.
  - intros ([D1 idx1] & Hstep & Hrest)%bind_Ok node n Hn.
    destruct (bda_step_big_wf _ _ _ _ _ _ _ _ _ _ _ _ Hwf Hidx Hstep)
      as (Hwf1 & Hidx1 & Hkeep1 & _).
    destruct (bda_loop_big_wf _ _ _ _ _ _ _ _ _ _ _ _ Hwf1 Hidx1 Hrest)
      as (_ & _ & Hkeep' & _).
    destruct (IH _ _ Hwf1 Hidx1 Hrest node n Hn) as [[n1 Hn1]|(x & nx & Hx & Hrest')].
    2:{ right. exists x, nx. split; [by right|done]. }
    destruct Hkeep' as (Hv' & _). destruct (Hv' _ _ Hn1) as [f' Hn'].
    assert (n = (n1.1.1, f', n1.2)) as -> by congruence. simpl. clear Hn Hn'.
    apply bda_step_cases in Hstep as (c0 & cnt & key & Hq & Hcase).
    destruct Hcase as [(node0 & ns & c & f & f0 & k & Hkey & Hnode & Hbump & -> & ->)
                      |(lab & es & d_edges & vn & Hkey & Hlab & Hes & Hloop & -> & ->)];
      simpl in Hn1; apply lookup_insert_Some in Hn1 as [[<- <-]|[Hne Hn1]].
    + left. by eexists.
    + left. by eexists.
    + right. exists q, (c0, cnt, key). split; [by left|done].
    + left. by eexists.
Qed.

Lemma big_dag_append_new_nodes dag big_dag mf D' :
  (∀ D, big_dag = Some D → big_wf D) →
  big_dag_append dag big_dag mf = Ok D' →
  ∀ node n, D_vertices D' !! node = Some n →
    (∃ D, big_dag = Some D ∧ is_Some (D_vertices D !! node)) ∨
    ∃ q nq, q ∈ dag.1.1.2 ∧ dag.1.1.1.1 !! q = Some nq ∧ nq.2 = n.2 ∧ n.1.1 = nq.1.2.
Proof.
  destruct dag as [[[[vertices vhm] v_ordered] edges] labels].
  intros Hwf. unfold big_dag_append.
  intros ([[D0 idx] nf] & Hinit & Hloop)%bind_Ok node n Hn. simpl in Hloop.
  apply bind_Ok in Hloop as ([D1 idx1] & Hloop & [= <-]).
  destruct (bda_init_big_wf _ _ _ _ _ Hwf Hinit) as (Hwf0 & Hidx & _).
  destruct (bda_loop_new_nodes _ _ _ _ _ _ _ _ _ _ _ _ Hwf0 Hidx Hloop node n Hn)
    as [Hold|Hnew]; [left|by right].
  destruct big_dag as [D|]; simpl in Hinit.
  - exists D. split; [done|]. destruct mf.
    + by injection Hinit as <- <- <-.
    + apply bind_Ok in Hinit as (Dv0 & Hmap & [= <- <- <-]). simpl in Hold.
      apply append_zero_spec in Hmap as (Hdom & _).
      apply elem_of_dom. rewrite <- Hdom. by apply elem_of_dom.
  - injection Hinit as <- <- <-. simpl in Hold. rewrite lookup_empty in Hold.
    by destruct Hold.
Qed.

(** ** [make_big_dag]: what the merged frequencies count *)

Lemma count_of_units vertices l key :
  (∀ q, q ∈ l → ∃ n, vertices !! q = Some n ∧ n.1.2 = 1%Z) →
  count_of vertices l key =
    Z.of_nat (length (filter (λ q, id_of vertices q = key) l)).
Proof.
  intros Hl. unfold count_of, total_count.
  assert (∀ q, q ∈ filter (λ q, id_of vertices q = key) l →
               ∃ n, vertices !! q = Some n ∧ n.1.2 = 1%Z) as Hf.
  { intros q [_ Hq]%list_elem_of_filter. by apply Hl. }
  induction (filter (λ q, id_of vertices q = key) l) as [|q fl IH]; [done|].
  rewrite fmap_cons, sumZ_cons, IH by (intros; apply Hf; by right).
  destruct (Hf q) as (n & -> & Hn); [by left|]. simpl length. simpl from_option. lia.
Qed.

Lemma count_of_nonneg vertices l key :
  (∀ q n, vertices !! q = Some n → (0 ≤ n.1.2)%Z) → (0 ≤ count_of vertices l key)%Z.
Proof.
  intros Hpos. unfold count_of, total_count.
  induction (filter (λ q, id_of vertices q = key) l) as [|q fl IH]; [done|].
  rewrite fmap_cons, sumZ_cons.
  destruct (vertices !! q) as [n|] eqn:Hq; simpl; [|lia].
  specialize (Hpos q n Hq). lia.
Qed.

Lemma count_of_member vertices l key q n :
  (∀ q n, vertices !! q = Some n → (0 ≤ n.1.2)%Z) →
  q ∈ l → vertices !! q = Some n → n.2 = key →
  (n.1.2 ≤ count_of vertices l key)%Z.
Proof.
  intros Hpos Hq Hn Hkey. apply list_elem_of_split in Hq as (l1 & l2 & ->).
  assert (∀ l, (0 ≤ total_count vertices l)%Z) as Hnn.
  { intros l. unfold total_count. induction l as [|x l IH]; [done|].
    rewrite fmap_cons, sumZ_cons. destruct (vertices !! x) as [nx|] eqn:Hx; simpl; [|lia].
    specialize (Hpos x nx Hx). lia. }
  unfold count_of. rewrite filter_app, filter_cons, decide_True
    by (unfold id_of; by rewrite Hn).
  unfold total_count. rewrite fmap_app, fmap_cons, sumZ_app, sumZ_cons, Hn. simpl.
  pose proof (Hnn (filter (λ q, id_of vertices q = key) l1)).
  pose proof (Hnn (filter (λ q, id_of vertices q = key) l2)).
  unfold total_count in *. lia.
Qed.

Lemma count_of_registered vertices l key :
  count_of vertices l key ≠ 0%Z → ∃ q, q ∈ l ∧ id_of vertices q = key.
Proof.
  intros Hne. destruct (filter (λ q, id_of vertices q = key) l) as [|q fl] eqn:Hf.
  - exfalso. apply Hne. unfold count_of. by rewrite Hf.
  - assert (q ∈ filter (λ q, id_of vertices q = key) l) as Hq by (rewrite Hf; by left).
    apply list_elem_of_filter in Hq as [? ?]. by exists q.
Qed.

Lemma mbd_step_counts g h done o v o' :
  merged_counts g done o →
  mbd_step g h o v = Ok o' →
  merged_counts g (done ++ [v]) o'.
Proof.
  intros Hinv. unfold mbd_step.
  intros (dag_odd & Hdag & Hrest)%bind_Ok.
  apply bind_Ok in Hrest as ([[vertices hm] vo] & Hhash & Hrest). simpl in Hrest.
  apply bind_Ok in Hrest as (D1 & Hfold & [= <-]).
  destruct dag_odd as [[[vx ex] ox] lx].
  destruct (hash_trees_facts _ _ _ _ _ _ _ Hhash) as (_ & _ & Hkeys & Hunit).
  assert (∀ key, root_count g v key = count_of vertices vo key) as Hroot.
  { intros key. unfold root_count.
    change (make_dag_odd v g None) with (make_dag_odd v g h). rewrite Hdag.
    cbn [mbind result_bind]. rewrite Hhash. symmetry. apply count_of_units.
    intros q [n Hn]%Hkeys. exists n. split; [done|]. by eapply Hunit. }
  assert (∀ q n, vertices !! q = Some n → (0 ≤ n.1.2)%Z) as Hpos.
  { intros q n Hn. rewrite (Hunit _ _ Hn). lia. }
  assert (∀ D, o = Some D → big_wf D) as Hwf.
  { intros D ->. by destruct Hinv. }
  destruct (big_dag_append_facts _ _ _ _ Hwf Hfold) as (Hwf1 & Hkeep & Hreg).
  pose proof (big_dag_append_node_last _ _ _ _ Hwf Hfold) as Hlast.
  pose proof (big_dag_append_new_nodes _ _ _ _ Hwf Hfold) as Hnew.
  simpl in Hreg, Hlast, Hnew.
  split; [done|]. split.
  - intros node n Hn. specialize (Hlast node n Hn). rewrite <- Hroot in Hlast.
    rewrite fmap_app, sumZ_app, fmap_cons, sumZ_cons. simpl.
    change (sumZ []) with 0%Z.
    destruct o as [D|]; simpl in Hlast.
    + destruct Hinv as (HwfD & Hcounts & Hregd).
      destruct (Hkeep D eq_refl) as (Hv & Hsub & _).
      unfold node_last in Hlast.
      destruct (D_vertices D !! node) as [n0|] eqn:Hn0; simpl in Hlast.
      * destruct (Hv _ _ Hn0) as [f' Hn']. assert (n0.2 = n.2) as Hk.
        { rewrite Hn in Hn'. by injection Hn' as ->. }
        destruct (Hcounts _ _ Hn0) as [Hsum Hone]. rewrite Hk in Hsum.
        pose proof (count_of_nonneg vertices vo n.2 Hpos) as Hnn.
        rewrite <- Hroot in Hnn. split; lia.
      * assert (sumZ ((λ v0, root_count g v0 n.2) <$> done) = 0%Z) as Hzero.
        { assert (∀ v0, v0 ∈ done → root_count g v0 n.2 = 0%Z) as Hall.
          { intros v0 Hv0. destruct (decide (root_count g v0 n.2 = 0%Z)) as [?|Hne];
              [done|exfalso].
            destruct (Hregd v0 n.2 Hv0 Hne) as [ns Hns].
            destruct HwfD as (_ & _ & _ & Hhm & _).
            destruct (Hhm _ _ Hns) as (x & cx & fx & -> & Hx).
            destruct (Hv _ _ Hx) as [f' Hx']. simpl in Hx'.
            destruct Hwf1 as (_ & _ & _ & _ & Hreg1 & _).
            pose proof (Hreg1 _ _ Hx') as H1. pose proof (Hreg1 _ _ Hn) as H2.
            simpl in H1. rewrite H1 in H2. injection H2 as ->. congruence. }
          clear -Hall. induction done as [|v0 done IH]; [done|].
          rewrite fmap_cons, sumZ_cons, Hall by (by left).
          rewrite IH; [done|]. intros; apply Hall; by right. }
        rewrite Hzero. split; [lia|].
        destruct (Hnew node n Hn) as [(D0 & [= <-] & [? ?])|(q & nq & Hq & Hnq & Hk & _)];
          [congruence|].
        pose proof (count_of_member vertices vo n.2 q nq Hpos Hq Hnq Hk) as Hle.
        rewrite (Hunit _ _ Hnq) in Hle. rewrite <- Hroot in Hle. lia.
    + unfold merged_counts in Hinv. subst done. simpl. change (sumZ []) with 0%Z.
      split; [lia|].
      destruct (Hnew node n Hn) as [(D0 & [=] & _)|(q & nq & Hq & Hnq & Hk & _)].
      pose proof (count_of_member vertices vo n.2 q nq Hpos Hq Hnq Hk) as Hle.
      rewrite (Hunit _ _ Hnq) in Hle. rewrite <- Hroot in Hle. lia.
  - intros v0 key [Hv0|Hv0%list_elem_of_singleton]%elem_of_app Hne.
    + destruct o as [D|];
        [|unfold merged_counts in Hinv; subst done; by apply elem_of_nil in Hv0].
      destruct Hinv as (_ & _ & Hregd). destruct (Hregd v0 key Hv0 Hne) as [ns Hns].
      exists ns. destruct (Hkeep D eq_refl) as (_ & Hsub & _). by eapply lookup_weaken.
    + subst v0. rewrite Hroot in Hne.
      destruct (count_of_registered _ _ _ Hne) as (q & Hq & <-). by apply Hreg.
Qed.

Lemma mbd_loop_counts g h l done o o' :
  merged_counts g done o →
  for_each (mbd_step g h) o l = Ok o' →
  merged_counts g (done ++ l) o'.
Proof.
  revert done o. induction l as [|v l IH]; intros done o Hinv; cbn [for_each].
  - intros [= <-]. by rewrite app_nil_r.
  - intros (o1 & Hstep & Hrest)%bind_Ok.
    rewrite (assoc_L (++) done [v] l : done ++ v :: l = (done ++ [v]) ++ l).
    eapply IH; [|done]. by eapply mbd_step_counts.
Qed.

(** The facts about the counts in the dag returned by [make_big_dag]. *)
Lemma make_big_dag_count_facts g h vertices hm v_ordered edges labels :
  make_big_dag g h = Ok (vertices, hm, v_ordered, edges, labels) →
  (∀ q n, vertices !! q = Some n →
     n.1.2 = subtree_count g n.2 ∧ (1 ≤ n.1.2)%Z) ∧
  (∀ key, count_of vertices v_ordered key = subtree_count g key).
Proof.
  intros Hrun.
  destruct (make_big_dag_total g h (make_big_dag_needs _ _ _ Hrun))
    as (vertices' & hm' & v_ordered' & edges' & labels' & Hrun' &
        Hready & Hne & Hnd & Hin & Hnodes).
  rewrite Hrun in Hrun'. injection Hrun' as <- <- <- <- <-.
  unfold make_big_dag in Hrun. apply bind_Ok in Hrun as (o & Hloop & Hrest).
  destruct o as [D|]; [|done].
  apply bind_Ok in Hrest as ([[[tv te] to] tl] & Hodd & Hrest). simpl in Hrest.
  apply bind_Ok in Hrest as (vo & Hsort & Hrest).
  apply bind_Ok in Hrest as (vs & Hmap & [= <- <- <- <- <-]).
  pose proof (mbd_loop_counts g h (get_vertices g) [] None _ eq_refl Hloop)
    as (HwfD & Hcounts & Hregd). simpl in Hcounts, Hregd.
  pose proof (dict_mapM_spec _ _ _ Hmap) as Hspec.
  assert (∀ q n, vs !! q = Some n →
            n.1.2 = subtree_count g n.2 ∧ (1 ≤ n.1.2)%Z) as Hvs.
  { intros q n Hq. specialize (Hspec q).
    destruct (D_vertices D !! q) as [[[c f] key]|] eqn:HnD; [|congruence].
    destruct Hspec as (w & Hw & Hq'). assert (w = n) as -> by congruence.
    destruct f as [a|l]; [|done]. injection Hw as <-. simpl.
    destruct (Hcounts _ _ HnD) as [Hsum Hone]. simpl in Hsum, Hone. by subst a. }
  split; [done|]. intros key.
  assert ((∃ q, q ∈ vo ∧ id_of vs q = key) ∨ (∀ q, q ∈ vo → id_of vs q ≠ key))
    as [(q & Hq & Hid)|Hnone].
  { destruct (filter (λ x, id_of vs x = key) vo) as [|q fl] eqn:Hf.
    - right. intros q Hq Hid.
      assert (q ∈ filter (λ x, id_of vs x = key) vo) as Hqf
        by (by apply list_elem_of_filter).
      rewrite Hf in Hqf. by apply elem_of_nil in Hqf.
    - left. exists q.
      assert (q ∈ filter (λ x, id_of vs x = key) vo) as Hqf by (rewrite Hf; by left).
      by apply list_elem_of_filter in Hqf as [? ?]. }
  - destruct (proj1 (Hin q) Hq) as [n Hn].
    assert (n.2 = key) as Hkey by (unfold id_of in Hid; by rewrite Hn in Hid).
    assert (filter (λ x, id_of vs x = key) vo = [q]) as Hf.
    { assert (∀ x, x ∈ filter (λ x, id_of vs x = key) vo ↔ x = q) as Hone.
      { intros x. rewrite list_elem_of_filter. split; [|by intros ->].
        intros [Hx Hxvo]. destruct (proj1 (Hin x) Hxvo) as [nx Hnx].
        destruct (Hnodes _ _ Hnx) as [_ H1]. destruct (Hnodes _ _ Hn) as [_ H2].
        unfold id_of in Hx. rewrite Hnx in Hx. simpl in Hx. rewrite Hx, <- Hkey, H2 in H1.
        by injection H1. }
      pose proof (NoDup_filter (λ x, id_of vs x = key) _ Hnd) as Hndf.
      destruct (filter (λ x, id_of vs x = key) vo) as [|a [|b fl]].
      - pose proof (proj2 (Hone q) eq_refl) as Hq'. by apply elem_of_nil in Hq'.
      - f_equal. apply Hone. by left.
      - exfalso. apply NoDup_cons in Hndf as [Hab _]. apply Hab.
        rewrite (proj1 (Hone a)) by (by left).
        rewrite (proj1 (Hone b)) by (right; by left). by left. }
    unfold count_of. rewrite Hf. unfold total_count. simpl. rewrite Hn. simpl.
    change (sumZ [n.1.2]) with (n.1.2 + 0)%Z. destruct (Hvs _ _ Hn) as [-> _].
    rewrite Hkey. lia.
  - rewrite count_of_unregistered by done.
    symmetry. unfold subtree_count.
    assert (∀ v, v ∈ get_vertices g → root_count g v key = 0%Z) as Hall.
    { intros v Hv. destruct (decide (root_count g v key = 0%Z)) as [?|Hnz]; [done|exfalso].
      destruct (Hregd v key Hv Hnz) as [ns Hns].
      destruct HwfD as (_ & _ & _ & Hhm & _).
      destruct (Hhm _ _ Hns) as (x & cx & fx & -> & Hx).
      specialize (Hspec x). rewrite Hx in Hspec. destruct Hspec as (w & Hw & Hxs).
      apply (Hnone x); [apply Hin; by eexists|].
      unfold id_of. rewrite Hxs. simpl. destruct fx; [|done]. by injection Hw as <-. }
    clear -Hall. induction (get_vertices g) as [|v l IH]; [done|].
    rewrite fmap_cons, sumZ_cons, Hall by (by left).
    rewrite IH; [done|]. intros; apply Hall; by right.
Qed.

(** The occurrence count that [make_big_dag] returns with a node is the
    number of times the subtree of the node occurs in the graph: the number
    of pairs of a root [v] and a vertex of the dag of [v] whose subtree has
    the identity of the node.  It is at least [1]. *)
Theorem make_big_dag_counts g h vertices hm v_ordered edges labels q n :
  make_big_dag g h = Ok (vertices, hm, v_ordered, edges, labels) →
  vertices !! q = Some n →
  n.1.2 = subtree_count g n.2 ∧ (1 ≤ n.1.2)%Z.
Proof.
  intros Hrun Hq.
  destruct (make_big_dag_count_facts _ _ _ _ _ _ _ Hrun) as [Hvs _]. by eapply Hvs.
Qed.

(** ** [odd_sth_matrix]: what the frequency vectors count *)

Lemma fold_graph_counts h done o g o' :
  folded done o →
  fold_graph h o g = Ok o' →
  folded (done ++ [g]) o'.
Proof.
  intros Hinv. unfold fold_graph.
  intros ([[[[vs hm] vo] es] ls] & Hrun & Hrest)%bind_Ok.
  apply bind_Ok in Hrest as (D1 & Hfold & [= <-]).
  destruct (make_big_dag_total g h (make_big_dag_needs _ _ _ Hrun))
    as (vs' & hm' & vo' & es' & ls' & Hrun' & Hready & Hne & Hnd & Hin & Hnodes).
  rewrite Hrun in Hrun'. injection Hrun' as <- <- <- <- <-.
  destruct (make_big_dag_count_facts _ _ _ _ _ _ _ Hrun) as [Hvs Hcount].
  assert (∀ D, o = Some D → big_wf D) as Hwf.
  { intros D ->. by destruct Hinv. }
  assert (match o with
          | None => length done = 0
          | Some D => big_wf D ∧ vectors_of (length done) (D_vertices D) ∧
                      (D_vertices D = ∅ → length done = 0)
          end) as Hpre.
  { destruct o as [D|]; [|unfold folded in Hinv; by subst done].
    destruct Hinv as (HwfD & HneD & Hnodes' & _). split; [done|]. split; [|done].
    intros node n Hn. destruct (Hnodes' _ _ Hn) as [Hvec _]. eexists. split; [done|].
    by rewrite length_fmap. }
  destruct (big_dag_append_facts _ _ _ _ Hwf Hfold) as (Hwf1 & Hkeep & Hreg).
  pose proof (big_dag_append_slots _ _ _ _ Hpre Hfold) as Hslots.
  pose proof (big_dag_append_new_nodes _ _ _ _ Hwf Hfold) as Hnew.
  simpl in Hreg, Hslots, Hnew.
  assert (∀ D node n, o = Some D → D_vertices D1 !! node = Some n →
            D_vertices D !! node = None →
            ∀ g', g' ∈ done → subtree_count g' n.2 = 0%Z) as Hfresh.
  { intros D node n -> Hn Hnone g' Hg'.
    destruct (decide (subtree_count g' n.2 = 0%Z)) as [?|Hnz]; [done|exfalso].
    destruct Hinv as (HwfD & _ & _ & Hregd).
    destruct (Hregd g' n.2 Hg' Hnz) as [ns Hns].
    destruct HwfD as (_ & _ & _ & Hhm & _).
    destruct (Hhm _ _ Hns) as (x & cx & fx & -> & Hx).
    destruct (Hkeep D eq_refl) as (Hv & _). destruct (Hv _ _ Hx) as [f' Hx'].
    simpl in Hx'. destruct Hwf1 as (_ & _ & _ & _ & Hreg1 & _).
    pose proof (Hreg1 _ _ Hx') as H1. pose proof (Hreg1 _ _ Hn) as H2.
    simpl in H1. rewrite H1 in H2. injection H2 as ->. congruence. }
  split; [done|]. split.
  { eapply (big_dag_append_nonempty _ o false); [|done|done].
    destruct o as [D|]; [|done]. by apply Hwf. }
  split.
  - intros node n Hn. specialize (Hslots node n Hn). rewrite Hcount in Hslots.
    rewrite fmap_app. simpl. unfold old_slots in Hslots.
    destruct o as [D|]; simpl in Hslots.
    + destruct Hinv as (HwfD & HneD & Hnodes' & Hregd).
      destruct (Hkeep D eq_refl) as (Hv & _).
      destruct (D_vertices D !! node) as [n0|] eqn:Hn0.
      * destruct (Hv _ _ Hn0) as [f' Hn'].
        assert (n0.2 = n.2 ∧ n0.1.1 = n.1.1) as [Hk Hc].
        { rewrite Hn in Hn'. by injection Hn' as ->. }
        destruct (Hnodes' _ _ Hn0) as [Hvec (pre & g0 & post & Hdone & Hfirst & Hone & Hzero)].
        rewrite Hk in Hvec, Hfirst, Hzero. rewrite Hc in Hfirst, Hone.
        destruct n0 as [[c0 f0] k0]. simpl in Hvec. subst f0. split; [done|].
        exists pre, g0, (post ++ [g]). split; [by rewrite Hdone, <- app_assoc|done].
      * assert ((λ g0, subtree_count g0 n.2) <$> done = replicate (length done) 0%Z)
          as Hzeros.
        { pose proof (Hfresh D node n eq_refl Hn Hn0) as Hall. clear -Hall.
          induction done as [|g0 done IH]; [done|].
          rewrite fmap_cons, Hall by (by left). simpl. f_equal.
          apply IH. intros; apply Hall; by right. }
        rewrite Hzeros. split; [done|].
        destruct (Hnew node n Hn) as [(D0 & [= <-] & [? ?])|(q & nq & Hq & Hnq & Hk & Hc)];
          [congruence|].
        destruct (Hvs _ _ Hnq) as [Hsub Hone]. rewrite Hk in Hsub.
        exists done, g, []. split; [done|]. split; [congruence|]. split; [lia|].
        by apply (Hfresh D node n).
    + unfold folded in Hinv. subst done. simpl in Hslots |- *. split; [done|].
      destruct (Hnew node n Hn) as [(D0 & [=] & _)|(q & nq & Hq & Hnq & Hk & Hc)].
      destruct (Hvs _ _ Hnq) as [Hsub Hone]. rewrite Hk in Hsub.
      exists [], g, []. split; [done|]. split; [congruence|]. split; [lia|].
      by intros g' ?%elem_of_nil.
  - intros g0 key [Hg0|Hg0%list_elem_of_singleton]%elem_of_app Hnz.
    + destruct o as [D|];
        [|unfold folded in Hinv; subst done; by apply elem_of_nil in Hg0].
      destruct Hinv as (_ & _ & _ & Hregd). destruct (Hregd g0 key Hg0 Hnz) as [ns Hns].
      exists ns. destruct (Hkeep D eq_refl) as (_ & Hsub & _). by eapply lookup_weaken.
    + subst g0. rewrite <- Hcount in Hnz.
      destruct (count_of_registered _ _ _ Hnz) as (q & Hq & <-). by apply Hreg.
Qed.

Lemma fold_loop_counts h l done o o' :
  folded done o →
  for_each (fold_graph h) o l = Ok o' →
  folded (done ++ l) o'.
Proof.
  revert done o. induction l as [|g l IH]; intros done o Hinv; cbn [for_each].
  - intros [= <-]. by rewrite app_nil_r.
  - intros (o1 & Hstep & Hrest)%bind_Ok.
    rewrite (assoc_L (++) done [g] l : done ++ g :: l = (done ++ [g]) ++ l).
    eapply IH; [|done]. by eapply fold_graph_counts.
Qed.

(** The Big DAG that [odd_sth_matrix] builds from the graphs [gs]: the
    frequency vector of a node lists, graph by graph, how often the subtree
    of the node occurs in the graph; the first slot of the node (the weight
    [C] of the kernel sum) is that number for the first graph in which the
    subtree occurs, not the depth-weight of the subtree. *)
Theorem fold_graphs_vectors h gs D node n :
  for_each (fold_graph h) None gs = Ok (Some D) →
  D_vertices D !! node = Some n →
  n.1.2 = Vector ((λ g, subtree_count g n.2) <$> gs) ∧
  ∃ pre g post, gs = pre ++ g :: post ∧
    n.1.1 = subtree_count g n.2 ∧ (1 ≤ n.1.1)%Z ∧
    ∀ g', g' ∈ pre → subtree_count g' n.2 = 0%Z.
Proof.
  intros Hloop Hn.
  pose proof (fold_loop_counts h gs [] None _ eq_refl Hloop) as (_ & _ & Hnodes & _).
  simpl in Hnodes. exact (Hnodes node n Hn).
Qed.

(** A kernel sum in terms of the graphs: the sum, over the distinct
    subtrees, of the number of occurrences in graph [i] times the number of
    occurrences in graph [j] times the weight of the subtree. *)
Theorem kernel_sum_counts h gs D i j gi gj k :
  for_each (fold_graph h) None gs = Ok (Some D) →
  gs !! i = Some gi → gs !! j = Some gj →
  kernel_sum (D_vertices D) (weights D) i j = Ok k →
  k = sumZ ((λ v, from_option
                    (λ n : bnode, subtree_count gi n.2 * subtree_count gj n.2 * n.1.1)
                    0 (D_vertices D !! v))%Z <$> dict_keys (weights D)).
Proof.
  intros Hloop Hi Hj ->%kernel_sum_spec. f_equal.
  pose proof (fold_loop_counts h gs [] None _ eq_refl Hloop) as (_ & _ & Hnodes & _).
  simpl in Hnodes.
  apply list_fmap_ext. intros _ v _. unfold node_term, weights. rewrite lookup_fmap.
  destruct (D_vertices D !! v) as [[[c f] key]|] eqn:Hv; [|done]. simpl.
  destruct (Hnodes _ _ Hv) as [Hvec _]. simpl in Hvec. subst f.
  by rewrite !list_lookup_fmap, Hi, Hj.
Qed.

Lemma big_dag_append_node_counts_witness :
  2%Z = (node_last (D_vertices ab_big) 0 + count_of ab_hashed [1%nat; 0%nat] "b"%string)%Z.
Proof.
  assert (big_dag_append ab_dag (Some ab_big) true =
            Ok (BigDag (double_freq <$> D_vertices ab_big) (D_hash_map ab_big)
                       (D_edges ab_big) (D_labels ab_big))) as Hfold.
  { vm_compute. reflexivity. }
  assert ((double_freq <$> D_vertices ab_big) !! 0 = Some (1%Z, Scalar 2, "b"%string))
    as Hnode.
  { vm_compute. reflexivity. }
  exact (big_dag_append_node_counts ab_dag (Some ab_big) true _ 0 _ ab_big_wf Hfold Hnode).
Defined.

Lemma big_dag_append_vector_slots_witness :
  Vector [1%Z] =
    Vector (old_slots None 0 0 ++ [count_of ab_hashed [1; 0] "b"%string]) ∧
  length (old_slots None 0 0) = 0.
Proof.
  assert (big_dag_append ab_dag None false = Ok ab_big_vec) as Hfold.
  { vm_compute. reflexivity. }
  assert (D_vertices ab_big_vec !! 0 = Some (1%Z, Vector [1%Z], "b"%string)) as Hnode.
  { vm_compute. reflexivity. }
  exact (big_dag_append_vector_slots ab_dag None 0 _ 0 _ eq_refl Hfold Hnode).
Defined.

Lemma make_big_dag_counts_witness :
  1%Z = subtree_count one_vertex "a"%string ∧ (1 ≤ 1)%Z.
Proof.
  apply (make_big_dag_counts one_vertex None
           {[0 := (1%Z, 1%Z, "a"%string)]} {["a"%string := [0]]} [0]
           {[0 := []]} {[0 := "a"%string]} 0 (1%Z, 1%Z, "a"%string));
    vm_compute; reflexivity.
Defined.

Lemma fold_graphs_vectors_witness :
  Vector [1%Z; 1%Z] =
    Vector ((λ g, subtree_count g "a"%string) <$> [one_vertex; one_vertex]).
Proof.
  assert (for_each (fold_graph None) None [one_vertex; one_vertex] = Ok (Some aa_big))
    as Hloop by (vm_compute; reflexivity).
  assert (D_vertices aa_big !! 0 = Some (1%Z, Vector [1%Z; 1%Z], "a"%string))
    as Hnode by (vm_compute; reflexivity).
  exact (proj1 (fold_graphs_vectors None _ aa_big 0 _ Hloop Hnode)).
Defined.

Lemma kernel_sum_counts_witness :
  1%Z = sumZ ((λ v, from_option
                      (λ n : bnode, subtree_count one_vertex n.2 *
                                    subtree_count one_vertex n.2 * n.1.1)
                      0 (D_vertices aa_big !! v))%Z <$> dict_keys (weights aa_big)).
Proof.
  apply (kernel_sum_counts None [one_vertex; one_vertex] aa_big 0 1
           one_vertex one_vertex 1%Z); vm_compute; reflexivity.
Defined.

(** ** The self-comparison matrix is positive semi-definite *)

Lemma sumZ_ext {A} (f g : A → Z) l :
  (∀ x, x ∈ l → f x = g x) → sumZ (f <$> l) = sumZ (g <$> l).
Proof.
  induction l as [|a l IH]; intros Hl; [done|].
  rewrite !fmap_cons, !sumZ_cons, Hl by (by left).
  rewrite IH; [done|]. intros; apply Hl; by right.
Qed.

Lemma sumZ_scale {A} (k : Z) (f : A → Z) l :
  sumZ ((λ x, k * f x)%Z <$> l) = (k * sumZ (f <$> l))%Z.
Proof.
  induction l as [|a l IH]; [unfold sumZ; simpl; lia|].
  rewrite !fmap_cons, !sumZ_cons, IH. lia.
Qed.

Lemma sumZ_plus {A} (f g : A → Z) l :
  sumZ ((λ x, f x + g x)%Z <$> l) = (sumZ (f <$> l) + sumZ (g <$> l))%Z.
Proof.
  induction l as [|a l IH]; [done|].
  rewrite !fmap_cons, !sumZ_cons, IH. lia.
Qed.

Lemma sumZ_zero {A} (l : list A) : sumZ ((λ _, 0%Z) <$> l) = 0%Z.
Proof. induction l as [|a l IH]; [done|]. by rewrite fmap_cons, sumZ_cons, IH. Qed.

Lemma sumZ_swap {A B} (f : A → B → Z) l1 l2 :
  sumZ ((λ a, sumZ ((λ b, f a b) <$> l2)) <$> l1) =
  sumZ ((λ b, sumZ ((λ a, f a b) <$> l1)) <$> l2).
Proof.
  induction l1 as [|a l1 IH].
  - simpl. change (sumZ []) with 0%Z. by rewrite sumZ_zero.
  - rewrite fmap_cons, sumZ_cons, IH.
    rewrite <- sumZ_plus. apply sumZ_ext. intros b _. by rewrite fmap_cons, sumZ_cons.
Qed.

Lemma sumZ_nonneg {A} (f : A → Z) l :
  (∀ x, x ∈ l → (0 ≤ f x)%Z) → (0 ≤ sumZ (f <$> l))%Z.
Proof.
  induction l as [|a l IH]; intros Hl; [done|].
  rewrite fmap_cons, sumZ_cons.
  assert (0 ≤ f a)%Z by (apply Hl; by left).
  assert (0 ≤ sumZ (f <$> l))%Z by (apply IH; intros; apply Hl; by right). lia.
Qed.

Lemma sumZ_square {A} (p : A → Z) l :
  sumZ ((λ a, sumZ ((λ b, p a * p b)%Z <$> l)) <$> l) =
  (sumZ (p <$> l) * sumZ (p <$> l))%Z.
Proof.
  rewrite <- (sumZ_scale (sumZ (p <$> l)) p l)%Z.
  apply sumZ_ext. intros a _. rewrite sumZ_scale. lia.
Qed.

Lemma node_term_slots Dv C i j v :
  node_term Dv C i j v = (slot_of Dv v i * slot_of Dv v j * weight_of Dv C v)%Z.
Proof.
  unfold node_term, slot_of, weight_of.
  destruct (Dv !! v) as [[[c [a|l]] key]|]; [done| |done].
  destruct (C !! v); lia.
Qed.

(** Every entry of the self-comparison matrix, on or off the diagonal. *)
Lemma self_matrix_entries Gx h K :
  odd_sth_matrix Gx None h = Ok K →
  ∃ D, for_each (fold_graph h) None Gx = Ok (Some D) ∧
    ∀ i j, i < length Gx → j < length Gx →
      mget K i j =
        sumZ ((λ v, slot_of (D_vertices D) v i * slot_of (D_vertices D) v j *
                    weight_of (D_vertices D) (weights D) v)%Z
              <$> dict_keys (weights D)).
Proof.
  unfold odd_sth_matrix. intros (big2Dag & Hfold & HK)%bind_Ok.
  destruct big2Dag as [D|]; [|done]. exists D. split; [done|].
  apply bind_Ok in HK as (K0 & Hfill & [= <-]).
  set (n := length Gx) in *.
  assert (shape n n K0) as HK0.
  { eapply kernel_fill_shape; [done|apply shape_zeros]. }
  assert (∀ p, p ∈ self_pairs n → p.1 - 0 < n ∧ p.2 < n) as Hrange.
  { intros [a b] Hab%elem_of_self_pairs. simpl. lia. }
  assert (∀ i j, i < n → j < n → i ≤ j →
            mget K0 i j = sumZ (node_term (D_vertices D) (weights D) i j
                                  <$> dict_keys (weights D))) as Hupper.
  { intros i j Hi Hj Hij. apply kernel_sum_spec.
    destruct (kernel_fill_entry _ _ 0 n n _ _ _ i j Hfill (shape_zeros n n) Hrange)
      as [([a b] & Hin & Ha & Hb & Hsum)|[Hnone _]].
    - simpl in *. by replace a with i in Hsum by lia; subst b.
    - exfalso. apply (Hnone (i, j)); [apply elem_of_self_pairs; lia|simpl; lia]. }
  intros i j Hi Hj.
  rewrite (mget_madd n n), (mget_transpose n n), !mget_triu;
    auto using shape_triu, shape_transpose.
  destruct (decide (i ≤ j)) as [Hij|Hij].
  - rewrite decide_True, decide_False by lia. rewrite Hupper by done.
    rewrite Z.add_0_r. apply sumZ_ext. intros v _. apply node_term_slots.
  - rewrite decide_False, decide_True by lia. rewrite Hupper by lia.
    rewrite Z.add_0_l. apply sumZ_ext. intros v _. rewrite node_term_slots. lia.
Qed.


